(** * A shallow embedding of the particle swarm optimizer [pkg/swarm/swarm.go]

    Go's [float64] is IEEE 754 binary64, which is exactly Rocq's primitive
    [float]; arithmetic and comparisons below are therefore the machine's,
    every operation rounded on its own (no fused multiply-add).
    Go's [uint] and [int] are taken to be 64 bits wide and are held in [Z]
    with the wrap-around written out.  Slices of [float64] live in an
    explicit heap, because the optimizer shares them between fields; the
    velocity slices, which are never shared, are held by value.  Memory is
    not bounded.  What the package takes from outside ([rand.Float64],
    [runtime.GOMAXPROCS], [math.Log10], and the order in which the worker
    pool delivers its results) is a parameter of the methods.  The two
    helpers [dot] and [argmax] of the example program
    ([example/iris/nn.go]) are embedded as pure functions. *)

From Stdlib Require Import ZArith Lia Bool List Floats Reals Lra.
From stdpp Require Import base option list.
Import ListNotations.

Local Open Scope Z_scope.

(** ** Floating point preliminaries *)

Module F64.

Definition zero : float := 0%float.

(** [math.MaxFloat64] *)
Definition MaxFloat64 : float := 0x1.fffffffffffffp+1023%float.

Definition ltb (x y : float) : bool := PrimFloat.ltb x y.
Definition leb (x y : float) : bool := PrimFloat.leb x y.
Definition eqb (x y : float) : bool := PrimFloat.eqb x y.
Definition is_nan (x : float) : bool := PrimFloat.is_nan x.

(** The order of [SFcompare] read through a rank: every float that is not
    a NaN is sent to a triple of integers ordered lexicographically. *)
Definition rank (f : spec_float) : option (Z * Z * Z) :=
  match f with
  | S754_nan => None
  | S754_zero _ => Some (0, 0, 0)
  | S754_infinity true => Some (-2, 0, 0)
  | S754_infinity false => Some (2, 0, 0)
  | S754_finite true m e => Some (-1, - e, - Z.pos m)
  | S754_finite false m e => Some (1, e, Z.pos m)
  end.

Definition lex3 (a b : Z * Z * Z) : comparison :=
  let '(a1, a2, a3) := a in
  let '(b1, b2, b3) := b in
  match a1 ?= b1 with
  | Eq => match a2 ?= b2 with
          | Eq => a3 ?= b3
          | c => c
          end
  | c => c
  end.

Definition rank_compare (x y : spec_float) : option comparison :=
  match rank x, rank y with
  | Some a, Some b => Some (lex3 a b)
  | _, _ => None
  end.

Definition lt3 (a b : Z * Z * Z) : Prop :=
  let '(a1, a2, a3) := a in
  let '(b1, b2, b3) := b in
  a1 < b1 \/ (a1 = b1 /\ (a2 < b2 \/ (a2 = b2 /\ a3 < b3))).

Definition eq3 (a b : Z * Z * Z) : Prop :=
  let '(a1, a2, a3) := a in
  let '(b1, b2, b3) := b in
  a1 = b1 /\ a2 = b2 /\ a3 = b3.

(** The rank of a machine float. *)
Definition rk (x : float) : option (Z * Z * Z) := rank (Prim2SF x).

Definition lt_view (x y : float) : Prop :=
  match rk x, rk y with
  | Some a, Some b => lt3 a b
  | _, _ => False
  end.

Definition le_view (x y : float) : Prop :=
  match rk x, rk y with
  | Some a, Some b => lt3 a b \/ eq3 a b
  | _, _ => False
  end.

Definition eq_view (x y : float) : Prop :=
  match rk x, rk y with
  | Some a, Some b => eq3 a b
  | _, _ => False
  end.

End F64.

Arguments F64.ltb : simpl never.
Arguments F64.leb : simpl never.
Arguments F64.eqb : simpl never.
Arguments F64.is_nan : simpl never.

(** ** Ranges (swarm.go, lines 24-53) *)

(** [type Range [2]float64] *)
Definition Range : Type := float * float.

Definition lower (r : Range) : float := fst r.
Definition upper (r : Range) : float := snd r.

(** The guard [r[0] == 0 && r[1] == 0] shared by [Contains] and [Clip]. *)
Definition unbounded (r : Range) : bool :=
  F64.eqb (lower r) F64.zero && F64.eqb (upper r) F64.zero.

(** [func (r Range) Contains(x float64) bool] *)
Definition Contains (r : Range) (x : float) : bool :=
  if unbounded r then true
  else if F64.ltb x (lower r) || F64.ltb (upper r) x then false
  else true.

(** [func (r Range) Clip(x float64) float64] *)
Definition Clip (r : Range) (x : float) : float :=
  if unbounded r then x
  else if F64.ltb x (lower r) then lower r
  else if F64.ltb (upper r) x then upper r
  else x.

(** ** Machine integers *)

(** [uint(z)]: reduction to 64 unsigned bits. *)
Definition to_uint (z : Z) : Z := z mod 2 ^ 64.

(** [int(z)]: the two's complement reading of the low 64 bits. *)
Definition to_int (z : Z) : Z :=
  let u := z mod 2 ^ 64 in if u <? 2 ^ 63 then u else u - 2 ^ 64.

(** [float64(z)] for an [int] [z]: rounded to nearest, as the conversion is. *)
Definition float64_of_int (z : Z) : float :=
  if 0 <=? z then PrimFloat.of_uint63 (Uint63.of_Z z)
  else if z =? - 2 ^ 63 then PrimFloat.opp (Z.ldexp 1%float 63)
  else PrimFloat.opp (PrimFloat.of_uint63 (Uint63.of_Z (- z))).

(** ** Run-time panics and the state of the world *)

Inductive panic : Type :=
| IndexOutOfRange
| NilDereference
| DivideByZero
| LenOutOfRange
| Deadlock.

Inductive result (A : Type) : Type :=
| Ok (a : A)
| Panic (p : panic).
Arguments Ok {A} a.
Arguments Panic {A} p.

Definition rbind {A B} (r : result A) (k : A -> result B) : result B :=
  match r with
  | Ok a => k a
  | Panic p => Panic p
  end.

(** A slice of [float64] is a reference to its backing array. *)
Definition loc : Type := nat.

(** What lies outside the optimizer: the arrays slices point to, how many
    numbers [rand.Float64] has handed out, and how many evaluation rounds
    the worker pool has served. *)
Record World : Type := mkWorld {
  heap : list (list float);
  draws : nat;
  rounds : nat
}.

Definition M (A : Type) : Type := World -> result (A * World).

Definition ret {A} (a : A) : M A := fun w => Ok (a, w).

Definition bind {A B} (c : M A) (k : A -> M B) : M B :=
  fun w => match c w with
           | Ok (a, w') => k a w'
           | Panic p => Panic p
           end.

Definition throw {A} (p : panic) : M A := fun _ => Panic p.

Definition lift {A} (r : result A) : M A :=
  fun w => match r with Ok a => Ok (a, w) | Panic p => Panic p end.

Declare Scope go_scope.
Delimit Scope go_scope with go.
Notation "'let!' x ':=' c 'in' k" := (bind c (fun x => k))
  (at level 10, x name, c at level 100, k at level 200) : go_scope.
Notation "'let!' '_' ':=' c 'in' k" := (bind c (fun _ => k))
  (at level 10, c at level 100, k at level 200) : go_scope.
Notation "'let?' x ':=' r 'in' k" := (rbind r (fun x => k))
  (at level 10, x name, r at level 100, k at level 200) : go_scope.

Local Open Scope go_scope.

(** [for _, a := range l { s = f s a }] *)
Fixpoint foldM {A S} (f : S -> A -> M S) (l : list A) (s : S) : M S :=
  match l with
  | [] => ret s
  | a :: l' => let! s' := f s a in foldM f l' s'
  end.

(** [0, 1, ..., n-1] for a loop [for i := 0; i < n; i++]. *)
Definition upto (n : Z) : list nat := seq 0 (Z.to_nat n).

(** [make([]float64, n)] *)
Definition zeros (n : nat) : list float := repeat F64.zero n.

(** Allocation of a fresh backing array. *)
Definition alloc (v : list float) : M loc :=
  fun w => Ok (length (heap w),
               mkWorld (heap w ++ [v]) (draws w) (rounds w)).

(** Reading the whole array behind a slice. *)
Definition load (l : loc) : M (list float) :=
  fun w => match heap w !! l with
           | Some v => Ok (v, w)
           | None => Panic NilDereference
           end.

(** Overwriting the array behind a slice. *)
Definition store (l : loc) (v : list float) : M unit :=
  fun w => Ok (tt, mkWorld (<[l := v]> (heap w)) (draws w) (rounds w)).

(** [a[i]] for reading; out of range panics. *)
Definition index {A} (a : list A) (i : nat) : result A :=
  match a !! i with
  | Some x => Ok x
  | None => Panic IndexOutOfRange
  end.

(** [a[i] = x]; out of range panics. *)
Definition assign {A} (a : list A) (i : nat) (x : A) : result (list A) :=
  if (i <? length a)%nat then Ok (<[i := x]> a) else Panic IndexOutOfRange.

(** [a[i]] for an [int] index: a negative index panics as well. *)
Definition indexZ {A} (a : list A) (i : Z) : result A :=
  if i <? 0 then Panic IndexOutOfRange else index a (Z.to_nat i).

(** The values [copy(dst, src)] leaves in [dst]. *)
Definition copied {A} (dst src : list A) : list A :=
  take (length dst) src ++ drop (length src) dst.

(** [copy(dst, src)] on two slices of [float64]. *)
Definition copy_slice (dst src : loc) : M unit :=
  let! s := load src in let! d := load dst in store dst (copied d s).

(** [a[i] = x] on the array behind a slice. *)
Definition poke (l : loc) (i : nat) (x : float) : M unit :=
  let! v := load l in
  let! v' := lift (assign v i x) in
  store l v'.

(** [make(_, n)] refuses a length that is negative as an [int]. *)
Definition make_len (n : Z) : result nat :=
  if to_int n <? 0 then Panic LenOutOfRange else Ok (Z.to_nat (to_int n)).

(** ** Vectors (swarm.go, lines 341-368) *)

Definition fadd (x y : float) : float := PrimFloat.add x y.
Definition fsub (x y : float) : float := PrimFloat.sub x y.
Definition fmul (x y : float) : float := PrimFloat.mul x y.
Definition fdiv (x y : float) : float := PrimFloat.div x y.

Arguments fadd : simpl never.
Arguments fsub : simpl never.
Arguments fmul : simpl never.
Arguments fdiv : simpl never.

(** The inner loop of [sum]: [for i, vi := range v { result[i] += vi }]. *)
Fixpoint accumulate (res v : list float) : result (list float) :=
  match v, res with
  | [], _ => Ok res
  | _ :: _, [] => Panic IndexOutOfRange
  | vi :: v', ri :: res' =>
      let? t := accumulate res' v' in Ok (fadd ri vi :: t)
  end.

Fixpoint sum_into (res : list float) (vs : list (list float)) : result (list float) :=
  match vs with
  | [] => Ok res
  | v :: vs' => let? res' := accumulate res v in sum_into res' vs'
  end.

(** [func sum(vs ...[]float64) []float64] *)
Definition sum (vs : list (list float)) : result (list float) :=
  let? v0 := index vs 0 in sum_into (zeros (length v0)) vs.

(** [func sub(u, v []float64) []float64] *)
Fixpoint sub (u v : list float) : result (list float) :=
  match u, v with
  | [], _ => Ok []
  | _ :: _, [] => Panic IndexOutOfRange
  | ui :: u', vi :: v' => let? t := sub u' v' in Ok (fsub ui vi :: t)
  end.

(** [func scale(v []float64, s float64) []float64] *)
Definition scale (v : list float) (s : float) : list float :=
  map (fun vi => fmul vi s) v.

(** ** Options and the optimizer (swarm.go, lines 16-22 and 55-112) *)

Definition Fitness : Type := list float -> float.
Definition Constraint : Type := list float -> bool.

Record Options : Type := mkOptions {
  LocalSize : Z;
  PopulationSize : Z;
  Parallelism : Z;
  Bounds : list Range;
  Constraints : list Constraint;
  Inertia : float;
  ParticleStep : float;
  LocalStep : float;
  GlobalStep : float;
  StallLimit : Z;
  Verbose : bool;
  WaitMagnitude : float;
  groupCount : Z
}.

Record Optimizer : Type := mkOptimizer {
  fitness : Fitness;
  shape : list Range;
  options : Options;
  positions : list loc;
  velocities : list (list float);
  stallCount : list Z;
  particleBestPosition : list loc;
  particleBestFitness : list float;
  localBestPosition : list loc;
  localBestFitness : list float;
  globalBestPosition : loc;
  globalBestFitness : float;
  averageFitness : float
}.

Definition set_velocities (v : list (list float)) (o : Optimizer) : Optimizer :=
  mkOptimizer (fitness o) (shape o) (options o) (positions o) v
    (stallCount o) (particleBestPosition o) (particleBestFitness o)
    (localBestPosition o) (localBestFitness o) (globalBestPosition o)
    (globalBestFitness o) (averageFitness o).

Definition set_stallCount (c : list Z) (o : Optimizer) : Optimizer :=
  mkOptimizer (fitness o) (shape o) (options o) (positions o) (velocities o)
    c (particleBestPosition o) (particleBestFitness o)
    (localBestPosition o) (localBestFitness o) (globalBestPosition o)
    (globalBestFitness o) (averageFitness o).

Definition set_particleBestFitness (f : list float) (o : Optimizer) : Optimizer :=
  mkOptimizer (fitness o) (shape o) (options o) (positions o) (velocities o)
    (stallCount o) (particleBestPosition o) f
    (localBestPosition o) (localBestFitness o) (globalBestPosition o)
    (globalBestFitness o) (averageFitness o).

Definition set_localBestFitness (f : list float) (o : Optimizer) : Optimizer :=
  mkOptimizer (fitness o) (shape o) (options o) (positions o) (velocities o)
    (stallCount o) (particleBestPosition o) (particleBestFitness o)
    (localBestPosition o) f (globalBestPosition o)
    (globalBestFitness o) (averageFitness o).

Definition set_globalBestFitness (f : float) (o : Optimizer) : Optimizer :=
  mkOptimizer (fitness o) (shape o) (options o) (positions o) (velocities o)
    (stallCount o) (particleBestPosition o) (particleBestFitness o)
    (localBestPosition o) (localBestFitness o) (globalBestPosition o)
    f (averageFitness o).

Definition set_averageFitness (f : float) (o : Optimizer) : Optimizer :=
  mkOptimizer (fitness o) (shape o) (options o) (positions o) (velocities o)
    (stallCount o) (particleBestPosition o) (particleBestFitness o)
    (localBestPosition o) (localBestFitness o) (globalBestPosition o)
    (globalBestFitness o) f.

(** [func (opt *Optimizer) Best() []float64]; [None] is the nil slice. *)
Definition Best (o : option Optimizer) : option loc :=
  match o with
  | None => None
  | Some opt => Some (globalBestPosition opt)
  end.

(** ** The optimizer's methods *)

Inductive error : Type := ErrInvalidShape.

Section Methods.

(** The k-th number handed out by [rand.Float64] (math/rand, not part of
    this package). *)
Variable rand : nat -> float.

(** The order in which the results of the k-th evaluation round reach the
    collecting loop of [updateFitness]: the worker pool may deliver them in
    any order, every particle index once. *)
Variable arrival : nat -> list nat.

(** [runtime.GOMAXPROCS(0)] *)
Variable GOMAXPROCS : Z.

(** [math.Log10] *)
Variable Log10 : float -> float.

(** [rand.Float64()] *)
Definition Float64 : M float :=
  fun w => Ok (rand (draws w), mkWorld (heap w) (S (draws w)) (rounds w)).

(** The defaulting of [New] (lines 137-167). *)
Definition resolve (dims : nat) (o : Options) : Options :=
  let localSize := if LocalSize o =? 0 then 25 else LocalSize o in
  let populationSize :=
    if PopulationSize o =? 0
    then to_uint (to_uint (10 * localSize) * to_uint (Z.of_nat dims))
    else PopulationSize o in
  let count := to_int (populationSize / localSize) in
  mkOptions
    localSize
    populationSize
    (if Parallelism o =? 0 then to_uint GOMAXPROCS else Parallelism o)
    (Bounds o)
    (Constraints o)
    (if F64.eqb (Inertia o) F64.zero then 0x1.e666666666666p-1%float else Inertia o)
    (if F64.eqb (ParticleStep o) F64.zero then 0.75%float else ParticleStep o)
    (if F64.eqb (LocalStep o) F64.zero then 0.5%float else LocalStep o)
    (if F64.eqb (GlobalStep o) F64.zero then 0x1.999999999999ap-4%float else GlobalStep o)
    (if StallLimit o =? 0 then 3 else StallLimit o)
    (Verbose o)
    (if F64.eqb (WaitMagnitude o) F64.zero then 2%float else WaitMagnitude o)
    count.

(** Lines 185-190: one position, velocity and personal-best array per
    particle. *)
Definition new_particle (dims : nat)
    (acc : list loc * list loc) (_ : nat) : M (list loc * list loc) :=
  let! p := alloc (zeros dims) in
  let! b := alloc (zeros dims) in
  ret (fst acc ++ [p], snd acc ++ [b]).

(** Lines 193-195: the draw of one coordinate of one particle. *)
Definition draw_coordinate (j : nat) (r : Range)
    (acc : list loc * list (list float)) (i : nat)
    : M (list loc * list (list float)) :=
  let '(pos, vel) := acc in
  let delta := fsub (upper r) (lower r) in
  let! p := lift (index pos i) in
  let! u := Float64 in
  let! _ := poke p j (fadd (lower r) (fmul delta u)) in
  let! vi := lift (index vel i) in
  let! u' := Float64 in
  let! vi' := lift (assign vi j (fmul (fsub (fmul 2%float u') 1%float) delta)) in
  ret (pos, <[i := vi']> vel).

(** Lines 191-197: [for j, r := range opt.shape]. *)
Fixpoint draw_all (population : Z) (j : nat) (rs : list Range)
    (acc : list loc * list (list float)) : M (list loc * list (list float)) :=
  match rs with
  | [] => ret acc
  | r :: rs' =>
      let! acc' := foldM (draw_coordinate j r) (upto population) acc in
      draw_all population (S j) rs' acc'
  end.

(** Lines 202-207: the best of group [i] starts as a copy of the values of
    particle [i * LocalSize]. *)
Definition new_group (dims : nat) (localSize : Z) (pos : list loc)
    (acc : list loc) (i : nat) : M (list loc) :=
  let! l := alloc (zeros dims) in
  let idx := to_int (Z.of_nat i * to_int localSize) in
  let! src := lift (indexZ pos idx) in
  let! _ := copy_slice l src in
  ret (acc ++ [l]).

(** The body of [Reset] past the nil check. *)
Definition reset (opt : Optimizer) : M Optimizer :=
  let o := options opt in
  let dims := length (shape opt) in
  let! n := lift (make_len (PopulationSize o)) in
  let population := to_int (PopulationSize o) in
  let! pb := foldM (new_particle dims) (upto population) ([], []) in
  let '(pos0, best0) := pb in
  let vel0 := repeat (zeros dims) n in
  let fit0 := repeat F64.MaxFloat64 n in
  let! pv := draw_all population 0 (shape opt) (pos0, vel0) in
  let '(pos, vel) := pv in
  let best := copied best0 pos in
  let! g := lift (make_len (groupCount o)) in
  let! lbest := foldM (new_group dims (LocalSize o) pos) (upto (groupCount o)) [] in
  let! gbest := alloc (zeros dims) in
  let! p0 := lift (index pos 0) in
  let! _ := copy_slice gbest p0 in
  ret (mkOptimizer (fitness opt) (shape opt) o pos vel (repeat 0 n)
         best fit0 lbest (repeat F64.MaxFloat64 g) gbest F64.MaxFloat64
         (averageFitness opt)).

(** [func (opt *Optimizer) Reset()] *)
Definition Reset (o : option Optimizer) : M (option Optimizer) :=
  match o with
  | None => ret None
  | Some opt => let! opt' := reset opt in ret (Some opt')
  end.

(** [func New(fitness Fitness, shape []Range, options Options)
    (opt *Optimizer, err error)] *)
Definition New (f : Fitness) (sh : list Range) (o : Options)
    : M (option Optimizer * option error) :=
  match sh with
  | [] => ret (None, Some ErrInvalidShape)
  | _ :: _ =>
      let opt := mkOptimizer f sh (resolve (length sh) o) [] [] [] [] [] [] []
                   0%nat F64.zero F64.zero in
      let! opt' := reset opt in
      ret (Some opt', None)
  end.

(** The bounds loop of [getParticleFitness] (lines 228-233). *)
Fixpoint within_bounds (bs : list Range) (i : nat) (position : list float)
    : result bool :=
  match bs with
  | [] => Ok true
  | b :: bs' =>
      let? x := index position i in
      if Contains b x then within_bounds bs' (S i) position else Ok false
  end.

(** The constraints loop of [getParticleFitness] (lines 234-239). *)
Fixpoint within_constraints (cs : list Constraint) (position : list float)
    : bool :=
  match cs with
  | [] => true
  | c :: cs' => if c position then within_constraints cs' position else false
  end.

(** [func (opt *Optimizer) getParticleFitness(idx int) particleFitness]:
    the [fitness] field of the result, [None] for the nil pointer.  It reads
    the world and leaves it as it is. *)
Definition getParticleFitness (opt : Optimizer) (h : list (list float))
    (idx : nat) : result (option float) :=
  let? p := index (positions opt) idx in
  let? position :=
    match h !! p with Some v => Ok v | None => Panic NilDereference end in
  let? inb := within_bounds (Bounds (options opt)) 0 position in
  if negb inb then Ok None
  else if negb (within_constraints (Constraints (options opt)) position)
       then Ok None
       else Ok (Some (fitness opt position)).

(** [result.idx % opt.options.groupCount] *)
Definition group_of (opt : Optimizer) (idx : nat) : result Z :=
  if groupCount (options opt) =? 0 then Panic DivideByZero
  else Ok (Z.rem (Z.of_nat idx) (groupCount (options opt))).

(** Lines 293-296. *)
Definition improve_particle (idx : nat) (f : float) (opt : Optimizer)
    : M Optimizer :=
  let! best := lift (index (particleBestFitness opt) idx) in
  if F64.ltb f best then
    let opt' := set_particleBestFitness (<[idx := f]> (particleBestFitness opt)) opt in
    let! dst := lift (index (particleBestPosition opt) idx) in
    let! src := lift (index (positions opt) idx) in
    let! _ := copy_slice dst src in
    ret opt'
  else ret opt.

(** Lines 298-302. *)
Definition improve_group (idx : nat) (f : float) (opt : Optimizer)
    : M Optimizer :=
  let! g := lift (group_of opt idx) in
  let! best := lift (indexZ (localBestFitness opt) g) in
  if F64.ltb f best then
    let opt' := set_localBestFitness
                  (<[Z.to_nat g := f]> (localBestFitness opt)) opt in
    let! dst := lift (indexZ (localBestPosition opt) g) in
    let! src := lift (index (positions opt) idx) in
    let! _ := copy_slice dst src in
    ret opt'
  else ret opt.

(** Lines 304-307. *)
Definition improve_global (idx : nat) (f : float) (opt : Optimizer)
    : M Optimizer :=
  if F64.ltb f (globalBestFitness opt) then
    let opt' := set_globalBestFitness f opt in
    let! src := lift (index (positions opt) idx) in
    let! _ := copy_slice (globalBestPosition opt) src in
    ret opt'
  else ret opt.

(** One turn of the collecting loop (lines 284-307) on the result
    [(idx, r)]; [avg] and [count] are the running sum and count. *)
Definition collect (acc : Optimizer * float * float)
    (res : nat * option float) : M (Optimizer * float * float) :=
  let '(opt, avg, count) := acc in
  let '(idx, r) := res in
  match r with
  | None =>
      let! c := lift (index (stallCount opt) idx) in
      ret (set_stallCount (<[idx := to_uint (c + 1)]> (stallCount opt)) opt,
           avg, count)
  | Some f =>
      let avg' := fadd avg f in
      let count' := fadd count 1%float in
      let! opt1 := improve_particle idx f opt in
      let! opt2 := improve_group idx f opt1 in
      let! opt3 := improve_global idx f opt2 in
      ret (opt3, avg', count')
  end.

(** What the workers send for the indices in [order].  The collecting
    loop writes best arrays only, so every worker reads the positions as
    they are when the round starts. *)
Fixpoint evaluate (opt : Optimizer) (h : list (list float)) (order : list nat)
    : result (list (nat * option float)) :=
  match order with
  | [] => Ok []
  | idx :: order' =>
      let? r := getParticleFitness opt h idx in
      let? rs := evaluate opt h order' in
      Ok ((idx, r) :: rs)
  end.

(** The next evaluation round: its arrival order, and the round is used up. *)
Definition next_round : M (list nat) :=
  fun w => Ok (arrival (rounds w), mkWorld (heap w) (draws w) (S (rounds w))).

(** The body of [updateFitness] past the nil check.  A channel cannot be
    made with a negative size; with no worker at all and a particle to
    evaluate every goroutine blocks, which the runtime ends as a deadlock;
    a panic in a worker ends the program. *)
Definition update_fitness (opt : Optimizer) : M Optimizer :=
  if to_int (Parallelism (options opt)) <? 0 then throw LenOutOfRange
  else if (to_int (Parallelism (options opt)) =? 0)
          && (0 <? to_int (PopulationSize (options opt)))
  then throw Deadlock
  else
    let! order := next_round in
    let! results := (fun w => lift (evaluate opt (heap w) order) w) in
    let! acc := foldM collect results (opt, F64.zero, F64.zero) in
    let '(opt', avg, count) := acc in
    ret (set_averageFitness (fdiv avg count) opt').

(** [func (opt *Optimizer) updateFitness()] *)
Definition updateFitness (o : option Optimizer) : M (option Optimizer) :=
  match o with
  | None => ret None
  | Some opt => let! opt' := update_fitness opt in ret (Some opt')
  end.

(** Lines 335-337: [for i, bounds := range opt.options.Bounds]. *)
Fixpoint clip_into (p : loc) (np : list float) (bs : list Range) (i : nat)
    : M unit :=
  match bs with
  | [] => ret tt
  | b :: bs' =>
      let! x := lift (index np i) in
      let! _ := poke p i (Clip b x) in
      clip_into p np bs' (S i)
  end.

(** The sum of lines 326-331, from the old velocity and the three scaled
    differences. *)
Definition new_velocity (o : Options) (vi rp rl rg : list float)
    : result (list float) :=
  sum [scale vi (Inertia o); scale rp (ParticleStep o);
       scale rl (LocalStep o); scale rg (GlobalStep o)].

(** One turn of the loop of [Step] (lines 318-337), for particle [idx]. *)
Definition move_particle (opt : Optimizer) (idx : nat) : M Optimizer :=
  let o := options opt in
  let! g := lift (group_of opt idx) in
  let! p := lift (index (positions opt) idx) in
  let! ri := load p in
  let! pb := lift (index (particleBestPosition opt) idx) in
  let! pbest := load pb in
  let! dp := lift (sub pbest ri) in
  let! u1 := Float64 in
  let rp := scale dp u1 in
  let! lb := lift (indexZ (localBestPosition opt) g) in
  let! lbest := load lb in
  let! dl := lift (sub lbest ri) in
  let! u2 := Float64 in
  let rl := scale dl u2 in
  let! gbest := load (globalBestPosition opt) in
  let! dg := lift (sub gbest ri) in
  let! u3 := Float64 in
  let rg := scale dg u3 in
  let! vi := lift (index (velocities opt) idx) in
  let! nv := lift (new_velocity o vi rp rl rg) in
  let opt' := set_velocities (<[idx := nv]> (velocities opt)) opt in
  let! cur := load p in
  let! np := lift (sum [cur; nv]) in
  let! _ := clip_into p np (Bounds o) 0 in
  ret opt'.

(** The loop of [Step]. *)
Definition update_rule (opt : Optimizer) : M Optimizer :=
  foldM move_particle (upto (to_int (PopulationSize (options opt)))) opt.

(** [func (opt *Optimizer) Step()]: [updateFitness] returns at once on a
    nil receiver, and the loop header then reads [opt.options]. *)
Definition Step (o : option Optimizer) : M (option Optimizer) :=
  let! o1 := updateFitness o in
  match o1 with
  | None => throw NilDereference
  | Some opt => let! opt' := update_rule opt in ret (Some opt')
  end.

(** [Step] on a receiver known not to be nil. *)
Definition step (opt : Optimizer) : M Optimizer :=
  let! opt1 := update_fitness opt in update_rule opt1.

(** *** The convergence loop (lines 370-411) *)

(** The local variables of [StepUntil]. *)
Record Controller : Type := mkController {
  steps : Z;
  stepsSinceImprovement : Z;
  last : float
}.

(** Line 394, over any carrier of numbers: [waitedFor > W &&
    waitLimit-waitedFor < W]. *)
Definition stop_rule {T : Type} (of_int : Z -> T) (log10 : T -> T)
    (minus : T -> T -> T) (lt : T -> T -> bool)
    (total stalled : Z) (W : T) : bool :=
  let waitLimit := log10 (of_int total) in
  let waitedFor := log10 (of_int stalled) in
  lt W waitedFor && lt (minus waitLimit waitedFor) W.

(** The rule on [float64], as the program runs it. *)
Definition stop (total stalled : Z) (W : float) : bool :=
  stop_rule float64_of_int Log10 fsub F64.ltb total stalled W.

(** Lines 389-404, after the step of this turn: the counters move, and
    the flag tells whether the loop breaks. *)
Definition judge (minProgressRate W : float) (c : Controller)
    (best : float) : Controller * bool :=
  let total := to_int (steps c + 1) in
  if F64.ltb (fsub (last c) best) minProgressRate then
    let stalled := to_int (stepsSinceImprovement c + 1) in
    if stop total stalled W
    then (mkController total stalled (last c), true)
    else (mkController total stalled best, false)
  else (mkController total 0 best, false).

(** One turn of the [for] loop. *)
Definition turn (minProgressRate : float) (acc : Optimizer * Controller)
    : M (Optimizer * Controller * bool) :=
  let '(opt, c) := acc in
  let! opt' := step opt in
  let '(c', brk) :=
    judge minProgressRate (WaitMagnitude (options opt')) c
      (globalBestFitness opt') in
  ret (opt', c', brk).

(** The loop, run for at most [fuel] turns; [None] when it is still
    running after them. *)
Fixpoint loop (fuel : nat) (minProgressRate : float)
    (acc : Optimizer * Controller) : M (option (Optimizer * Z)) :=
  match fuel with
  | O => ret None
  | S fuel' =>
      let! r := turn minProgressRate acc in
      let '(opt', c', brk) := r in
      if brk then ret (Some (opt', steps c'))
      else loop fuel' minProgressRate (opt', c')
  end.

(** [func (opt *Optimizer) StepUntil(progressRate float64) (steps int)];
    the log lines of [Verbose] are left out. *)
Definition StepUntil (fuel : nat) (progressRate : float)
    (o : option Optimizer) : M (option (option Optimizer * Z)) :=
  match o with
  | None => ret (Some (None, 0))
  | Some opt =>
      let! opt1 := step opt in
      let c := mkController 1 0 (globalBestFitness opt1) in
      let! r := loop fuel (PrimFloat.abs progressRate) (opt1, c) in
      match r with
      | None => ret None
      | Some (opt', n) => ret (Some (Some opt', n))
      end
  end.

End Methods.

(** ** The helpers of the example (example/iris/nn.go) *)

(** [func dot(u, v []float64) (result float64)]: the loop
    [for i, ui := range u { result += ui * v[i] }] from index [i] on. *)
Fixpoint dot_from (u v : list float) (i : nat) (acc : float) : result float :=
  match u with
  | [] => Ok acc
  | ui :: u' =>
      let? vi := index v i in
      dot_from u' v (S i) (fadd acc (fmul ui vi))
  end.

Definition dot (u v : list float) : result float := dot_from u v 0 F64.zero.

(** The loop of [argmax] from index [i] on, over the entries not yet
    visited: [if input[i] > m { m = input[i]; idx = i }]. *)
Fixpoint argmax_from (rest : list float) (i : nat) (m : float) (idx : nat)
    : nat :=
  match rest with
  | [] => idx
  | x :: rest' =>
      if F64.ltb m x then argmax_from rest' (S i) x i
      else argmax_from rest' (S i) m idx
  end.

(** [func argmax(input []float64) (idx int)]: [m := input[0]] first. *)
Definition argmax (input : list float) : result nat :=
  match input with
  | [] => Panic IndexOutOfRange
  | x0 :: rest => Ok (argmax_from rest 1 x0 0)
  end.

(** * The vocabulary of the properties *)

(** [new] is [old] itself or a strictly lower fitness. *)
Definition improves (old new : float) : Prop :=
  new = old \/ F64.ltb new old = true.

(** The three kinds of best of [b] against those of [a]. *)
Definition bests_improve (a b : Optimizer) : Prop :=
  Forall2 improves (particleBestFitness a) (particleBestFitness b) /\
  Forall2 improves (localBestFitness a) (localBestFitness b) /\
  improves (globalBestFitness a) (globalBestFitness b).

(** [n] calls of [Step] in a row on a receiver that is not nil. *)
Fixpoint run (rand : nat -> float) (arrival : nat -> list nat) (n : nat)
    (opt : Optimizer) : M Optimizer :=
  match n with
  | O => ret opt
  | S n' => let! opt' := step rand arrival opt in run rand arrival n' opt'
  end.

(** No particle is feasible in any of the next [n] evaluation rounds. *)
Fixpoint barren (rand : nat -> float) (arrival : nat -> list nat) (n : nat)
    (opt : Optimizer) (w : World) : Prop :=
  match n with
  | O => True
  | S n' =>
      (forall idx f, idx ∈ arrival (rounds w) ->
                     getParticleFitness opt (heap w) idx <> Ok (Some f)) /\
      (forall opt' w', step rand arrival opt w = Ok (opt', w') ->
                       barren rand arrival n' opt' w')
  end.

(** The fitness side of the bests is the same in [a] and [b]. *)
Definition same_best_fitness (a b : Optimizer) : Prop :=
  particleBestFitness b = particleBestFitness a /\
  localBestFitness b = localBestFitness a /\
  globalBestFitness b = globalBestFitness a.

(** The callbacks, the options and every slice header are the same in [a]
    and [b]: a step writes through the slices, it never re-points them. *)
Definition same_static (a b : Optimizer) : Prop :=
  fitness b = fitness a /\ shape b = shape a /\ options b = options a /\
  positions b = positions a /\
  particleBestPosition b = particleBestPosition a /\
  localBestPosition b = localBestPosition a /\
  globalBestPosition b = globalBestPosition a.

(** From index [i] on, the entries of [v] that a bound of [bs] covers are
    values of [Clip] for that bound. *)
Definition clipped_from (i : nat) (bs : list Range) (v : list float) : Prop :=
  forall k b x, bs !! k = Some b -> v !! (i + k)%nat = Some x ->
                exists y, x = Clip b y.




(** A computation that starts no evaluation round. *)
Definition keeps_rounds {A} (c : M A) : Prop :=
  forall w a w', c w = Ok (a, w') -> rounds w' = rounds w.

(** ** Sample data for the closed examples *)

Module Demo.

(** Every draw of [rand.Float64] is the same number here. *)
Definition rand (k : nat) : float := 0.25%float.

(** Results arrive in the order of the indices. *)
Definition in_order (population : nat) (k : nat) : list nat := seq 0 population.

Definition GOMAXPROCS : Z := 8.

(** The objective [f(x) = x[0] * x[0]]. *)
Definition square : Fitness :=
  fun x => match x with x0 :: _ => fmul x0 x0 | [] => F64.zero end.

(** The zero value of [Options]. *)
Definition unset : Options :=
  mkOptions 0 0 0 [] [] F64.zero F64.zero F64.zero F64.zero 0 false F64.zero 0.

Definition with_sizes (localSize populationSize : Z) (o : Options) : Options :=
  mkOptions localSize populationSize (Parallelism o) (Bounds o)
    (Constraints o) (Inertia o) (ParticleStep o) (LocalStep o)
    (GlobalStep o) (StallLimit o) (Verbose o) (WaitMagnitude o)
    (groupCount o).

Definition with_limits (bs : list Range) (cs : list Constraint) (o : Options)
    : Options :=
  mkOptions (LocalSize o) (PopulationSize o) (Parallelism o) bs cs
    (Inertia o) (ParticleStep o) (LocalStep o) (GlobalStep o)
    (StallLimit o) (Verbose o) (WaitMagnitude o) (groupCount o).

Definition empty_world : World := mkWorld [] 0 0.

(** One dimension, drawn from [[1, 3]]. *)
Definition line : list Range := [(1%float, 3%float)].

End Demo.

Module DemoLoop.

(** A stand-in for [math.Log10] in closed examples: the integer part of
    the decimal logarithm, and [-Inf] at 0. *)
Fixpoint digits (fuel : nat) (x : float) : float :=
  match fuel with
  | O => F64.zero
  | S fuel' =>
      if F64.ltb x 10%float then F64.zero
      else fadd 1%float (digits fuel' (fdiv x 10%float))
  end.

Definition coarse_log10 (x : float) : float :=
  if F64.eqb x F64.zero then neg_infinity else digits 400 x.


End DemoLoop.

(** ** Vocabulary for the vector operations *)

(** What [result[i] += vi] leaves at index [i] when [x] was there. *)
Definition added_at (v : list float) (i : nat) (x : float) : float :=
  match v !! i with
  | Some y => fadd x y
  | None => x
  end.

(** Coordinate [i] of [sum(vs...)]: the vectors are added in their order,
    starting from zero, a vector too short to have the coordinate adding
    nothing. *)
Definition column_sum (vs : list (list float)) (i : nat) (x : float) : float :=
  fold_left (fun acc v => added_at v i acc) vs x.

(** ** Vocabulary for feasibility *)

(** Every coordinate that has a bound is contained in it. *)
Definition covered_in_bounds (bs : list Range) (position : list float) : bool :=
  forallb (fun bx => Contains (fst bx) (snd bx)) (zip bs position).

(** Every constraint accepts the position. *)
Definition accepted (cs : list Constraint) (position : list float) : bool :=
  forallb (fun c => c position) cs.

(** The range is the sentinel or has its ends in order. *)
Definition proper (r : Range) : bool :=
  unbounded r || F64.leb (lower r) (upper r).

(** ** Vocabulary for the layout of the optimizer *)

(** The slice [l] points to an array of [dims] numbers. *)
Definition has_array (dims : nat) (w : World) (l : loc) : Prop :=
  exists v, heap w !! l = Some v /\ length v = dims.

(** Every array of [w] is still there in [w'], with the length it had. *)
Definition shapes_kept (w w' : World) : Prop :=
  forall l v, heap w !! l = Some v ->
              exists v', heap w' !! l = Some v' /\ length v' = length v.

(** The layout [Reset] builds: one position, velocity, stall count and
    personal best per particle, one best per group, every vector with one
    coordinate per dimension of the shape. *)
Definition laid_out (opt : Optimizer) (w : World) : Prop :=
  let n := Z.to_nat (to_int (PopulationSize (options opt))) in
  let g := Z.to_nat (groupCount (options opt)) in
  let dims := length (shape opt) in
  length (positions opt) = n /\
  length (velocities opt) = n /\
  length (stallCount opt) = n /\
  length (particleBestPosition opt) = n /\
  length (particleBestFitness opt) = n /\
  length (localBestPosition opt) = g /\
  length (localBestFitness opt) = g /\
  Forall (fun v => length v = dims) (velocities opt) /\
  Forall (has_array dims w) (positions opt) /\
  Forall (has_array dims w) (particleBestPosition opt) /\
  Forall (has_array dims w) (localBestPosition opt) /\
  has_array dims w (globalBestPosition opt).

(** The first member [i * LocalSize] of every group is a particle. *)
Definition groups_fit (o : Options) : Prop :=
  forall i : nat,
    Z.of_nat i < groupCount o ->
    0 <= to_int (Z.of_nat i * to_int (LocalSize o))
      < to_int (PopulationSize o).

(** The conditions under which a step cannot go wrong: at least one
    group, a worker to evaluate, no more bounds than coordinates, and
    results that name particles of the population. *)
Definition steps_safely (arrival : nat -> list nat) (o : Options)
    (dims : nat) : Prop :=
  0 < groupCount o /\ 0 < to_int (Parallelism o) /\
  (length (Bounds o) <= dims)%nat /\
  forall k, Forall (fun i => (i < Z.to_nat (to_int (PopulationSize o)))%nat)
                   (arrival k).

(** Sizes as [New] leaves them when a group fits in the population: the
    group size is positive and at most the population size, which fits an
    [int], and [groupCount] is their quotient. *)
Definition well_sized (o : Options) : Prop :=
  0 < LocalSize o <= PopulationSize o /\ PopulationSize o < 2 ^ 63 /\
  groupCount o = to_int (PopulationSize o / LocalSize o).

(** ** Vocabulary for the example's helpers *)

(** The sum of the products of the entries of [u] and [v] taken in pairs,
    added from the left starting at 0. *)
Definition paired_products (u v : list float) : float :=
  fold_left (fun acc p => fadd acc (fmul (fst p) (snd p))) (combine u v)
            F64.zero.

(** The arrays of the group bests and of the global best are apart from
    the arrays of the positions and from each other; the personal-best
    slices are the position slices themselves, as [Reset] leaves them. *)
Definition arrays_apart (opt : Optimizer) : Prop :=
  particleBestPosition opt = positions opt /\
  (forall l, l ∈ localBestPosition opt ->
             (l ∉ positions opt) /\ l <> globalBestPosition opt) /\
  (globalBestPosition opt ∉ positions opt).

(** Once a fitness below the initial [math.MaxFloat64] is recorded as the
    global best, the array that [Best] returns holds a position that
    passes the bounds and the constraints and whose objective value is
    that fitness. *)
Definition best_is_witnessed (opt : Optimizer) (w : World) : Prop :=
  F64.ltb (globalBestFitness opt) F64.MaxFloat64 = true ->
  exists v,
    heap w !! globalBestPosition opt = Some v /\
    globalBestFitness opt = fitness opt v /\
    covered_in_bounds (Bounds (options opt)) v = true /\
    accepted (Constraints (options opt)) v = true.

(** ** Vocabulary for the stall counts *)

(** Among the results [rs] of a round there is one for particle [j]
    without a fitness. *)
Definition missed (rs : list (nat * option float)) (j : nat) : bool :=
  existsb (fun r => (fst r =? j)%nat
                    && match snd r with None => true | Some _ => false end)
          rs.

(** [c++] on a [uint]. *)
Definition bump (c : Z) : Z := to_uint (c + 1).

(** * Properties *)

(** ** Facts on the float order *)

Module F64Facts.
Import F64.

Lemma SFcompare_rank x y : SFcompare x y = rank_compare x y.
Proof.
  destruct x as [sx|sx| |sx mx ex], y as [sy|sy| |sy my ey];
    try destruct sx; try destruct sy; try reflexivity;
    unfold rank_compare, rank, lex3, SFcompare; f_equal;
    rewrite ?Pos.compare_cont_spec; cbn [Pos.switch_Eq Z.compare CompOpp Pos.compare Pos.compare_cont].
  - destruct (Z.compare_spec ex ey), (Pos.compare_spec mx my),
      (Z.compare_spec (- ex) (- ey)),
      (Z.compare_spec (- Z.pos mx) (- Z.pos my));
      cbn; first [reflexivity | lia].
Qed.

Lemma lex3_spec a b :
  match lex3 a b with
  | Lt => lt3 a b
  | Eq => eq3 a b
  | Gt => lt3 b a
  end.
Proof.
  destruct a as [[a1 a2] a3], b as [[b1 b2] b3]; unfold lex3, lt3, eq3.
  destruct (Z.compare_spec a1 b1), (Z.compare_spec a2 b2),
    (Z.compare_spec a3 b3); lia.
Qed.

Lemma ltb_view x y : ltb x y = true <-> lt_view x y.
Proof.
  unfold ltb, lt_view. rewrite FloatAxioms.ltb_spec. unfold SFltb.
  rewrite SFcompare_rank. unfold rank_compare, rk.
  destruct (rank (Prim2SF x)) as [a|], (rank (Prim2SF y)) as [b|];
    try (split; [discriminate | tauto]).
  pose proof (lex3_spec a b) as H. pose proof (lex3_spec b a) as H'.
  destruct a as [[a1 a2] a3], b as [[b1 b2] b3].
  destruct (lex3 _ _), (lex3 _ _); unfold lt3, eq3 in *;
    split; intros; first [reflexivity | discriminate | lia].
Qed.

Lemma leb_view x y : leb x y = true <-> le_view x y.
Proof.
  unfold leb, le_view. rewrite FloatAxioms.leb_spec. unfold SFleb.
  rewrite SFcompare_rank. unfold rank_compare, rk.
  destruct (rank (Prim2SF x)) as [a|], (rank (Prim2SF y)) as [b|];
    try (split; [discriminate | tauto]).
  pose proof (lex3_spec a b) as H. pose proof (lex3_spec b a) as H'.
  destruct a as [[a1 a2] a3], b as [[b1 b2] b3].
  destruct (lex3 _ _), (lex3 _ _); unfold lt3, eq3 in *;
    split; intros; first [reflexivity | discriminate | lia].
Qed.

Lemma eqb_view x y : eqb x y = true <-> eq_view x y.
Proof.
  unfold eqb, eq_view. rewrite FloatAxioms.eqb_spec. unfold SFeqb.
  rewrite SFcompare_rank. unfold rank_compare, rk.
  destruct (rank (Prim2SF x)) as [a|], (rank (Prim2SF y)) as [b|];
    try (split; [discriminate | tauto]).
  pose proof (lex3_spec a b) as H. pose proof (lex3_spec b a) as H'.
  destruct a as [[a1 a2] a3], b as [[b1 b2] b3].
  destruct (lex3 _ _), (lex3 _ _); unfold lt3, eq3 in *;
    split; intros; first [reflexivity | discriminate | lia].
Qed.

Lemma is_nan_view x : is_nan x = false <-> rk x <> None.
Proof.
  unfold is_nan, PrimFloat.is_nan. rewrite negb_false_iff.
  change (PrimFloat.eqb x x) with (eqb x x). rewrite eqb_view.
  unfold eq_view. destruct (rk x) as [[[a1 a2] a3]|]; unfold eq3.
  - split; [discriminate | lia].
  - split; [tauto | congruence].
Qed.

Lemma false_view (b : bool) (P : Prop) : (b = true <-> P) -> (b = false <-> ~ P).
Proof. destruct b; intuition congruence. Qed.

(** Turn every float comparison in sight into linear arithmetic on ranks. *)
Ltac views :=
  repeat match goal with
    | H : F64.ltb _ _ = true |- _ => apply ltb_view in H
    | H : F64.leb _ _ = true |- _ => apply leb_view in H
    | H : F64.eqb _ _ = true |- _ => apply eqb_view in H
    | H : F64.ltb _ _ = false |- _ => apply (false_view _ _ (ltb_view _ _)) in H
    | H : F64.leb _ _ = false |- _ => apply (false_view _ _ (leb_view _ _)) in H
    | H : F64.eqb _ _ = false |- _ => apply (false_view _ _ (eqb_view _ _)) in H
    | H : F64.is_nan _ = false |- _ => apply is_nan_view in H
    | |- F64.ltb _ _ = true => apply ltb_view
    | |- F64.leb _ _ = true => apply leb_view
    | |- F64.eqb _ _ = true => apply eqb_view
    | |- F64.ltb _ _ = false => apply (false_view _ _ (ltb_view _ _))
    | |- F64.leb _ _ = false => apply (false_view _ _ (leb_view _ _))
    | |- F64.eqb _ _ = false => apply (false_view _ _ (eqb_view _ _))
    | |- F64.is_nan _ = false => apply is_nan_view
    end;
  unfold lt_view, le_view, eq_view in *.

Ltac ranks :=
  repeat match goal with
    | |- context [rk ?x] =>
        let a := fresh "a" in destruct (rk x) as [[[? ?] ?]|]
    | H : context [rk ?x] |- _ =>
        let a := fresh "a" in destruct (rk x) as [[[? ?] ?]|]
    end;
  unfold lt3, eq3 in *;
  try solve [ intuition (try congruence; try lia) ].

Ltac float_order := views; ranks.


Lemma ltb_trans x y z : ltb x y = true -> ltb y z = true -> ltb x z = true.
Proof. intros. float_order. Qed.

Lemma ltb_irrefl x : ltb x x = false.
Proof. float_order. Qed.

Lemma leb_refl x : is_nan x = false -> leb x x = true.
Proof. intros. float_order. Qed.


Lemma leb_not_ltb x y : leb x y = true -> ltb y x = false.
Proof. intros. float_order. Qed.



Lemma leb_is_nan_l x y : leb x y = true -> is_nan x = false.
Proof. intros. float_order. Qed.

Lemma leb_is_nan_r x y : leb x y = true -> is_nan y = false.
Proof. intros. float_order. Qed.

Lemma ltb_is_nan_l x y : ltb x y = true -> is_nan x = false.
Proof. intros. float_order. Qed.


End F64Facts.

(** ** Ranges: what [Contains] and [Clip] compute *)

Section RangeFacts.
Import F64 F64Facts.

Lemma unbounded_zero : unbounded (zero, zero) = true.
Proof. reflexivity. Qed.




End RangeFacts.

(** ** Running the monad *)

Lemma bind_Ok {A B} (c : M A) (k : A -> M B) w b w' :
  bind c k w = Ok (b, w') ->
  exists a w1, c w = Ok (a, w1) /\ k a w1 = Ok (b, w').
Proof.
  unfold bind. destruct (c w) as [[a w1]|p]; [|discriminate].
  intros H. now exists a, w1.
Qed.

Lemma lift_Ok {A} (r : result A) w a w' :
  lift r w = Ok (a, w') -> r = Ok a /\ w' = w.
Proof. unfold lift. destruct r; [|discriminate]. now intros [= -> ->]. Qed.

Lemma ret_Ok {A} (a b : A) w w' : ret a w = Ok (b, w') -> b = a /\ w' = w.
Proof. now intros [= -> ->]. Qed.

Lemma rbind_Ok {A B} (r : result A) (k : A -> result B) b :
  rbind r k = Ok b -> exists a, r = Ok a /\ k a = Ok b.
Proof. destruct r; [|discriminate]. intros H. now eexists. Qed.

(** Peel the outermost computation off a successful run. *)
Ltac mstep H :=
  lazymatch type of H with
  | bind _ _ _ = Ok _ =>
      let a := fresh "a" in
      let w := fresh "w" in
      let H1 := fresh "Hrun" in
      apply bind_Ok in H; destruct H as (a & w & H1 & H)
  | lift _ _ = Ok _ => apply lift_Ok in H; destruct H as [H ?]; subst
  | ret _ _ = Ok _ => unfold ret in H; inversion H; subst; clear H
  | rbind _ _ = Ok _ =>
      let a := fresh "a" in
      let H1 := fresh "Hres" in
      apply rbind_Ok in H; destruct H as (a & H1 & H)
  end.

(** The same for a bind, naming the value and the fact about its run; a
    lifted pure computation is reduced to its own equation. *)
Tactic Notation "mbind" hyp(H) "as" simple_intropattern(x) ident(Hx) :=
  let w := fresh "w" in
  apply bind_Ok in H; destruct H as (x & w & Hx & H);
  try (apply lift_Ok in Hx; destruct Hx as [Hx ?]; subst w).

(** ** Nil receivers (swarm.go, lines 114-120, 175-178, 246-249, 314-318,
    370-373) *)

Section NilReceiver.
Variable rand : nat -> float.
Variable arrival : nat -> list nat.
Variable Log10 : float -> float.

(** The methods that test [opt == nil] return the zero value and leave the
    world alone. *)
Lemma nil_receiver_guarded w fuel rate :
  Best None = None /\
  Reset rand None w = Ok (None, w) /\
  updateFitness arrival None w = Ok (None, w) /\
  StepUntil rand arrival Log10 fuel rate None w = Ok (Some (None, 0), w).
Proof. repeat split. Qed.

(** C5: [Step] is the one public method without a nil test.  On a nil
    receiver [updateFitness] returns at once, and the loop header of [Step]
    then reads [opt.options] through the nil pointer: the call panics
    instead of being a no-op. *)
Theorem Step_nil_receiver_panics w :
  Step rand arrival None w = Panic NilDereference.
Proof. reflexivity. Qed.

End NilReceiver.

(** ** Ranges: the contract of [Contains] and [Clip] *)



(** ** Construction: what [New] resolves *)

Section Construction.
Variable rand : nat -> float.
Variable GOMAXPROCS : Z.

Lemma reset_options opt w opt' w' :
  reset rand opt w = Ok (opt', w') ->
  options opt' = options opt /\ shape opt' = shape opt /\
  fitness opt' = fitness opt.
Proof.
  unfold reset. intros H.
  mstep H. mstep Hrun. mstep H. destruct a0 as [pos0 best0].
  mstep H. destruct a0 as [pos vel].
  do 5 mstep H. mstep H. now cbn.
Qed.

Lemma New_options f sh o w opt e w' :
  New rand GOMAXPROCS f sh o w = Ok (Some opt, e, w') ->
  options opt = resolve GOMAXPROCS (length sh) o.
Proof.
  unfold New. destruct sh as [|r sh]; [discriminate|].
  intros H. mstep H. mstep H.
  now apply reset_options in Hrun as (-> & _).
Qed.

(** C10: whatever [Options] the caller passes, the options of the optimizer
    [New] returns have every zero-valued numeric field replaced by its
    default and every other value kept, so that the resolved [Inertia],
    [ParticleStep], [LocalStep], [GlobalStep], [WaitMagnitude], [LocalSize]
    and [StallLimit] are never zero. *)
Theorem New_replaces_zero_by_default f sh o w opt e w'
  (HNew : New rand GOMAXPROCS f sh o w = Ok (Some opt, e, w')) :
  let r := options opt in
  let localSize := if LocalSize o =? 0 then 25 else LocalSize o in
  (LocalSize r = localSize /\
   PopulationSize r =
     (if PopulationSize o =? 0
      then to_uint (to_uint (10 * localSize) * to_uint (Z.of_nat (length sh)))
      else PopulationSize o) /\
   Parallelism r =
     (if Parallelism o =? 0 then to_uint GOMAXPROCS else Parallelism o) /\
   Inertia r =
     (if F64.eqb (Inertia o) F64.zero then 0x1.e666666666666p-1%float
      else Inertia o) /\
   ParticleStep r =
     (if F64.eqb (ParticleStep o) F64.zero then 0.75%float
      else ParticleStep o) /\
   LocalStep r =
     (if F64.eqb (LocalStep o) F64.zero then 0.5%float else LocalStep o) /\
   GlobalStep r =
     (if F64.eqb (GlobalStep o) F64.zero then 0x1.999999999999ap-4%float
      else GlobalStep o) /\
   StallLimit r = (if StallLimit o =? 0 then 3 else StallLimit o) /\
   WaitMagnitude r =
     (if F64.eqb (WaitMagnitude o) F64.zero then 2%float
      else WaitMagnitude o)) /\
  (F64.eqb (Inertia r) F64.zero = false /\
   F64.eqb (ParticleStep r) F64.zero = false /\
   F64.eqb (LocalStep r) F64.zero = false /\
   F64.eqb (GlobalStep r) F64.zero = false /\
   F64.eqb (WaitMagnitude r) F64.zero = false /\
   LocalSize r <> 0 /\ StallLimit r <> 0).
Proof.
  intros r localSize. subst r localSize.
  rewrite (New_options _ _ _ _ _ _ _ HNew). unfold resolve. cbn.
  split; [repeat split|].
  repeat split;
    try match goal with
      | |- F64.eqb (if ?b then _ else _) _ = false =>
          destruct b eqn:E; [reflexivity | exact E]
      end.
  - destruct (LocalSize o =? 0) eqn:E; [lia | now apply Z.eqb_neq].
  - destruct (StallLimit o =? 0) eqn:E; [lia | now apply Z.eqb_neq].
Qed.

End Construction.

Lemma New_replaces_zero_by_default_witness :
  match New Demo.rand Demo.GOMAXPROCS Demo.square Demo.line
          (Demo.with_sizes 2 4 Demo.unset) Demo.empty_world with
  | Ok (Some opt, _, _) =>
      F64.eqb (Inertia (options opt)) F64.zero = false /\
      F64.eqb (GlobalStep (options opt)) F64.zero = false
  | _ => False
  end.
Proof.
  destruct (New _ _ _ _ _ _) as [[[[opt|] e] w']|p] eqn:H.
  - pose proof (New_replaces_zero_by_default _ _ _ _ _ _ _ _ _ H) as T.
    cbv zeta in T. destruct T as (_ & T1 & _ & _ & T4 & _).
    exact (conj T1 T4).
  - vm_compute in H. discriminate H.
  - vm_compute in H. discriminate H.
Defined.

(** ** The number of groups *)

Lemma to_int_small z : 0 <= z < 2 ^ 63 -> to_int z = z.
Proof.
  intros H. unfold to_int. rewrite Z.mod_small by lia.
  destruct (z <? 2 ^ 63) eqn:E; [reflexivity|]. apply Z.ltb_ge in E. lia.
Qed.

Lemma to_uint_small z : 0 <= z < 2 ^ 64 -> to_uint z = z.
Proof. intros H. unfold to_uint. now rewrite Z.mod_small. Qed.

(** C7, as the code has it: the resolved [groupCount] is at least 1 when
    the resolved [PopulationSize] is at least the resolved [LocalSize] (the
    quotient fitting an [int]), and it is 0 when it is smaller; a
    [PopulationSize] left unset resolves to [10 * LocalSize * dims] and
    gives [10 * dims] groups. *)
Theorem groupCount_from_sizes (GOMAXPROCS : Z) (dims : nat) (o : Options)
  (HL : 0 <= LocalSize o < 2 ^ 64) (HP : 0 <= PopulationSize o < 2 ^ 64) :
  let r := resolve GOMAXPROCS dims o in
  (LocalSize r <= PopulationSize r ->
   PopulationSize r / LocalSize r < 2 ^ 63 -> 1 <= groupCount r) /\
  (PopulationSize r < LocalSize r -> groupCount r = 0) /\
  (PopulationSize o = 0 -> (0 < dims)%nat ->
   10 * LocalSize r * Z.of_nat dims < 2 ^ 63 ->
   groupCount r = 10 * Z.of_nat dims /\ 1 <= groupCount r).
Proof.
  intros r. subst r. unfold resolve.
  cbn [LocalSize PopulationSize groupCount].
  set (L := if LocalSize o =? 0 then 25 else LocalSize o).
  assert (0 < L < 2 ^ 64) as HL'.
  { subst L. destruct (LocalSize o =? 0) eqn:E; [lia|].
    apply Z.eqb_neq in E. lia. }
  set (P := if PopulationSize o =? 0 then _ else PopulationSize o).
  assert (0 <= P) as HP'.
  { subst P. destruct (PopulationSize o =? 0); [|lia].
    unfold to_uint at 1. apply Z.mod_pos_bound. lia. }
  split; [|split].
  - intros Hle Hq. rewrite to_int_small; [|split; [|exact Hq]].
    + apply Z.div_le_lower_bound; lia.
    + apply Z.div_pos; lia.
  - intros Hlt. rewrite Z.div_small by lia. reflexivity.
  - intros HP0 Hd Hfit. subst P. rewrite HP0. cbn [Z.eqb].
    rewrite (to_uint_small (10 * L)) by lia.
    rewrite (to_uint_small (Z.of_nat dims)) by nia.
    rewrite to_uint_small by nia.
    replace (10 * L * Z.of_nat dims) with (10 * Z.of_nat dims * L) by lia.
    rewrite Z.div_mul by lia.
    rewrite to_int_small by nia. lia.
Qed.

(** Settle a closed arithmetic side condition by evaluation. *)
Ltac by_eval :=
  vm_compute;
  repeat match goal with |- _ /\ _ => split end;
  first [ reflexivity | discriminate | (intro; discriminate) | lia ].

Lemma groupCount_from_sizes_witness :
  1 <= groupCount (resolve Demo.GOMAXPROCS 1 (Demo.with_sizes 2 4 Demo.unset)) /\
  groupCount (resolve Demo.GOMAXPROCS 3 Demo.unset) = 30.
Proof.
  split.
  - refine (proj1 (groupCount_from_sizes Demo.GOMAXPROCS 1
                     (Demo.with_sizes 2 4 Demo.unset) _ _) _ _);
      by_eval.
  - refine (proj1 (proj2 (proj2 (groupCount_from_sizes Demo.GOMAXPROCS 3
                     Demo.unset _ _)) _ _ _));
      by_eval.
Defined.

(** A caller who asks for 10 particles and leaves [LocalSize] to its
    default of 25 gets an optimizer with no group at all, and the first
    [Step] divides by zero. *)
Lemma groupCount_zero_counterexample :
  groupCount (resolve Demo.GOMAXPROCS 1 (Demo.with_sizes 0 10 Demo.unset)) = 0 /\
  match New Demo.rand Demo.GOMAXPROCS Demo.square Demo.line
          (Demo.with_sizes 0 10 Demo.unset) Demo.empty_world with
  | Ok (Some opt, None, w) =>
      groupCount (options opt) = 0 /\
      Step Demo.rand (Demo.in_order 10) (Some opt) w = Panic DivideByZero
  | _ => False
  end.
Proof. vm_compute. repeat split. Qed.

(** ** Loops *)

(** An invariant of the loop body, indexed by the elements already
    visited, holds when the loop ends. *)
Lemma foldM_invariant {A S} (f : S -> A -> M S)
    (I : list A -> S -> World -> Prop) :
  (forall pre a s w s' w',
      I pre s w -> f s a w = Ok (s', w') -> I (pre ++ [a]) s' w') ->
  forall l pre s w s' w',
    I pre s w -> foldM f l s w = Ok (s', w') -> I (pre ++ l) s' w'.
Proof.
  intros Hbody l. induction l as [|a l IH]; intros pre s w s' w' HI H.
  - cbn in H. mstep H. now rewrite app_nil_r.
  - cbn [foldM] in H. mstep H.
    replace (pre ++ a :: l) with ((pre ++ [a]) ++ l)
      by now rewrite <- app_assoc.
    eapply IH; [|exact H]. eapply Hbody; eassumption.
Qed.

(** ** The bests never get worse *)

#[local] Instance improves_refl : Reflexive improves.
Proof. intros x. now left. Qed.

#[local] Instance improves_trans : Transitive improves.
Proof.
  intros x y z [->|Hxy] [->|Hyz]; [now left | now right | now right |].
  right. exact (F64Facts.ltb_trans _ _ _ Hyz Hxy).
Qed.

#[local] Instance bests_improve_refl : Reflexive bests_improve.
Proof. intros o. repeat split; reflexivity. Qed.

#[local] Instance bests_improve_trans : Transitive bests_improve.
Proof.
  intros a b c (H1 & H2 & H3) (K1 & K2 & K3).
  repeat split; etransitivity; eassumption.
Qed.

Lemma improves_insert (l : list float) (i : nat) (old f : float) :
  l !! i = Some old -> improves old f -> Forall2 improves l (<[i := f]> l).
Proof.
  intros Hi Hf. rewrite <- (list_insert_id l i old Hi) at 1.
  apply Forall2_insert; [reflexivity | exact Hf].
Qed.

Lemma index_Ok {A} (a : list A) (i : nat) (x : A) :
  index a i = Ok x -> a !! i = Some x.
Proof. unfold index. destruct (a !! i); [now intros [= ->] | discriminate]. Qed.

Lemma indexZ_Ok {A} (a : list A) (i : Z) (x : A) :
  indexZ a i = Ok x -> 0 <= i /\ a !! Z.to_nat i = Some x.
Proof.
  unfold indexZ. destruct (i <? 0) eqn:E; [discriminate|].
  apply Z.ltb_ge in E. intros H. split; [exact E | now apply index_Ok].
Qed.

Section Monotone.
Variable rand : nat -> float.
Variable arrival : nat -> list nat.

Lemma improve_particle_bests idx f opt w opt' w' :
  improve_particle idx f opt w = Ok (opt', w') -> bests_improve opt opt'.
Proof.
  unfold improve_particle. intros H. mstep H. mstep Hrun.
  apply index_Ok in Hrun.
  destruct (F64.ltb f a) eqn:E.
  - do 3 mstep H. mstep H. repeat split; cbn; try reflexivity.
    eapply improves_insert; [eassumption | now right].
  - mstep H. reflexivity.
Qed.

Lemma improve_group_bests idx f opt w opt' w' :
  improve_group idx f opt w = Ok (opt', w') -> bests_improve opt opt'.
Proof.
  unfold improve_group. intros H. mstep H. mstep Hrun. mstep H. mstep Hrun0.
  apply indexZ_Ok in Hrun0 as [_ Hrun0].
  destruct (F64.ltb f a0) eqn:E.
  - do 3 mstep H. mstep H. repeat split; cbn; try reflexivity.
    eapply improves_insert; [eassumption | now right].
  - mstep H. reflexivity.
Qed.

Lemma improve_global_bests idx f opt w opt' w' :
  improve_global idx f opt w = Ok (opt', w') -> bests_improve opt opt'.
Proof.
  unfold improve_global. intros H.
  destruct (F64.ltb f (globalBestFitness opt)) eqn:E.
  - do 2 mstep H. mstep H. repeat split; cbn; try reflexivity. now right.
  - mstep H. reflexivity.
Qed.

Lemma collect_bests opt avg count res w opt' avg' count' w' :
  collect (opt, avg, count) res w = Ok (opt', avg', count', w') ->
  bests_improve opt opt'.
Proof.
  unfold collect. destruct res as [idx [f|]]; intros H.
  - do 3 mstep H. mstep H.
    apply improve_particle_bests in Hrun.
    apply improve_group_bests in Hrun0.
    apply improve_global_bests in Hrun1.
    transitivity a; [exact Hrun|].
    transitivity a0; [exact Hrun0 | exact Hrun1].
  - mstep H. mstep H. repeat split; reflexivity.
Qed.

Lemma update_fitness_bests opt w opt' w' :
  update_fitness arrival opt w = Ok (opt', w') -> bests_improve opt opt'.
Proof.
  unfold update_fitness. intros H.
  destruct (to_int _ <? 0); [discriminate|].
  destruct (_ && _); [discriminate|].
  do 3 mstep H. destruct a1 as [[o1 avg] count]. mstep H.
  change (bests_improve opt o1).
  refine (foldM_invariant collect
            (fun _ acc _ => bests_improve opt (fst (fst acc))) _
            a0 [] (opt, F64.zero, F64.zero) w1 (o1, avg, count) w' _ Hrun1).
  - intros pre res [[o2 avg2] count2] w2 [[o3 avg3] count3] w3 HI Hc.
    cbn in *. transitivity o2; [exact HI|].
    eapply collect_bests; eassumption.
  - reflexivity.
Qed.

Lemma move_particle_bests opt idx w opt' w' :
  move_particle rand opt idx w = Ok (opt', w') -> bests_improve opt opt'.
Proof.
  unfold move_particle. intros H. do 19 mstep H. mstep H.
  repeat split; reflexivity.
Qed.

Lemma update_rule_bests opt w opt' w' :
  update_rule rand opt w = Ok (opt', w') -> bests_improve opt opt'.
Proof.
  unfold update_rule. intros H.
  refine (foldM_invariant (move_particle rand)
            (fun _ o _ => bests_improve opt o) _ _ [] opt w opt' w' _ H).
  - intros pre idx o2 w2 o3 w3 HI Hm. cbn in *.
    transitivity o2; [exact HI|]. eapply move_particle_bests; eassumption.
  - reflexivity.
Qed.

End Monotone.

Section MonotoneStep.
Variable rand : nat -> float.
Variable arrival : nat -> list nat.

Lemma Step_Some opt w o' w' :
  Step rand arrival (Some opt) w = Ok (o', w') ->
  exists opt', o' = Some opt' /\ step rand arrival opt w = Ok (opt', w').
Proof.
  unfold Step, updateFitness, step. intros H. mstep H. mstep Hrun.
  mstep Hrun. mstep H. mstep H. eexists. split; [reflexivity|].
  unfold bind. now rewrite Hrun0.
Qed.

Lemma step_bests opt w opt' w' :
  step rand arrival opt w = Ok (opt', w') -> bests_improve opt opt'.
Proof.
  unfold step. intros H. mstep H.
  transitivity a;
    [eapply update_fitness_bests | eapply update_rule_bests]; eassumption.
Qed.

(** What one collected fitness [f] of particle [idx] does to the three
    bests it is compared with. *)
Lemma collect_fitness opt avg count idx f w acc w' :
  collect (opt, avg, count) (idx, Some f) w = Ok (acc, w') ->
  exists oldp g oldg,
    particleBestFitness opt !! idx = Some oldp /\
    group_of opt idx = Ok g /\
    localBestFitness opt !! Z.to_nat g = Some oldg /\
    particleBestFitness (fst (fst acc)) =
      (if F64.ltb f oldp then <[idx := f]> (particleBestFitness opt)
       else particleBestFitness opt) /\
    localBestFitness (fst (fst acc)) =
      (if F64.ltb f oldg then <[Z.to_nat g := f]> (localBestFitness opt)
       else localBestFitness opt) /\
    globalBestFitness (fst (fst acc)) =
      (if F64.ltb f (globalBestFitness opt) then f
       else globalBestFitness opt).
Proof.
  unfold collect. intros H.
  mbind H as o1 Hp. mbind H as o2 Hg. mbind H as o3 Hgl. mstep H. cbn [fst].
  unfold improve_particle in Hp. mbind Hp as oldp Ep.
  apply index_Ok in Ep. exists oldp.
  assert (options o1 = options opt /\
          localBestFitness o1 = localBestFitness opt /\
          globalBestFitness o1 = globalBestFitness opt /\
          particleBestFitness o1 =
            (if F64.ltb f oldp then <[idx := f]> (particleBestFitness opt)
             else particleBestFitness opt)) as (Eo & El & Eg & Epf).
  { destruct (F64.ltb f oldp); [do 3 mstep Hp|]; mstep Hp; now cbn. }
  unfold improve_group in Hg. mbind Hg as g Egr. mbind Hg as oldg Elf.
  apply indexZ_Ok in Elf as [_ Elf]. rewrite El in Elf. exists g, oldg.
  assert (group_of opt idx = Ok g) as Hgr.
  { unfold group_of in *. now rewrite <- Eo. }
  assert (particleBestFitness o2 = particleBestFitness o1 /\
          globalBestFitness o2 = globalBestFitness o1 /\
          localBestFitness o2 =
            (if F64.ltb f oldg then <[Z.to_nat g := f]> (localBestFitness opt)
             else localBestFitness opt)) as (Fp & Fg & Fl).
  { rewrite <- El.
    destruct (F64.ltb f oldg); [do 3 mstep Hg|]; mstep Hg; now cbn. }
  unfold improve_global in Hgl. rewrite Fg, Eg in Hgl.
  assert (particleBestFitness o3 = particleBestFitness o2 /\
          localBestFitness o3 = localBestFitness o2 /\
          globalBestFitness o3 =
            (if F64.ltb f (globalBestFitness opt) then f
             else globalBestFitness opt)) as (Gp & Gl & Gg).
  { destruct (F64.ltb f (globalBestFitness opt));
      [do 2 mstep Hgl|]; mstep Hgl; cbn; rewrite ?Fg, ?Eg; now cbn. }
  rewrite Gp, Gl, Gg, Fp, Fl, Epf. now repeat split.
Qed.

Lemma tie_is_not_lower f best : F64.eqb f best = true -> F64.ltb f best = false.
Proof. intros. F64Facts.float_order. Qed.

End MonotoneStep.

(** C3: over one [Step], every personal best, every group best and the
    global best is either what it was or a strictly lower fitness
    ([bests_improve]); and one collected fitness [f] replaces a best exactly
    when [f] is strictly lower than it, so a tie leaves the best alone. *)
Theorem best_fitness_never_increases
    (rand : nat -> float) (arrival : nat -> list nat) :
  (forall opt w opt' w',
      Step rand arrival (Some opt) w = Ok (Some opt', w') ->
      Forall2 improves (particleBestFitness opt) (particleBestFitness opt') /\
      Forall2 improves (localBestFitness opt) (localBestFitness opt') /\
      improves (globalBestFitness opt) (globalBestFitness opt')) /\
  (forall opt avg count idx f w acc w',
      collect (opt, avg, count) (idx, Some f) w = Ok (acc, w') ->
      exists oldp g oldg,
        particleBestFitness opt !! idx = Some oldp /\
        group_of opt idx = Ok g /\
        localBestFitness opt !! Z.to_nat g = Some oldg /\
        particleBestFitness (fst (fst acc)) =
          (if F64.ltb f oldp then <[idx := f]> (particleBestFitness opt)
           else particleBestFitness opt) /\
        localBestFitness (fst (fst acc)) =
          (if F64.ltb f oldg then <[Z.to_nat g := f]> (localBestFitness opt)
           else localBestFitness opt) /\
        globalBestFitness (fst (fst acc)) =
          (if F64.ltb f (globalBestFitness opt) then f
           else globalBestFitness opt) /\
        (F64.eqb f oldp = true ->
         particleBestFitness (fst (fst acc)) = particleBestFitness opt) /\
        (F64.eqb f oldg = true ->
         localBestFitness (fst (fst acc)) = localBestFitness opt) /\
        (F64.eqb f (globalBestFitness opt) = true ->
         globalBestFitness (fst (fst acc)) = globalBestFitness opt)).
Proof.
  split.
  - intros opt w opt' w' H.
    apply Step_Some in H as (o & [= <-] & H).
    exact (step_bests _ _ _ _ _ _ H).
  - intros opt avg count idx f w acc w' H.
    destruct (collect_fitness _ _ _ _ _ _ _ _ H)
      as (oldp & g & oldg & H1 & H2 & H3 & H4 & H5 & H6).
    exists oldp, g, oldg. rewrite H4, H5, H6.
    repeat split; try assumption;
      intros T; apply tie_is_not_lower in T; now rewrite T.
Qed.

Lemma best_fitness_never_increases_witness :
  match New Demo.rand Demo.GOMAXPROCS Demo.square Demo.line
          (Demo.with_sizes 2 4 Demo.unset) Demo.empty_world with
  | Ok (Some opt, _, w) =>
      match Step Demo.rand (Demo.in_order 4) (Some opt) w with
      | Ok (Some opt', _) =>
          improves (globalBestFitness opt) (globalBestFitness opt')
      | _ => False
      end
  | _ => False
  end.
Proof.
  destruct (New _ _ _ _ _ _) as [[[[opt|] e] w]|p] eqn:HNew;
    [|vm_compute in HNew; discriminate HNew ..].
  destruct (Step _ _ _ _) as [[[opt'|] w']|p] eqn:HStep.
  - exact (proj2 (proj2 (proj1 (best_fitness_never_increases _ _)
                           _ _ _ _ HStep))).
  - vm_compute in HNew. injection HNew as <- _ <-.
    vm_compute in HStep. discriminate HStep.
  - vm_compute in HNew. injection HNew as <- _ <-.
    vm_compute in HStep. discriminate HStep.
Defined.

(** ** Infeasible particles *)

Lemma within_bounds_true bs k position :
  within_bounds bs k position = Ok true ->
  forall i b x, bs !! i = Some b -> position !! (k + i)%nat = Some x ->
                Contains b x = true.
Proof.
  revert k. induction bs as [|b0 bs IH]; intros k H i b x Hb Hx.
  - discriminate.
  - cbn [within_bounds] in H. mstep H. apply index_Ok in Hres.
    destruct (Contains b0 a) eqn:E; [|discriminate].
    destruct i as [|i]; cbn in Hb.
    + injection Hb as <-. rewrite Nat.add_0_r in Hx. congruence.
    + eapply (IH (S k) H i); [exact Hb|].
      now replace (S k + i)%nat with (k + S i)%nat by lia.
Qed.

Lemma within_constraints_true cs position :
  within_constraints cs position = true ->
  forall c, c ∈ cs -> c position = true.
Proof.
  induction cs as [|c0 cs IH]; intros H c Hc.
  - now apply elem_of_nil in Hc.
  - cbn in H. destruct (c0 position) eqn:E; [|discriminate].
    apply elem_of_cons in Hc as [->|Hc]; [exact E | now apply IH].
Qed.

Lemma feasible_when_fitness opt h idx f :
  getParticleFitness opt h idx = Ok (Some f) ->
  exists p position,
    positions opt !! idx = Some p /\ h !! p = Some position /\
    (forall i b x, Bounds (options opt) !! i = Some b ->
                   position !! i = Some x -> Contains b x = true) /\
    (forall c, c ∈ Constraints (options opt) -> c position = true) /\
    f = fitness opt position.
Proof.
  unfold getParticleFitness. intros H.
  mstep H. apply index_Ok in Hres. mstep H. mstep H.
  destruct (h !! a) as [v|] eqn:Eh; [|discriminate]. injection Hres0 as <-.
  destruct a1; [|discriminate]. cbn [negb] in H.
  destruct (within_constraints _ _) eqn:Ec; [|discriminate].
  cbn [negb] in H. injection H as <-.
  exists a, v. repeat split; try assumption.
  - intros i b x Hb Hx. exact (within_bounds_true _ 0 _ Hres1 i b x Hb Hx).
  - now apply within_constraints_true.
Qed.

Lemma collect_no_fitness opt avg count idx w acc w' :
  collect (opt, avg, count) (idx, None) w = Ok (acc, w') ->
  exists c,
    stallCount opt !! idx = Some c /\
    acc = (set_stallCount (<[idx := to_uint (c + 1)]> (stallCount opt)) opt,
           avg, count) /\
    w' = w.
Proof.
  unfold collect. intros H. mbind H as c Hc. mstep H.
  exists c. split; [now apply index_Ok | now split].
Qed.

#[local] Instance same_best_fitness_refl : Reflexive same_best_fitness.
Proof. intros o. now repeat split. Qed.

#[local] Instance same_best_fitness_trans : Transitive same_best_fitness.
Proof.
  intros a b c (H1 & H2 & H3) (K1 & K2 & K3).
  repeat split; congruence.
Qed.

Section Barren.
Variable rand : nat -> float.
Variable arrival : nat -> list nat.

Lemma evaluate_barren opt h order rs :
  (forall idx f, idx ∈ order -> getParticleFitness opt h idx <> Ok (Some f)) ->
  evaluate opt h order = Ok rs ->
  Forall (fun r => snd r = None) rs.
Proof.
  revert rs. induction order as [|idx order IH]; intros rs Hall H.
  - injection H as <-. constructor.
  - cbn [evaluate] in H. mstep H. mstep H. injection H as <-.
    constructor.
    + destruct a as [f|]; [|reflexivity].
      now destruct (Hall idx f (list_elem_of_here _ _)).
    + apply IH; [|exact Hres0]. intros i f Hi. apply Hall.
      now apply list_elem_of_further.
Qed.

Lemma collect_barren rs opt avg count w opt' avg' count' w' :
  Forall (fun r => snd r = None) rs ->
  foldM collect rs (opt, avg, count) w = Ok (opt', avg', count', w') ->
  same_best_fitness opt opt' /\ avg' = avg /\ count' = count /\ w' = w.
Proof.
  revert opt w. induction rs as [|[idx r] rs IH]; intros opt w Hall H.
  - cbn [foldM] in H. mstep H. now repeat split.
  - apply Forall_cons in Hall as [Hr Hall]. cbn in Hr. subst r.
    cbn [foldM] in H. mbind H as acc Hc.
    apply collect_no_fitness in Hc as (c & _ & -> & ->).
    apply IH in H as (Hs & -> & -> & ->); [|exact Hall].
    repeat split; apply Hs.
Qed.

Lemma move_particle_frame opt idx w opt' w' :
  move_particle rand opt idx w = Ok (opt', w') ->
  exists v, opt' = set_velocities v opt.
Proof.
  unfold move_particle. intros H. do 19 mstep H. mstep H. now eexists.
Qed.

Lemma update_rule_frame opt w opt' w' :
  update_rule rand opt w = Ok (opt', w') ->
  exists v, opt' = set_velocities v opt.
Proof.
  unfold update_rule. intros H.
  refine (foldM_invariant (move_particle rand)
            (fun _ o _ => exists v, o = set_velocities v opt)
            _ _ [] opt w opt' w' _ H).
  - intros pre idx o2 w2 o3 w3 [v ->] Hm. cbn in *.
    apply move_particle_frame in Hm as [v' ->]. now exists v'.
  - exists (velocities opt). now destruct opt.
Qed.

Lemma step_barren opt w opt' w' :
  (forall idx f, idx ∈ arrival (rounds w) ->
                 getParticleFitness opt (heap w) idx <> Ok (Some f)) ->
  step rand arrival opt w = Ok (opt', w') ->
  same_best_fitness opt opt'.
Proof.
  intros Hall H. unfold step in H. mbind H as o1 Hu.
  apply update_rule_frame in H as [v ->].
  unfold update_fitness in Hu.
  destruct (to_int _ <? 0); [discriminate|].
  destruct (_ && _); [discriminate|].
  mbind Hu as order Ho. mbind Hu as rs He. mbind Hu as acc Hc.
  destruct acc as [[o2 avg] count]. mstep Hu.
  unfold next_round in Ho. injection Ho as <- <-. cbn [heap] in He.
  apply (evaluate_barren _ _ _ _ Hall) in He.
  apply (collect_barren _ _ _ _ _ _ _ _ _ He) in Hc as (Hs & _).
  repeat split; apply Hs.
Qed.

Lemma run_barren n opt w opt' w' :
  barren rand arrival n opt w ->
  run rand arrival n opt w = Ok (opt', w') ->
  same_best_fitness opt opt'.
Proof.
  revert opt w. induction n as [|n IH]; intros opt w Hb H.
  - cbn [run] in H. mstep H. reflexivity.
  - cbn [run] in H. mbind H as o1 Hs. destruct Hb as [Hall Hnext].
    transitivity o1.
    + eapply step_barren; eassumption.
    + eapply IH; [|exact H]. now apply Hnext.
Qed.

Lemma reset_bests opt w opt' w' :
  reset rand opt w = Ok (opt', w') ->
  globalBestFitness opt' = F64.MaxFloat64 /\
  Forall (fun f => f = F64.MaxFloat64) (particleBestFitness opt') /\
  Forall (fun f => f = F64.MaxFloat64) (localBestFitness opt').
Proof.
  unfold reset. intros H.
  mstep H. mstep Hrun. mstep H. destruct a0 as [pos0 best0].
  mstep H. destruct a0 as [pos vel].
  do 5 mstep H. mstep H. cbn.
  repeat split; apply Forall_forall; intros x Hx;
    now apply list_elem_of_In, repeat_spec in Hx.
Qed.

End Barren.

(** ** What a step never touches *)

#[local] Instance same_static_refl : Reflexive same_static.
Proof. intros o. now repeat split. Qed.

#[local] Instance same_static_trans : Transitive same_static.
Proof.
  intros a b c (H1 & H2 & H3 & H4 & H5 & H6 & H7)
    (K1 & K2 & K3 & K4 & K5 & K6 & K7).
  repeat split; congruence.
Qed.

Section Static.
Variable rand : nat -> float.
Variable arrival : nat -> list nat.

Lemma collect_static opt avg count res w opt' avg' count' w' :
  collect (opt, avg, count) res w = Ok (opt', avg', count', w') ->
  same_static opt opt'.
Proof.
  unfold collect. destruct res as [idx [f|]]; intros H.
  - mbind H as o1 Hp. mbind H as o2 Hg. mbind H as o3 Hgl. mstep H.
    transitivity o1; [|transitivity o2].
    + unfold improve_particle in Hp. mbind Hp as x Hx.
      destruct (F64.ltb f x); [do 3 mstep Hp|]; mstep Hp;
        now repeat split.
    + unfold improve_group in Hg. mbind Hg as g Hx. mbind Hg as x Hy.
      destruct (F64.ltb f x); [do 3 mstep Hg|]; mstep Hg;
        now repeat split.
    + unfold improve_global in Hgl.
      destruct (F64.ltb f _); [do 2 mstep Hgl|]; mstep Hgl;
        now repeat split.
  - mstep H. mstep H. now repeat split.
Qed.

Lemma update_fitness_static opt w opt' w' :
  update_fitness arrival opt w = Ok (opt', w') -> same_static opt opt'.
Proof.
  unfold update_fitness. intros H.
  destruct (to_int _ <? 0); [discriminate|].
  destruct (_ && _); [discriminate|].
  mbind H as order Ho. mbind H as rs He. mbind H as acc Hc.
  destruct acc as [[o1 avg] count]. mstep H.
  change (same_static opt o1).
  refine (foldM_invariant collect
            (fun _ acc _ => same_static opt (fst (fst acc))) _
            rs [] (opt, F64.zero, F64.zero) _ (o1, avg, count) _ _ Hc).
  - intros pre res [[o2 avg2] count2] w2 [[o3 avg3] count3] w3 HI Hc'.
    cbn in *. transitivity o2; [exact HI|].
    eapply collect_static; eassumption.
  - reflexivity.
Qed.

Lemma step_static opt w opt' w' :
  step rand arrival opt w = Ok (opt', w') -> same_static opt opt'.
Proof.
  unfold step. intros H. mbind H as o1 Hu.
  apply update_fitness_static in Hu.
  apply update_rule_frame in H as [v ->].
  destruct Hu as (H1 & H2 & H3 & H4 & H5 & H6 & H7). now repeat split.
Qed.

(** A constraint that rejects every position makes every round barren. *)
Lemma rejecting_constraint_barren c n :
  forall opt w,
    c ∈ Constraints (options opt) -> (forall x, c x = false) ->
    barren rand arrival n opt w.
Proof.
  induction n as [|n IH]; intros opt w Hc Hrej; [exact I|].
  split.
  - intros idx f _ H. apply feasible_when_fitness in H
      as (p & position & _ & _ & _ & Hcs & _).
    specialize (Hcs c Hc). now rewrite Hrej in Hcs.
  - intros opt' w' Hs. apply IH; [|exact Hrej].
    apply step_static in Hs as (_ & _ & -> & _). exact Hc.
Qed.

End Static.

(** C6: a particle whose position fails a [Contains] check of [Bounds] or
    a [Constraint] records no fitness; a result without fitness only
    increments the stall count of its particle, leaving every best, the
    running sum and count and all positions as they are; so over any number
    of steps in which no particle is feasible the bests keep their values,
    the global best staying at the [math.MaxFloat64] that [New] gave it. *)
Theorem infeasible_particles_change_no_best
    (rand : nat -> float) (arrival : nat -> list nat) :
  (forall opt h idx p position,
      positions opt !! idx = Some p -> h !! p = Some position ->
      (exists i b x, Bounds (options opt) !! i = Some b /\
                     position !! i = Some x /\ Contains b x = false) \/
      (exists c, c ∈ Constraints (options opt) /\ c position = false) ->
      forall f, getParticleFitness opt h idx <> Ok (Some f)) /\
  (forall opt avg count idx w acc w',
      collect (opt, avg, count) (idx, None) w = Ok (acc, w') ->
      exists c,
        stallCount opt !! idx = Some c /\
        acc = (set_stallCount (<[idx := to_uint (c + 1)]> (stallCount opt))
                 opt, avg, count) /\
        w' = w) /\
  (forall n opt w opt' w',
      barren rand arrival n opt w ->
      run rand arrival n opt w = Ok (opt', w') ->
      particleBestFitness opt' = particleBestFitness opt /\
      localBestFitness opt' = localBestFitness opt /\
      globalBestFitness opt' = globalBestFitness opt) /\
  (forall GOMAXPROCS f sh o w opt e w0 n opt' w',
      New rand GOMAXPROCS f sh o w = Ok (Some opt, e, w0) ->
      barren rand arrival n opt w0 ->
      run rand arrival n opt w0 = Ok (opt', w') ->
      globalBestFitness opt' = F64.MaxFloat64).
Proof.
  split; [|split; [|split]].
  - intros opt h idx p position Hp Hh Hbad f H.
    apply feasible_when_fitness in H
      as (p' & position' & Hp' & Hh' & Hb & Hc & _).
    assert (p' = p) as -> by congruence.
    assert (position' = position) as -> by congruence.
    destruct Hbad as [(i & b & x & H1 & H2 & H3)|(c & H1 & H2)].
    + rewrite (Hb i b x H1 H2) in H3. discriminate.
    + rewrite (Hc c H1) in H2. discriminate.
  - intros *. apply collect_no_fitness.
  - intros n opt w opt' w' Hb H. exact (run_barren _ _ _ _ _ _ _ Hb H).
  - intros G f sh o w opt e w0 n opt' w' HNew Hb H.
    destruct (run_barren _ _ _ _ _ _ _ Hb H) as (_ & _ & ->).
    unfold New in HNew. destruct sh; [discriminate|].
    mbind HNew as o1 Hr. mstep HNew.
    now apply reset_bests in Hr as (-> & _).
Qed.

Lemma infeasible_particles_change_no_best_witness :
  match New Demo.rand Demo.GOMAXPROCS Demo.square Demo.line
          (Demo.with_limits [] [fun _ => false]
             (Demo.with_sizes 2 4 Demo.unset)) Demo.empty_world with
  | Ok (Some opt, _, w0) =>
      match run Demo.rand (Demo.in_order 4) 3 opt w0 with
      | Ok (opt', _) => globalBestFitness opt' = F64.MaxFloat64
      | Panic _ => False
      end
  | _ => False
  end.
Proof.
  destruct (New _ _ _ _ _ _) as [[[[opt|] e] w0]|p] eqn:HNew;
    [|vm_compute in HNew; discriminate HNew ..].
  destruct (run _ _ _ _ _) as [[opt' w']|p] eqn:HRun.
  - refine (proj2 (proj2 (proj2 (infeasible_particles_change_no_best _ _)))
              _ _ _ _ _ _ _ _ _ _ _ HNew _ HRun).
    apply (rejecting_constraint_barren _ _ (fun _ => false));
      [|reflexivity].
    rewrite (New_options _ _ _ _ _ _ _ _ _ HNew). apply list_elem_of_here.
  - vm_compute in HNew. injection HNew as <- _ <-.
    vm_compute in HRun. discriminate HRun.
Defined.

(** ** Positions after the update rule *)

Lemma load_Ok l w v w' :
  load l w = Ok (v, w') -> w' = w /\ heap w !! l = Some v.
Proof.
  unfold load. destruct (heap w !! l); [|discriminate].
  now intros [= -> ->].
Qed.

Lemma Float64_Ok rand w u w' :
  Float64 rand w = Ok (u, w') ->
  heap w' = heap w /\ rounds w' = rounds w /\ u = rand (draws w).
Proof. unfold Float64. now intros [= <- <-]. Qed.

Lemma poke_Ok l i x w w' :
  poke l i x w = Ok (tt, w') ->
  exists v, heap w !! l = Some v /\ (i < length v)%nat /\
            heap w' = <[l := <[i := x]> v]> (heap w) /\
            draws w' = draws w /\ rounds w' = rounds w.
Proof.
  unfold poke. intros H. mbind H as v Hv. apply load_Ok in Hv as [-> Hv].
  mbind H as v' Ha. unfold assign in Ha.
  destruct (i <? length v)%nat eqn:E; [|discriminate].
  injection Ha as <-. apply Nat.ltb_lt in E.
  unfold store in H. injection H as <-. now exists v.
Qed.

Lemma clip_into_Ok p np bs : forall i w w',
  clip_into p np bs i w = Ok (tt, w') ->
  (forall q, q <> p -> heap w' !! q = heap w !! q) /\
  length (heap w') = length (heap w) /\
  draws w' = draws w /\ rounds w' = rounds w /\
  (forall v', heap w' !! p = Some v' ->
     clipped_from i bs v' /\
     exists v, heap w !! p = Some v /\ length v' = length v /\
               forall j, (j < i)%nat -> v' !! j = v !! j).
Proof.
  induction bs as [|b bs IH]; intros i w w' H.
  - cbn [clip_into] in H. mstep H. repeat split; try reflexivity.
    + intros k b x Hb. discriminate.
    + now exists v'.
  - cbn [clip_into] in H. mbind H as x Hx. mbind H as u Hp. destruct u.
    apply poke_Ok in Hp as (v & Hv & Hi & Hh & Hd & Hr).
    apply IH in H as (Hq & Hlen & Hd' & Hr' & Hp').
    assert (p < length (heap w))%nat as Hlt by (eapply lookup_lt_Some; eauto).
    repeat split.
    + intros q Hne. rewrite (Hq q Hne), Hh.
      now apply list_lookup_insert_ne.
    + now rewrite Hlen, Hh, length_insert.
    + congruence.
    + congruence.
    + destruct (Hp' v' H) as (Hc & v1 & Hv1 & Hl1 & Hsame).
      rewrite Hh, list_lookup_insert_eq in Hv1 by exact Hlt.
      injection Hv1 as <-.
      intros [|k] b' x' Hb' Hx'.
      * cbn in Hb'. injection Hb' as <-. rewrite Nat.add_0_r in Hx'.
        rewrite (Hsame i) in Hx' by lia.
        rewrite list_lookup_insert_eq in Hx' by exact Hi.
        injection Hx' as <-. now eexists.
      * cbn in Hb'. apply (Hc k b' x' Hb').
        now replace (S i + k)%nat with (i + S k)%nat by lia.
    + destruct (Hp' v' H) as (Hc & v1 & Hv1 & Hl1 & Hsame).
      rewrite Hh, list_lookup_insert_eq in Hv1 by exact Hlt.
      injection Hv1 as <-. exists v. split; [exact Hv|]. split.
      * now rewrite Hl1, length_insert.
      * intros j Hj. rewrite (Hsame j) by lia.
        apply list_lookup_insert_ne. lia.
Qed.

Section UpdateRule.
Variable rand : nat -> float.
Variable arrival : nat -> list nat.

(** What one turn of the loop of [Step] reads, draws, computes and
    writes. *)
Lemma move_particle_Ok opt idx w opt' w' :
  move_particle rand opt idx w = Ok (opt', w') ->
  exists g p ri pb pbest dp lb lbest dl gbest dg vi nv np,
    group_of opt idx = Ok g /\
    positions opt !! idx = Some p /\ heap w !! p = Some ri /\
    particleBestPosition opt !! idx = Some pb /\
    heap w !! pb = Some pbest /\ sub pbest ri = Ok dp /\
    localBestPosition opt !! Z.to_nat g = Some lb /\
    heap w !! lb = Some lbest /\ sub lbest ri = Ok dl /\
    heap w !! globalBestPosition opt = Some gbest /\ sub gbest ri = Ok dg /\
    velocities opt !! idx = Some vi /\
    new_velocity (options opt) vi
      (scale dp (rand (draws w)))
      (scale dl (rand (S (draws w))))
      (scale dg (rand (S (S (draws w))))) = Ok nv /\
    opt' = set_velocities (<[idx := nv]> (velocities opt)) opt /\
    sum [ri; nv] = Ok np /\
    clip_into p np (Bounds (options opt)) 0
      (mkWorld (heap w) (S (S (S (draws w)))) (rounds w)) = Ok (tt, w').
Proof.
  unfold move_particle. intros H.
  mbind H as g Hg. mbind H as p Hp. apply index_Ok in Hp.
  mbind H as ri Hri. apply load_Ok in Hri as [-> Hri].
  mbind H as pb Hpb. apply index_Ok in Hpb.
  mbind H as pbest Hpbest. apply load_Ok in Hpbest as [-> Hpbest].
  mbind H as dp Hdp.
  mbind H as u1 Hu1. unfold Float64 in Hu1. injection Hu1 as <- <-.
  mbind H as lb Hlb. apply indexZ_Ok in Hlb as [_ Hlb].
  mbind H as lbest Hlbest. apply load_Ok in Hlbest as [-> Hlbest].
  mbind H as dl Hdl.
  mbind H as u2 Hu2. unfold Float64 in Hu2. injection Hu2 as <- <-.
  mbind H as gbest Hgbest. apply load_Ok in Hgbest as [-> Hgbest].
  mbind H as dg Hdg.
  mbind H as u3 Hu3. unfold Float64 in Hu3. injection Hu3 as <- <-.
  mbind H as vi Hvi. apply index_Ok in Hvi.
  mbind H as nv Hnv.
  mbind H as cur Hcur. apply load_Ok in Hcur as [-> Hcur].
  mbind H as np Hnp.
  mbind H as u Hclip. destruct u. mstep H.
  cbn [heap draws rounds] in *.
  assert (cur = ri) as -> by congruence.
  exists g, p, ri, pb, pbest, dp, lb, lbest, dl, gbest, dg, vi, nv, np.
  repeat split; assumption.
Qed.

(** After its turn, the position array of the particle holds values of
    [Clip] wherever a bound covers it, and no other array has changed. *)
Lemma move_particle_clips opt idx w opt' w' :
  move_particle rand opt idx w = Ok (opt', w') ->
  exists p,
    positions opt !! idx = Some p /\
    (forall q, q <> p -> heap w' !! q = heap w !! q) /\
    (forall v', heap w' !! p = Some v' ->
                clipped_from 0 (Bounds (options opt)) v').
Proof.
  intros H. apply move_particle_Ok in H
    as (g & p & ri & pb & pbest & dp & lb & lbest & dl & gbest & dg & vi
        & nv & np & _ & Hp & _ & _ & _ & _ & _ & _ & _ & _ & _ & _ & _ & _
        & _ & Hclip).
  apply clip_into_Ok in Hclip as (Hq & _ & _ & _ & Hv).
  exists p. split; [exact Hp|]. split; [exact Hq|].
  intros v' Hv'. now apply Hv.
Qed.

(** The invariant of the loop of [Step]: the particles already visited
    have clipped positions. *)
Lemma update_rule_clips opt w opt' w' :
  update_rule rand opt w = Ok (opt', w') ->
  forall idx p v',
    idx ∈ upto (to_int (PopulationSize (options opt))) ->
    positions opt !! idx = Some p -> heap w' !! p = Some v' ->
    clipped_from 0 (Bounds (options opt)) v'.
Proof.
  unfold update_rule. intros H.
  set (I := fun (pre : list nat) (o : Optimizer) (w1 : World) =>
              (exists v, o = set_velocities v opt) /\
              forall (idx : nat) (p : loc) (v' : list float),
                idx ∈ pre -> positions opt !! idx = Some p ->
                heap w1 !! p = Some v' ->
                clipped_from 0 (Bounds (options opt)) v').
  assert (I ([] ++ upto (to_int (PopulationSize (options opt)))) opt' w')
    as [_ Hall]; [|exact Hall].
  refine (foldM_invariant (move_particle rand) I _ _ [] opt w opt' w' _ H).
  - intros pre idx o2 w2 o3 w3 [[v ->] HI] Hm. split.
    + apply move_particle_frame in Hm as [v' ->]. now exists v'.
    + apply move_particle_clips in Hm as (p & Hp & Hq & Hv). cbn in Hp, Hv.
      intros idx' p' v' Hin Hp' Hv'.
      destruct (decide (p' = p)) as [->|Hne]; [now apply Hv|].
      rewrite (Hq p' Hne) in Hv'.
      apply elem_of_app in Hin as [Hin|Hin].
      * exact (HI idx' p' v' Hin Hp' Hv').
      * apply list_elem_of_singleton in Hin as ->. congruence.
  - split; [exists (velocities opt); now destruct opt|].
    intros idx p v' Hin. now apply elem_of_nil in Hin.
Qed.

End UpdateRule.

Lemma Clip_within b y :
  unbounded b = false ->
  F64.leb (lower b) (upper b) = true ->
  F64.is_nan (Clip b y) = false ->
  F64.leb (lower b) (Clip b y) = true /\ F64.leb (Clip b y) (upper b) = true.
Proof.
  intros Hb Hord. unfold Clip. rewrite Hb.
  destruct (F64.ltb y (lower b)) eqn:E1;
    [|destruct (F64.ltb (upper b) y) eqn:E2]; intros Hn;
    split; F64Facts.float_order.
Qed.

(** C4, as the code has it: right after the update rule of a step, for
    every particle and every dimension [j] covered by a [Bounds] range that
    is not the sentinel and has [lower <= upper], the coordinate, when it
    is a number, lies in [[lower, upper]]. *)
Theorem positions_within_ordered_bounds
    (rand : nat -> float) (arrival : nat -> list nat)
    opt w opt' w' (idx : nat) (p : loc) (v : list float) (j : nat)
    (b : Range) (x : float)
    (HStep : Step rand arrival (Some opt) w = Ok (Some opt', w'))
    (Hidx : Z.of_nat idx < to_int (PopulationSize (options opt')))
    (Hp : positions opt' !! idx = Some p)
    (Hv : heap w' !! p = Some v)
    (Hb : Bounds (options opt') !! j = Some b)
    (Hx : v !! j = Some x)
    (Hsentinel : unbounded b = false)
    (Hordered : F64.leb (lower b) (upper b) = true)
    (Hnumber : F64.is_nan x = false) :
  F64.leb (lower b) x = true /\ F64.leb x (upper b) = true.
Proof.
  apply Step_Some in HStep as (o & [= <-] & HStep).
  unfold step in HStep. mbind HStep as o1 Hu.
  apply update_fitness_static in Hu as (_ & _ & Ho & Hpos & _).
  pose proof (update_rule_frame _ _ _ _ _ HStep) as [vel ->].
  cbn [options positions set_velocities] in *.
  assert (idx ∈ upto (to_int (PopulationSize (options o1)))) as Hin.
  { unfold upto. apply elem_of_seq. lia. }
  destruct (update_rule_clips _ _ _ _ _ HStep idx p v Hin Hp Hv j b x Hb Hx)
    as [y ->].
  now apply Clip_within.
Qed.

Lemma positions_within_ordered_bounds_witness :
  match New Demo.rand Demo.GOMAXPROCS Demo.square Demo.line
          (Demo.with_limits [(1%float, 5%float)] []
             (Demo.with_sizes 1 1 Demo.unset)) Demo.empty_world with
  | Ok (Some opt, _, w) =>
      match Step Demo.rand (Demo.in_order 1) (Some opt) w with
      | Ok (Some opt', w') =>
          heap w' !! 0%nat = Some [1%float] /\
          F64.leb 1%float 1%float = true /\ F64.leb 1%float 5%float = true
      | _ => False
      end
  | _ => False
  end.
Proof.
  destruct (New _ _ _ _ _ _) as [[[[opt|] e] w]|q] eqn:HNew;
    [|vm_compute in HNew; discriminate HNew ..].
  destruct (Step _ _ _ _) as [[[opt'|] w']|q] eqn:HStep.
  - assert (positions opt' = [0%nat] /\ heap w' !! 0%nat = Some [1%float] /\
            options opt' = resolve Demo.GOMAXPROCS 1
              (Demo.with_limits [(1%float, 5%float)] []
                 (Demo.with_sizes 1 1 Demo.unset))) as (Hp & Hh & Ho).
    { vm_compute in HNew. injection HNew as <- _ <-.
      vm_compute in HStep. injection HStep as <- <-. now vm_compute. }
    split; [exact Hh|].
    refine (positions_within_ordered_bounds _ _ _ _ _ _ 0%nat 0%nat
              [1%float] 0%nat (1%float, 5%float) 1%float HStep
              _ _ Hh _ _ _ _ _);
      rewrite ?Ho, ?Hp; reflexivity.
  - vm_compute in HNew. injection HNew as <- _ <-.
    vm_compute in HStep. discriminate HStep.
  - vm_compute in HNew. injection HNew as <- _ <-.
    vm_compute in HStep. discriminate HStep.
Defined.

(** With the range [{5, 1}] as bound the position is clipped to 5, above
    the upper end 1. *)
Lemma positions_outside_bounds_counterexample :
  match New Demo.rand Demo.GOMAXPROCS Demo.square Demo.line
          (Demo.with_limits [(5%float, 1%float)] []
             (Demo.with_sizes 1 1 Demo.unset)) Demo.empty_world with
  | Ok (Some opt, _, w) =>
      match Step Demo.rand (Demo.in_order 1) (Some opt) w with
      | Ok (Some opt', w') =>
          positions opt' = [0%nat] /\
          heap w' !! 0%nat = Some [5%float] /\
          Bounds (options opt') = [(5%float, 1%float)] /\
          unbounded (5%float, 1%float) = false /\
          F64.leb 5%float 1%float = false
      | _ => False
      end
  | _ => False
  end.
Proof. vm_compute. repeat split. Qed.

(** Where the numbers end: a shape as wide as [{-1e308, 1e308}] makes the
    first position infinite and the updated one NaN, which [Clip] returns
    as it is and which lies inside no range. *)
Lemma nan_position_passes_Clip :
  match New Demo.rand Demo.GOMAXPROCS Demo.square
          [((-0x1.1ccf385ebc8a0p+1023)%float, 0x1.1ccf385ebc8a0p+1023%float)]
          (Demo.with_limits [(1%float, 2%float)] []
             (Demo.with_sizes 1 1 Demo.unset)) Demo.empty_world with
  | Ok (Some opt, _, w) =>
      match Step Demo.rand (Demo.in_order 1) (Some opt) w with
      | Ok (Some opt', w') =>
          positions opt' = [0%nat] /\
          heap w' !! 0%nat = Some [nan] /\
          Bounds (options opt') = [(1%float, 2%float)] /\
          F64.leb 1%float nan = false
      | _ => False
      end
  | _ => False
  end.
Proof. vm_compute. repeat split. Qed.

(** ** Personal bests and the slices they share *)

Section Aliasing.
Variable rand : nat -> float.

Lemma new_particles_length dims order : forall acc w acc' w',
  foldM (new_particle dims) order acc w = Ok (acc', w') ->
  length (fst acc) = length (snd acc) ->
  length (fst acc') = length (snd acc').
Proof.
  induction order as [|i order IH]; intros acc w acc' w' H Hlen.
  - cbn [foldM] in H. mstep H. exact Hlen.
  - cbn [foldM] in H. mbind H as acc1 Hn.
    apply IH in H; [exact H|].
    unfold new_particle in Hn. mbind Hn as p Hp. mbind Hn as b Hb.
    mstep Hn. cbn [fst snd]. rewrite !length_app. cbn. lia.
Qed.

Lemma draw_coordinate_positions j r acc i w acc' w' :
  draw_coordinate rand j r acc i w = Ok (acc', w') -> fst acc' = fst acc.
Proof.
  unfold draw_coordinate. destruct acc as [pos vel]. intros H.
  do 6 mstep H. mstep H. reflexivity.
Qed.

Lemma draw_all_positions population rs : forall j acc w acc' w',
  draw_all rand population j rs acc w = Ok (acc', w') -> fst acc' = fst acc.
Proof.
  induction rs as [|r rs IH]; intros j acc w acc' w' H.
  - cbn [draw_all] in H. mstep H. reflexivity.
  - cbn [draw_all] in H. mbind H as acc1 Hd.
    apply IH in H. rewrite H.
    refine (foldM_invariant (draw_coordinate rand j r)
              (fun _ a _ => fst a = fst acc) _ _ [] acc w acc1 _ _ Hd);
      [|reflexivity].
    intros pre i s w1 s' w1' HI Hc. cbn in *.
    apply draw_coordinate_positions in Hc. congruence.
Qed.

(** Line 198, [copy(opt.particleBestPosition, opt.positions)], copies the
    slice headers: after [Reset] the personal-best slice of every particle
    is its position slice, the same backing array. *)
Lemma reset_aliases opt w opt' w' :
  reset rand opt w = Ok (opt', w') ->
  particleBestPosition opt' = positions opt'.
Proof.
  unfold reset. intros H.
  mbind H as n Hn. mbind H as pb Hpb. destruct pb as [pos0 best0].
  mbind H as pv Hpv. destruct pv as [pos vel].
  do 5 mstep H. mstep H. cbn [particleBestPosition positions].
  apply new_particles_length in Hpb; [|reflexivity].
  apply draw_all_positions in Hpv. cbn [fst snd] in *. subst pos.
  unfold copied. rewrite <- Hpb, take_ge, drop_ge by lia.
  apply app_nil_r.
Qed.

End Aliasing.

(** C8: one particle on the line, an unbounded [Bounds] entry, and a
    constraint that rejects every position, so that no fitness is ever
    recorded.  After [New] the personal-best slice is the position slice
    itself (array 0, holding 1.5).  One [Step] records nothing (the stall
    count goes to 1, the personal-best fitness keeps its initial value),
    yet the update rule writes the new coordinate into array 0, and the
    personal-best position has moved with the particle. *)
Theorem personal_best_position_moves_with_particle :
  match New Demo.rand Demo.GOMAXPROCS Demo.square Demo.line
          (Demo.with_limits [(F64.zero, F64.zero)] [fun _ => false]
             (Demo.with_sizes 1 1 Demo.unset)) Demo.empty_world with
  | Ok (Some opt, _, w) =>
      positions opt = [0%nat] /\ particleBestPosition opt = [0%nat] /\
      heap w !! 0%nat = Some [1.5%float] /\
      particleBestFitness opt = [F64.MaxFloat64] /\
      match Step Demo.rand (Demo.in_order 1) (Some opt) w with
      | Ok (Some opt', w') =>
          stallCount opt' = [1] /\
          particleBestFitness opt' = [F64.MaxFloat64] /\
          particleBestPosition opt' = [0%nat] /\
          heap w' !! 0%nat = Some [0x1.199999999999ap-1%float]
      | _ => False
      end
  | _ => False
  end.
Proof. vm_compute. repeat split. Qed.

(** ** The update rule and the positions it writes *)

Section Frozen.
Variable rand : nat -> float.
Variable arrival : nat -> list nat.

(** The position is stored only inside the loop over [Bounds] (lines
    335-337): without bounds the update rule writes no array at all. *)
Lemma update_rule_without_bounds opt w opt' w' :
  Bounds (options opt) = [] ->
  update_rule rand opt w = Ok (opt', w') ->
  heap w' = heap w.
Proof.
  unfold update_rule. intros Hb H.
  refine (proj2 (foldM_invariant (move_particle rand)
            (fun _ o w1 => (exists v, o = set_velocities v opt) /\
                           heap w1 = heap w)
            _ _ [] opt w opt' w' _ H)).
  - intros pre idx o2 w2 o3 w3 [[v ->] HI] Hm. split.
    + apply move_particle_frame in Hm as [v' ->]. now exists v'.
    + apply move_particle_Ok in Hm
        as (g & p & ri & pb & pbest & dp & lb & lbest & dl & gbest & dg
            & vi & nv & np & _ & _ & _ & _ & _ & _ & _ & _ & _ & _ & _ & _
            & _ & _ & _ & Hclip).
      cbn [options set_velocities] in Hclip. rewrite Hb in Hclip.
      cbn [clip_into] in Hclip. mstep Hclip. exact HI.
  - split; [exists (velocities opt); now destruct opt | reflexivity].
Qed.

End Frozen.

(** C1: with no [Bounds] (the default) a step gives the particle the new
    velocity -0.95 and leaves its position at 1.5, where the claim has it
    at 1.5 + (-0.95); with a bound for the first of two dimensions only,
    the first coordinate moves to that sum and the second stays. *)
Theorem position_moves_only_under_bounds :
  match New Demo.rand Demo.GOMAXPROCS Demo.square Demo.line
          (Demo.with_sizes 1 1 Demo.unset) Demo.empty_world with
  | Ok (Some opt, _, w) =>
      positions opt = [0%nat] /\ heap w !! 0%nat = Some [1.5%float] /\
      velocities opt = [[(-1)%float]] /\
      match Step Demo.rand (Demo.in_order 1) (Some opt) w with
      | Ok (Some opt', w') =>
          velocities opt' = [[(-0x1.e666666666666p-1)%float]] /\
          positions opt' = [0%nat] /\
          heap w' !! 0%nat = Some [1.5%float] /\
          fadd 1.5%float (-0x1.e666666666666p-1)%float
            = 0x1.199999999999ap-1%float
      | _ => False
      end
  | _ => False
  end /\
  match New Demo.rand Demo.GOMAXPROCS Demo.square
          [(1%float, 3%float); (1%float, 3%float)]
          (Demo.with_limits [(F64.zero, F64.zero)] []
             (Demo.with_sizes 1 1 Demo.unset)) Demo.empty_world with
  | Ok (Some opt, _, w) =>
      positions opt = [0%nat] /\
      heap w !! 0%nat = Some [1.5%float; 1.5%float] /\
      match Step Demo.rand (Demo.in_order 1) (Some opt) w with
      | Ok (Some opt', w') =>
          velocities opt' =
            [[(-0x1.e666666666666p-1)%float;
              (-0x1.e666666666666p-1)%float]] /\
          heap w' !! 0%nat = Some [0x1.199999999999ap-1%float; 1.5%float]
      | _ => False
      end
  | _ => False
  end.
Proof. vm_compute. repeat split. Qed.

(** ** The convergence loop *)








(** *** Counting the steps by the evaluation rounds *)

Lemma keeps_rounds_ret {A} (a : A) : keeps_rounds (ret a).
Proof. intros w b w' [= _ <-]. reflexivity. Qed.

Lemma keeps_rounds_lift {A} (r : result A) : keeps_rounds (lift r).
Proof. intros w a w' H. now apply lift_Ok in H as [_ ->]. Qed.

Lemma keeps_rounds_throw {A} p : keeps_rounds (@throw A p).
Proof. intros w a w' H. discriminate. Qed.

Lemma keeps_rounds_bind {A B} (c : M A) (k : A -> M B) :
  keeps_rounds c -> (forall a, keeps_rounds (k a)) -> keeps_rounds (bind c k).
Proof.
  intros Hc Hk w b w' H. mbind H as a Ha.
  rewrite (Hk _ _ _ _ H). exact (Hc _ _ _ Ha).
Qed.

Lemma keeps_rounds_load l : keeps_rounds (load l).
Proof. intros w a w' H. now apply load_Ok in H as [-> _]. Qed.

Lemma keeps_rounds_store l v : keeps_rounds (store l v).
Proof. intros w a w' [= _ <-]. reflexivity. Qed.

Lemma keeps_rounds_Float64 rand : keeps_rounds (Float64 rand).
Proof. intros w a w' [= _ <-]. reflexivity. Qed.

Lemma keeps_rounds_foldM {A S} (f : S -> A -> M S) l :
  (forall s a, keeps_rounds (f s a)) -> forall s, keeps_rounds (foldM f l s).
Proof.
  intros Hf. induction l as [|a l IH]; intros s; cbn [foldM].
  - apply keeps_rounds_ret.
  - apply keeps_rounds_bind; [apply Hf | exact IH].
Qed.

Lemma keeps_rounds_copy_slice dst src : keeps_rounds (copy_slice dst src).
Proof.
  unfold copy_slice.
  repeat (apply keeps_rounds_bind; [|intros ?]);
    first [apply keeps_rounds_load | apply keeps_rounds_store].
Qed.

Lemma keeps_rounds_poke l i x : keeps_rounds (poke l i x).
Proof.
  unfold poke.
  apply keeps_rounds_bind; [apply keeps_rounds_load | intros v].
  apply keeps_rounds_bind; [apply keeps_rounds_lift | intros v'].
  apply keeps_rounds_store.
Qed.

(** Decompose a goal [keeps_rounds c] along the shape of [c]. *)
Ltac keeps :=
  cbv zeta;
  repeat lazymatch goal with
    | |- keeps_rounds (ret _) => apply keeps_rounds_ret
    | |- keeps_rounds (lift _) => apply keeps_rounds_lift
    | |- keeps_rounds (throw _) => apply keeps_rounds_throw
    | |- keeps_rounds (load _) => apply keeps_rounds_load
    | |- keeps_rounds (store _ _) => apply keeps_rounds_store
    | |- keeps_rounds (Float64 _) => apply keeps_rounds_Float64
    | |- keeps_rounds (poke _ _ _) => apply keeps_rounds_poke
    | |- keeps_rounds (copy_slice _ _) => apply keeps_rounds_copy_slice
    | |- keeps_rounds (bind _ _) => apply keeps_rounds_bind; [|intros ?]
    | |- keeps_rounds (if ?b then _ else _) => destruct b
    | |- keeps_rounds (match ?x with _ => _ end) => destruct x
    end.


Lemma keeps_rounds_collect acc res : keeps_rounds (collect acc res).
Proof.
  unfold collect, improve_particle, improve_group, improve_global.
  destruct acc as [[opt avg] count], res as [idx [f|]]; keeps.
Qed.


Lemma update_fitness_rounds arrival opt w opt' w' :
  update_fitness arrival opt w = Ok (opt', w') -> rounds w' = S (rounds w).
Proof.
  unfold update_fitness. intros H.
  destruct (to_int _ <? 0); [discriminate|].
  destruct (_ && _); [discriminate|].
  mbind H as order Ho. mbind H as rs He. mbind H as acc Hc.
  destruct acc as [[o1 avg] count]. mstep H.
  unfold next_round in Ho. injection Ho as <- <-.
  apply (keeps_rounds_foldM collect rs keeps_rounds_collect) in Hc.
  exact Hc.
Qed.



Section Convergence.
Variable rand : nat -> float.
Variable arrival : nat -> list nat.
Variable Log10 : float -> float.






End Convergence.



(** ** The vector operations (swarm.go, lines 341-368) *)

Lemma lookup_repeat {A} (x : A) n i :
  (i < n)%nat -> repeat x n !! i = Some x.
Proof.
  revert i. induction n as [|n IH]; intros [|i] H; cbn; try lia;
    [reflexivity | apply IH; lia].
Qed.

Lemma lookup_repeat_Some {A} (x y : A) n i :
  repeat x n !! i = Some y -> y = x /\ (i < n)%nat.
Proof.
  revert i. induction n as [|n IH]; intros [|i] H; cbn in H;
    try discriminate.
  - injection H as <-. split; [reflexivity | lia].
  - apply IH in H as [-> H]. split; [reflexivity | lia].
Qed.

Lemma accumulate_Ok res : forall v t,
  accumulate res v = Ok t ->
  length t = length res /\ (length v <= length res)%nat /\
  forall i x, res !! i = Some x -> t !! i = Some (added_at v i x).
Proof.
  induction res as [|r res IH]; intros [|y v] t H; cbn in H;
    try discriminate.
  - injection H as <-. repeat split; [lia|]. intros i x Hx. discriminate.
  - injection H as <-. repeat split; [cbn; lia|]. intros i x Hx.
    now rewrite Hx.
  - mstep H. injection H as <-. apply IH in Hres as (Hl & Hle & Hi).
    repeat split; [cbn; lia | cbn; lia|].
    intros [|i] x Hx; cbn in Hx |- *.
    + now injection Hx as <-.
    + unfold added_at. cbn. exact (Hi i x Hx).
Qed.

Lemma accumulate_Panic res : forall v p,
  accumulate res v = Panic p ->
  p = IndexOutOfRange /\ (length res < length v)%nat.
Proof.
  induction res as [|r res IH]; intros [|y v] p H; cbn in H;
    try discriminate.
  - injection H as <-. split; [reflexivity | cbn; lia].
  - destruct (accumulate res v) as [t|q] eqn:E; [discriminate|].
    cbn in H. injection H as <-. apply IH in E as [-> E].
    split; [reflexivity | cbn; lia].
Qed.

Lemma sum_into_Ok vs : forall res r,
  sum_into res vs = Ok r ->
  length r = length res /\
  Forall (fun v => (length v <= length res)%nat) vs /\
  forall i x, res !! i = Some x -> r !! i = Some (column_sum vs i x).
Proof.
  induction vs as [|v vs IH]; intros res r H; cbn in H.
  - injection H as <-. repeat split; [constructor|]. intros i x Hx. exact Hx.
  - mstep H. apply accumulate_Ok in Hres as (Hl & Hle & Hi).
    apply IH in H as (Hl' & Hall & Hi'). rewrite Hl in Hl', Hall.
    repeat split; [exact Hl' | now constructor|].
    intros i x Hx. cbn. apply Hi'. now apply Hi.
Qed.

Lemma sum_into_Panic vs : forall res p,
  sum_into res vs = Panic p ->
  p = IndexOutOfRange /\ Exists (fun v => (length res < length v)%nat) vs.
Proof.
  induction vs as [|v vs IH]; intros res p H; cbn in H; [discriminate|].
  destruct (accumulate res v) as [t|q] eqn:E; cbn in H.
  - pose proof (accumulate_Ok _ _ _ E) as (Hl & _).
    apply IH in H as [-> H]. rewrite Hl in H.
    split; [reflexivity | now apply Exists_cons_tl].
  - injection H as <-. apply accumulate_Panic in E as [-> E].
    split; [reflexivity | now apply Exists_cons_hd].
Qed.

(** X1: [sum] returns a vector of the length of its first argument, whose
    coordinate [i] adds up, in order and from zero, the coordinates [i] of
    the arguments that have one; it panics with an index out of range
    exactly when it is given no vector or one longer than the first. *)
Theorem sum_of_vectors (vs : list (list float)) :
  match sum vs with
  | Ok r =>
      exists v0 rest,
        vs = v0 :: rest /\ length r = length v0 /\
        Forall (fun v => (length v <= length v0)%nat) rest /\
        forall i, (i < length v0)%nat ->
                  r !! i = Some (column_sum vs i F64.zero)
  | Panic p =>
      p = IndexOutOfRange /\
      (vs = [] \/
       exists v0 rest,
         vs = v0 :: rest /\
         Exists (fun v => (length v0 < length v)%nat) rest)
  end.
Proof.
  unfold sum. destruct vs as [|v0 rest]; [now split; [|left]|].
  cbn [index lookup list_lookup rbind].
  destruct (sum_into _ _) as [r|p] eqn:E.
  - apply sum_into_Ok in E as (Hl & Hall & Hi).
    unfold zeros in *. rewrite repeat_length in Hl, Hall.
    exists v0, rest. repeat split; [exact Hl | now inversion Hall|].
    intros i Hlt. apply Hi. now apply lookup_repeat.
  - apply sum_into_Panic in E as [-> E].
    unfold zeros in E. rewrite repeat_length in E.
    split; [reflexivity|]. right. exists v0, rest. split; [reflexivity|].
    apply Exists_cons in E as [E|E]; [lia | exact E].
Qed.

Lemma sub_Ok u : forall v r,
  sub u v = Ok r ->
  length r = length u /\ (length u <= length v)%nat /\
  forall i a b, u !! i = Some a -> v !! i = Some b ->
                r !! i = Some (fsub a b).
Proof.
  induction u as [|a0 u IH]; intros [|b0 v] r H; cbn in H;
    try discriminate.
  - injection H as <-. repeat split; [lia|]. intros i a b Ha. discriminate.
  - injection H as <-. repeat split; [cbn; lia|]. intros i a b Ha.
    discriminate.
  - mstep H. injection H as <-. apply IH in Hres as (Hl & Hle & Hi).
    repeat split; [cbn; lia | cbn; lia|].
    intros [|i] x y Ha Hb; cbn in Ha, Hb |- *.
    + congruence.
    + exact (Hi i x y Ha Hb).
Qed.

Lemma sub_Panic u : forall v p,
  sub u v = Panic p -> p = IndexOutOfRange /\ (length v < length u)%nat.
Proof.
  induction u as [|a0 u IH]; intros [|b0 v] p H; cbn in H;
    try discriminate.
  - injection H as <-. split; [reflexivity | cbn; lia].
  - destruct (sub u v) as [t|q] eqn:E; [discriminate|].
    cbn in H. injection H as <-. apply IH in E as [-> E].
    split; [reflexivity | cbn; lia].
Qed.

(** X2: [sub(u, v)] is the coordinate-wise difference, of the length of
    [u], when [v] is at least as long as [u] (what [v] has beyond is
    ignored); when [v] is shorter it panics with an index out of range. *)
Theorem sub_of_vectors (u v : list float) :
  match sub u v with
  | Ok r =>
      (length u <= length v)%nat /\ length r = length u /\
      forall i a b, u !! i = Some a -> v !! i = Some b ->
                    r !! i = Some (fsub a b)
  | Panic p => p = IndexOutOfRange /\ (length v < length u)%nat
  end.
Proof.
  destruct (sub u v) as [r|p] eqn:E.
  - apply sub_Ok in E as (H1 & H2 & H3). now repeat split.
  - now apply sub_Panic in E.
Qed.

(** ** Ranges: clipping and the bounds check together *)

(** X3: for the sentinel and for every range with [lower <= upper], a
    clipped value passes the bounds check of the same range, whatever was
    clipped (a NaN included), and clipping it again changes nothing. *)
Theorem clipped_values_are_contained (r : Range) (x : float)
  (Hproper : proper r = true) :
  Contains r (Clip r x) = true /\ Clip r (Clip r x) = Clip r x.
Proof.
  unfold proper in Hproper. unfold Contains, Clip.
  destruct (unbounded r) eqn:Hu; [now split|]. cbn [orb] in Hproper.
  destruct (F64.ltb x (lower r)) eqn:E1.
  - assert (F64.ltb (lower r) (lower r) = false) as ->
      by apply F64Facts.ltb_irrefl.
    assert (F64.ltb (upper r) (lower r) = false) as ->
      by now apply F64Facts.leb_not_ltb.
    now split.
  - destruct (F64.ltb (upper r) x) eqn:E2.
    + assert (F64.ltb (upper r) (lower r) = false) as ->
        by now apply F64Facts.leb_not_ltb.
      assert (F64.ltb (upper r) (upper r) = false) as ->
        by apply F64Facts.ltb_irrefl.
      now split.
    + rewrite E1, E2. now split.
Qed.

Lemma clipped_values_are_contained_witness :
  Contains (1%float, 2%float) (Clip (1%float, 2%float) 7%float) = true /\
  Clip (1%float, 2%float) (Clip (1%float, 2%float) 7%float)
    = Clip (1%float, 2%float) 7%float.
Proof. exact (clipped_values_are_contained (1%float, 2%float) 7%float eq_refl). Defined.

(** X4: a range that is not the sentinel and has [upper < lower] contains
    no number: every position with a number in that dimension fails the
    bounds check. *)
Theorem inverted_range_contains_no_number (r : Range) (x : float)
  (Hsentinel : unbounded r = false)
  (Hinverted : F64.ltb (upper r) (lower r) = true)
  (Hnumber : F64.is_nan x = false) :
  Contains r x = false.
Proof.
  unfold Contains. rewrite Hsentinel.
  destruct (F64.ltb x (lower r)) eqn:E1; [reflexivity|].
  destruct (F64.ltb (upper r) x) eqn:E2; [reflexivity|].
  exfalso. F64Facts.float_order.
Qed.

Lemma inverted_range_contains_no_number_witness :
  Contains (5%float, 1%float) 3%float = false.
Proof.
  exact (inverted_range_contains_no_number (5%float, 1%float) 3%float
           eq_refl eq_refl eq_refl).
Defined.

(** ** The evaluation of one particle (swarm.go, lines 220-244) *)

Lemma within_bounds_eq bs : forall k position,
  within_bounds bs k position =
  if covered_in_bounds bs (drop k position)
  then if (length bs <=? length (drop k position))%nat
       then Ok true else Panic IndexOutOfRange
  else Ok false.
Proof.
  unfold covered_in_bounds.
  induction bs as [|b bs IH]; intros k position; [reflexivity|].
  cbn [within_bounds]. unfold index.
  assert (position !! k = drop k position !! 0%nat) as ->
    by now rewrite lookup_drop, Nat.add_0_r.
  destruct (drop k position) as [|x rest] eqn:E; cbn.
  - reflexivity.
  - rewrite IH. destruct (Contains b x); [|reflexivity].
    assert (drop (S k) position = rest) as ->.
    { replace (S k) with (k + 1)%nat by lia.
      rewrite <- drop_drop, E. reflexivity. }
    reflexivity.
Qed.

Lemma within_constraints_eq cs position :
  within_constraints cs position = accepted cs position.
Proof.
  unfold accepted. induction cs as [|c cs IH]; [reflexivity|].
  cbn. now rewrite IH.
Qed.

Lemma getParticleFitness_eq (opt : Optimizer) (h : list (list float))
    (idx : nat) (p : loc) (position : list float) :
  positions opt !! idx = Some p -> h !! p = Some position ->
  getParticleFitness opt h idx =
  if covered_in_bounds (Bounds (options opt)) position
  then if (length (Bounds (options opt)) <=? length position)%nat
       then if accepted (Constraints (options opt)) position
            then Ok (Some (fitness opt position))
            else Ok None
       else Panic IndexOutOfRange
  else Ok None.
Proof.
  intros Hslice Harray.
  unfold getParticleFitness, index. rewrite Hslice. cbn [rbind].
  rewrite Harray. cbn [rbind]. rewrite within_bounds_eq, drop_0.
  rewrite within_constraints_eq.
  destruct (covered_in_bounds _ _); [|reflexivity].
  destruct (_ <=? _)%nat; [|reflexivity]. cbn.
  now destruct (accepted _ _).
Qed.

(** X5: for a particle whose position slice is in place,
    [getParticleFitness] reports no fitness as soon as a coordinate fails
    its bound; when all the coordinates that have a bound pass, it panics
    if [Bounds] has more entries than the position has coordinates, reports
    no fitness if a constraint rejects the position, and otherwise reports
    the value of the objective at the position. *)
Theorem getParticleFitness_outcome (opt : Optimizer) (h : list (list float))
    (idx : nat) (p : loc) (position : list float)
  (Hslice : positions opt !! idx = Some p)
  (Harray : h !! p = Some position) :
  getParticleFitness opt h idx =
  if covered_in_bounds (Bounds (options opt)) position
  then if (length (Bounds (options opt)) <=? length position)%nat
       then if accepted (Constraints (options opt)) position
            then Ok (Some (fitness opt position))
            else Ok None
       else Panic IndexOutOfRange
  else Ok None.
Proof. exact (getParticleFitness_eq opt h idx p position Hslice Harray). Qed.

Lemma getParticleFitness_outcome_witness :
  getParticleFitness
    (mkOptimizer Demo.square Demo.line
       (Demo.with_limits [(1%float, 3%float)] [] Demo.unset)
       [0%nat] [] [] [] [] [] [] 0%nat F64.zero F64.zero)
    [[2%float]] 0 = Ok (Some 4%float).
Proof.
  exact (getParticleFitness_outcome
           (mkOptimizer Demo.square Demo.line
              (Demo.with_limits [(1%float, 3%float)] [] Demo.unset)
              [0%nat] [] [] [] [] [] [] 0%nat F64.zero F64.zero)
           [[2%float]] 0 0%nat [2%float] eq_refl eq_refl).
Defined.

(** ** Construction, again *)

(** X6: [New] returns the error [ErrInvalidShape], no optimizer and an
    untouched world exactly when the shape is empty; otherwise, when it
    returns, the error is nil and the optimizer carries the objective, the
    shape and the resolved options. *)
Theorem New_outcome (rand : nat -> float) (GOMAXPROCS : Z)
    (f : Fitness) (sh : list Range) (o : Options) (w : World) :
  match New rand GOMAXPROCS f sh o w with
  | Ok (opt, err, w') =>
      (sh = [] /\ opt = None /\ err = Some ErrInvalidShape /\ w' = w) \/
      (sh <> [] /\ err = None /\
       exists opt', opt = Some opt' /\ fitness opt' = f /\ shape opt' = sh /\
                    options opt' = resolve GOMAXPROCS (length sh) o)
  | Panic _ => sh <> []
  end.
Proof.
  destruct (New _ _ _ _ _ _) as [[[opt err] w']|p] eqn:H.
  - unfold New in H. destruct sh as [|r sh].
    + mstep H. left. now repeat split.
    + mbind H as opt' Hr. mstep H. right.
      apply reset_options in Hr as (Ho & Hs & Hf).
      split; [discriminate|]. split; [reflexivity|]. now exists opt'.
  - unfold New in H. destruct sh; [discriminate | discriminate].
Qed.

(** X7: resolving options that are already resolved changes nothing: a
    default, once filled in, is a value like any other. *)
Theorem resolve_idempotent (GOMAXPROCS : Z) (dims : nat) (o : Options) :
  resolve GOMAXPROCS dims (resolve GOMAXPROCS dims o)
  = resolve GOMAXPROCS dims o.
Proof.
  unfold resolve. cbn [LocalSize PopulationSize Parallelism Bounds
    Constraints Inertia ParticleStep LocalStep GlobalStep StallLimit
    Verbose WaitMagnitude groupCount].
  set (L := if LocalSize o =? 0 then 25 else LocalSize o).
  assert ((if L =? 0 then 25 else L) = L) as ->.
  { subst L. destruct (LocalSize o =? 0) eqn:E; [reflexivity | now rewrite E]. }
  set (P := if PopulationSize o =? 0 then _ else PopulationSize o).
  assert ((if P =? 0
           then to_uint (to_uint (10 * L) * to_uint (Z.of_nat dims))
           else P) = P) as ->.
  { subst P. destruct (PopulationSize o =? 0) eqn:E.
    - destruct (to_uint _ =? 0); reflexivity.
    - now rewrite E. }
  assert (forall x d, F64.eqb d F64.zero = false ->
            (if F64.eqb (if F64.eqb x F64.zero then d else x) F64.zero
             then d else if F64.eqb x F64.zero then d else x)
            = (if F64.eqb x F64.zero then d else x)) as Hf.
  { intros x d Hd. destruct (F64.eqb x F64.zero) eqn:E;
      [now rewrite Hd | now rewrite E]. }
  rewrite !Hf by reflexivity.
  assert (forall x d : Z,
            (if (if x =? 0 then d else x) =? 0 then d
             else if x =? 0 then d else x)
            = (if x =? 0 then d else x)) as Hz.
  { intros x d. destruct (x =? 0) eqn:E;
      [now destruct (d =? 0) | now rewrite E]. }
  now rewrite !Hz.
Qed.

(** ** Steps that cannot succeed *)

Lemma upto_positive n : 0 < n -> upto n = 0%nat :: seq 1 (Z.to_nat n - 1).
Proof.
  intros H. unfold upto.
  replace (Z.to_nat n) with (S (Z.to_nat n - 1)) at 1 by lia. reflexivity.
Qed.

(** X8: an optimizer with at least one particle and [groupCount = 0] (a
    [PopulationSize] below [LocalSize]) cannot take a step: [Step] panics,
    in the evaluation or at the latest in the first turn of the update
    loop, which divides by zero. *)
Theorem Step_without_groups_panics
    (rand : nat -> float) (arrival : nat -> list nat)
    (opt : Optimizer) (w : World)
  (Hgroups : groupCount (options opt) = 0)
  (Hparticles : 0 < to_int (PopulationSize (options opt))) :
  exists p, Step rand arrival (Some opt) w = Panic p.
Proof.
  destruct (Step rand arrival (Some opt) w) as [[o' w']|p] eqn:H;
    [|now exists p].
  exfalso. apply Step_Some in H as (opt' & -> & H).
  unfold step in H. mbind H as o1 Hu.
  apply update_fitness_static in Hu as (_ & _ & Ho & _).
  unfold update_rule in H. rewrite Ho, (upto_positive _ Hparticles) in H.
  cbn [foldM] in H. mbind H as o2 Hm.
  unfold move_particle in Hm. mbind Hm as g Hg.
  unfold group_of in Hg. rewrite Ho, Hgroups in Hg. discriminate.
Qed.

Lemma Step_without_groups_panics_witness :
  match New Demo.rand Demo.GOMAXPROCS Demo.square Demo.line
          (Demo.with_limits [] [fun _ => false]
             (Demo.with_sizes 0 10 Demo.unset)) Demo.empty_world with
  | Ok (Some opt, _, w) =>
      exists p, Step Demo.rand (Demo.in_order 10) (Some opt) w = Panic p
  | _ => False
  end.
Proof.
  destruct (New _ _ _ _ _ _) as [[[[opt|] e] w]|q] eqn:HNew;
    [|vm_compute in HNew; discriminate HNew ..].
  apply Step_without_groups_panics;
    rewrite (New_options _ _ _ _ _ _ _ _ _ HNew); reflexivity.
Defined.

(** ** The average of a round without fitness *)

(** X9: when no particle of a round records a fitness, [Step] leaves the
    average fitness at [0 / 0], which is NaN. *)
Theorem average_of_barren_round_is_nan
    (rand : nat -> float) (arrival : nat -> list nat)
    (opt : Optimizer) (w : World) (opt' : Optimizer) (w' : World)
  (Hbarren : forall idx f, idx ∈ arrival (rounds w) ->
               getParticleFitness opt (heap w) idx <> Ok (Some f))
  (HStep : Step rand arrival (Some opt) w = Ok (Some opt', w')) :
  F64.is_nan (averageFitness opt') = true.
Proof.
  apply Step_Some in HStep as (o & [= <-] & HStep).
  unfold step in HStep. mbind HStep as o1 Hu.
  apply update_rule_frame in HStep as [v ->].
  unfold update_fitness in Hu.
  destruct (to_int _ <? 0); [discriminate|].
  destruct (_ && _); [discriminate|].
  mbind Hu as order Ho. mbind Hu as rs He. mbind Hu as acc Hc.
  destruct acc as [[o2 avg] count]. mstep Hu.
  unfold next_round in Ho. injection Ho as <- <-. cbn [heap] in He.
  apply (evaluate_barren _ _ _ _ Hbarren) in He.
  apply (collect_barren _ _ _ _ _ _ _ _ _ He) in Hc as (_ & -> & -> & _).
  reflexivity.
Qed.

Lemma average_of_barren_round_is_nan_witness :
  match New Demo.rand Demo.GOMAXPROCS Demo.square Demo.line
          (Demo.with_limits [] [fun _ => false]
             (Demo.with_sizes 2 4 Demo.unset)) Demo.empty_world with
  | Ok (Some opt, _, w) =>
      match Step Demo.rand (Demo.in_order 4) (Some opt) w with
      | Ok (Some opt', _) => F64.is_nan (averageFitness opt') = true
      | _ => False
      end
  | _ => False
  end.
Proof.
  destruct (New _ _ _ _ _ _) as [[[[opt|] e] w]|q] eqn:HNew;
    [|vm_compute in HNew; discriminate HNew ..].
  destruct (Step _ _ _ _) as [[[opt'|] w']|q] eqn:HStep.
  - refine (average_of_barren_round_is_nan _ _ opt w opt' w' _ HStep).
    intros idx f _ H. apply feasible_when_fitness in H
      as (p & position & _ & _ & _ & Hcs & _).
    rewrite (New_options _ _ _ _ _ _ _ _ _ HNew) in Hcs.
    specialize (Hcs _ (list_elem_of_here _ _)). discriminate Hcs.
  - vm_compute in HNew. injection HNew as <- _ <-.
    vm_compute in HStep. discriminate HStep.
  - vm_compute in HNew. injection HNew as <- _ <-.
    vm_compute in HStep. discriminate HStep.
Defined.

(** ** The personal-best slices over a whole run *)

Lemma run_static rand arrival n : forall opt w opt' w',
  run rand arrival n opt w = Ok (opt', w') -> same_static opt opt'.
Proof.
  induction n as [|n IH]; intros opt w opt' w' H; cbn [run] in H.
  - mstep H. reflexivity.
  - mbind H as o1 Hs. transitivity o1.
    + eapply step_static; eassumption.
    + eapply IH; eassumption.
Qed.

(** X10: from [New] on and after any number of steps, the personal-best
    slice of every particle is the very slice of its position: the two
    fields of the optimizer hold the same slice headers. *)
Theorem personal_best_slices_stay_position_slices
    (rand : nat -> float) (arrival : nat -> list nat) (GOMAXPROCS : Z)
    f sh o w opt e w0 (n : nat) opt' w'
  (HNew : New rand GOMAXPROCS f sh o w = Ok (Some opt, e, w0))
  (HRun : run rand arrival n opt w0 = Ok (opt', w')) :
  particleBestPosition opt' = positions opt'.
Proof.
  unfold New in HNew. destruct sh; [discriminate|].
  mbind HNew as o1 Hr. mstep HNew.
  apply reset_aliases in Hr.
  apply run_static in HRun as (_ & _ & _ & -> & -> & _). exact Hr.
Qed.

Lemma personal_best_slices_stay_position_slices_witness :
  match New Demo.rand Demo.GOMAXPROCS Demo.square Demo.line
          (Demo.with_sizes 2 4 Demo.unset) Demo.empty_world with
  | Ok (Some opt, _, w0) =>
      match run Demo.rand (Demo.in_order 4) 3 opt w0 with
      | Ok (opt', _) => particleBestPosition opt' = positions opt'
      | Panic _ => False
      end
  | _ => False
  end.
Proof.
  destruct (New _ _ _ _ _ _) as [[[[opt|] e] w0]|p] eqn:HNew;
    [|vm_compute in HNew; discriminate HNew ..].
  destruct (run _ _ _ _ _) as [[opt' w']|p] eqn:HRun.
  - exact (personal_best_slices_stay_position_slices
             _ _ _ _ _ _ _ _ _ _ _ _ _ HNew HRun).
  - vm_compute in HNew. injection HNew as <- _ <-.
    vm_compute in HRun. discriminate HRun.
Defined.

(** ** Runs that succeed: the primitives *)

#[local] Instance shapes_kept_refl : Reflexive shapes_kept.
Proof. intros w l v H. now exists v. Qed.

#[local] Instance shapes_kept_trans : Transitive shapes_kept.
Proof.
  intros w1 w2 w3 H12 H23 l v H.
  destruct (H12 l v H) as (v2 & H2 & L2).
  destruct (H23 l v2 H2) as (v3 & H3 & L3).
  exists v3. split; [exact H3 | congruence].
Qed.

Lemma has_array_kept dims w w' l :
  shapes_kept w w' -> has_array dims w l -> has_array dims w' l.
Proof.
  intros Hk (v & Hv & Hl). destruct (Hk l v Hv) as (v' & Hv' & Hl').
  exists v'. split; [exact Hv' | congruence].
Qed.

Lemma Forall_has_array_kept dims w w' ls :
  shapes_kept w w' -> Forall (has_array dims w) ls ->
  Forall (has_array dims w') ls.
Proof.
  intros Hk H. eapply Forall_impl; [exact H|].
  intros l. now apply has_array_kept.
Qed.

Lemma bind_run {A B} (c : M A) (k : A -> M B) w a w1 :
  c w = Ok (a, w1) -> bind c k w = k a w1.
Proof. unfold bind. now intros ->. Qed.

Lemma shapes_kept_store w l v v' :
  heap w !! l = Some v -> length v' = length v ->
  shapes_kept w (mkWorld (<[l := v']> (heap w)) (draws w) (rounds w)).
Proof.
  intros Hv Hl q u Hu. cbn [heap].
  destruct (decide (q = l)) as [->|Hne].
  - exists v'. rewrite list_lookup_insert_eq
      by (eapply lookup_lt_Some; eassumption).
    split; [reflexivity | congruence].
  - exists u. rewrite list_lookup_insert_ne by congruence. now split.
Qed.

Lemma alloc_total v w :
  exists w',
    alloc v w = Ok (length (heap w), w') /\
    shapes_kept w w' /\ has_array (length v) w' (length (heap w)) /\
    draws w' = draws w /\ rounds w' = rounds w.
Proof.
  eexists. split; [reflexivity|]. split; [|split; [|now split]].
  - intros l u Hu. exists u. cbn [heap].
    split; [now apply lookup_app_l_Some | reflexivity].
  - exists v. cbn [heap]. split; [|reflexivity].
    now apply list_lookup_middle.
Qed.

Lemma poke_total dims w l i x :
  has_array dims w l -> (i < dims)%nat ->
  exists w',
    poke l i x w = Ok (tt, w') /\ shapes_kept w w' /\
    draws w' = draws w /\ rounds w' = rounds w.
Proof.
  intros (v & Hv & Hl) Hi. unfold poke.
  rewrite (bind_run _ _ w v w) by (unfold load; now rewrite Hv).
  assert (assign v i x = Ok (<[i := x]> v)) as Ha.
  { unfold assign. destruct (i <? length v)%nat eqn:E; [reflexivity|].
    apply Nat.ltb_ge in E. lia. }
  rewrite (bind_run _ _ w (<[i := x]> v) w) by (unfold lift; now rewrite Ha).
  eexists. split; [reflexivity|]. cbn. repeat split.
  eapply shapes_kept_store; [exact Hv | apply length_insert].
Qed.

Lemma copied_length {A} (dst src : list A) :
  length (copied dst src) = length dst.
Proof. unfold copied. rewrite length_app, length_take, length_drop. lia. Qed.

Lemma copy_slice_total d s w dst src :
  has_array d w dst -> has_array s w src ->
  exists w',
    copy_slice dst src w = Ok (tt, w') /\ shapes_kept w w' /\
    draws w' = draws w /\ rounds w' = rounds w.
Proof.
  intros (vd & Hd & Ld) (vs & Hs & Ls). unfold copy_slice.
  rewrite (bind_run _ _ w vs w) by (unfold load; now rewrite Hs).
  rewrite (bind_run _ _ w vd w) by (unfold load; now rewrite Hd).
  eexists. split; [reflexivity|]. cbn. repeat split.
  eapply shapes_kept_store; [exact Hd | apply copied_length].
Qed.

(** A loop succeeds when every turn does, under an invariant indexed by
    the elements already visited. *)
Lemma foldM_total {A S} (f : S -> A -> M S)
    (I : list A -> S -> World -> Prop) (P : A -> Prop) :
  (forall pre a s w,
      I pre s w -> P a ->
      exists s' w', f s a w = Ok (s', w') /\ I (pre ++ [a]) s' w') ->
  forall l pre s w,
    Forall P l -> I pre s w ->
    exists s' w', foldM f l s w = Ok (s', w') /\ I (pre ++ l) s' w'.
Proof.
  intros Hbody l. induction l as [|a l IH]; intros pre s w HP HI.
  - exists s, w. split; [reflexivity | now rewrite app_nil_r].
  - apply Forall_cons in HP as [Ha HP].
    destruct (Hbody pre a s w HI Ha) as (s1 & w1 & Hf & HI1).
    destruct (IH (pre ++ [a]) s1 w1 HP HI1) as (s2 & w2 & Hl & HI2).
    exists s2, w2. split.
    + cbn [foldM]. now rewrite (bind_run _ _ _ _ _ Hf).
    + now rewrite <- app_assoc in HI2.
Qed.

(** ** Runs that succeed: [Reset] *)

Lemma shapes_kept_length w w' :
  shapes_kept w w' -> (length (heap w) <= length (heap w'))%nat.
Proof.
  intros Hk. destruct (length (heap w)) as [|k] eqn:E; [lia|].
  destruct (lookup_lt_is_Some_2 (heap w) k ltac:(lia)) as [v Hv].
  destruct (Hk k v Hv) as (v' & Hv' & _).
  apply lookup_lt_Some in Hv'. lia.
Qed.

Lemma has_array_below dims w l :
  has_array dims w l -> (l < length (heap w))%nat.
Proof. intros (v & Hv & _). now apply lookup_lt_Some in Hv. Qed.

Lemma has_array_heap dims w w' l :
  heap w' = heap w -> has_array dims w l -> has_array dims w' l.
Proof. intros Hh (v & Hv & Hl). exists v. now rewrite Hh. Qed.

Lemma shapes_kept_heap w w' : heap w' = heap w -> shapes_kept w w'.
Proof. intros Hh l v Hv. exists v. now rewrite Hh. Qed.

Lemma index_run {A} (a : list A) i :
  (i < length a)%nat -> exists x, a !! i = Some x /\ index a i = Ok x.
Proof.
  intros H. destruct (lookup_lt_is_Some_2 a i H) as [x Hx].
  exists x. split; [exact Hx|]. unfold index. now rewrite Hx.
Qed.

Lemma lift_run {A} (r : result A) (a : A) w :
  r = Ok a -> lift r w = Ok (a, w).
Proof. now intros ->. Qed.

Lemma load_run l w v : heap w !! l = Some v -> load l w = Ok (v, w).
Proof. unfold load. now intros ->. Qed.

Section ResetSucceeds.
Variable rand : nat -> float.

Lemma new_particles_total dims order w :
  exists pos best w',
    foldM (new_particle dims) order ([], []) w = Ok ((pos, best), w') /\
    length pos = length order /\ length best = length order /\
    Forall (has_array dims w') pos /\ Forall (has_array dims w') best /\
    shapes_kept w w' /\ draws w' = draws w /\ rounds w' = rounds w.
Proof.
  edestruct (foldM_total (new_particle dims)
    (fun pre acc w1 =>
       length (fst acc) = length pre /\ length (snd acc) = length pre /\
       Forall (has_array dims w1) (fst acc) /\
       Forall (has_array dims w1) (snd acc) /\
       shapes_kept w w1 /\ draws w1 = draws w /\ rounds w1 = rounds w)
    (fun _ => True)) with (l := order) (pre := @nil nat)
    (s := (@nil loc, @nil loc)) (w := w)
    as ([pos best] & w' & H & HI).
  - intros pre i [pos best] w1 (Hp & Hb & Fp & Fb & Hk & Hd & Hr) _.
    cbn [fst snd] in *. unfold new_particle.
    destruct (alloc_total (zeros dims) w1) as (w2 & Ha & Hk2 & Hz2 & Hd2 & Hr2).
    destruct (alloc_total (zeros dims) w2) as (w3 & Hb3 & Hk3 & Hz3 & Hd3 & Hr3).
    unfold zeros in Hz2, Hz3. rewrite repeat_length in Hz2, Hz3.
    rewrite (bind_run _ _ _ _ _ Ha), (bind_run _ _ _ _ _ Hb3).
    eexists _, w3. split; [reflexivity|]. cbn [fst snd].
    rewrite !length_app. cbn [length].
    split; [lia|]. split; [lia|].
    assert (shapes_kept w1 w3) as Hk13 by (etransitivity; eassumption).
    split; [|split; [|split; [|split; congruence]]].
    + apply Forall_app. split.
      * exact (Forall_has_array_kept _ _ _ _ Hk13 Fp).
      * constructor; [|constructor].
        exact (has_array_kept _ _ _ _ Hk3 Hz2).
    + apply Forall_app. split.
      * exact (Forall_has_array_kept _ _ _ _ Hk13 Fb).
      * constructor; [exact Hz3 | constructor].
    + etransitivity; eassumption.
  - apply Forall_forall. intros; exact I.
  - cbn. split; [reflexivity|]. split; [reflexivity|].
    split; [constructor|]. split; [constructor|].
    split; [reflexivity|]. now split.
  - exists pos, best, w'. cbn [fst snd app] in HI.
    destruct HI as (Hp & Hb & Fp & Fb & Hk & Hd & Hr).
    now repeat split.
Qed.

Lemma draw_coordinate_total dims j r pos vel i w :
  (i < length pos)%nat -> (i < length vel)%nat -> (j < dims)%nat ->
  Forall (has_array dims w) pos ->
  Forall (fun v => length v = dims) vel ->
  exists vel' w',
    draw_coordinate rand j r (pos, vel) i w = Ok ((pos, vel'), w') /\
    length vel' = length vel /\
    Forall (fun v => length v = dims) vel' /\
    shapes_kept w w' /\ draws w' = (draws w + 2)%nat /\
    rounds w' = rounds w.
Proof.
  intros Hi Hi' Hj Fp Fv. unfold draw_coordinate.
  destruct (index_run pos i Hi) as (p & Hp & Hpi).
  destruct (index_run vel i Hi') as (vi & Hvi & Hvii).
  rewrite (bind_run _ _ _ _ _ (lift_run _ _ w Hpi)).
  rewrite (bind_run _ _ w (rand (draws w))
             (mkWorld (heap w) (S (draws w)) (rounds w))) by reflexivity.
  set (w1 := mkWorld (heap w) (S (draws w)) (rounds w)).
  assert (has_array dims w1 p) as Hp1.
  { apply (has_array_heap dims w); [reflexivity|].
    exact (Forall_lookup_1 _ _ _ _ Fp Hp). }
  destruct (poke_total dims w1 p j
              (fadd (lower r) (fmul (fsub (upper r) (lower r))
                                 (rand (draws w)))) Hp1 Hj)
    as (w2 & Hpoke & Hk2 & Hd2 & Hr2).
  rewrite (bind_run _ _ _ _ _ Hpoke).
  rewrite (bind_run _ _ _ _ _ (lift_run _ _ w2 Hvii)).
  rewrite (bind_run _ _ w2 (rand (draws w2))
             (mkWorld (heap w2) (S (draws w2)) (rounds w2))) by reflexivity.
  assert (length vi = dims) as Lvi
    by exact (Forall_lookup_1 _ _ _ _ Fv Hvi).
  assert (forall x, assign vi j x = Ok (<[j := x]> vi)) as Ha.
  { intros x. unfold assign. destruct (j <? length vi)%nat eqn:E;
      [reflexivity|]. apply Nat.ltb_ge in E. lia. }
  erewrite bind_run by (apply lift_run, Ha).
  eexists _, _. split; [reflexivity|].
  split; [apply length_insert|]. split; [|split; [|split]].
  - apply Forall_insert; [exact Fv | now rewrite length_insert].
  - intros l v Hv. destruct (Hk2 l v Hv) as (v' & Hv' & Hl').
    now exists v'.
  - cbn [draws]. rewrite Hd2. subst w1. cbn [draws]. lia.
  - cbn [rounds]. rewrite Hr2. reflexivity.
Qed.

Lemma upto_below n : Forall (fun i => (i < Z.to_nat n)%nat) (upto n).
Proof.
  apply Forall_forall. intros i Hi. unfold upto in Hi.
  apply elem_of_seq in Hi. lia.
Qed.

Lemma draw_row_total dims j r n pos vel w :
  length pos = n -> length vel = n -> (j < dims)%nat ->
  Forall (has_array dims w) pos ->
  Forall (fun v => length v = dims) vel ->
  exists vel' w',
    foldM (draw_coordinate rand j r) (seq 0 n) (pos, vel) w
      = Ok ((pos, vel'), w') /\
    length vel' = n /\
    Forall (fun v => length v = dims) vel' /\
    shapes_kept w w' /\ draws w' = (draws w + 2 * n)%nat /\
    rounds w' = rounds w.
Proof.
  intros Lp Lv Hj Fp Fv.
  edestruct (foldM_total (draw_coordinate rand j r)
    (fun pre acc w1 =>
       fst acc = pos /\ length (snd acc) = n /\
       Forall (fun v => length v = dims) (snd acc) /\
       shapes_kept w w1 /\ draws w1 = (draws w + 2 * length pre)%nat /\
       rounds w1 = rounds w)
    (fun i => (i < n)%nat)) with (l := seq 0 n) (pre := @nil nat)
    (s := (pos, vel)) (w := w)
    as ([pos' vel'] & w' & H & HI).
  - intros pre i [pos1 vel1] w1 (E & Lv1 & Fv1 & Hk & Hd & Hr) Hi.
    cbn [fst snd] in *. subst pos1.
    destruct (draw_coordinate_total dims j r pos vel1 i w1)
      as (vel2 & w2 & Hc & Lv2 & Fv2 & Hk2 & Hd2 & Hr2);
      [lia | lia | exact Hj | exact (Forall_has_array_kept _ _ _ _ Hk Fp)
       | exact Fv1 |].
    exists (pos, vel2), w2. split; [exact Hc|]. cbn [fst snd].
    rewrite length_app. cbn [length].
    split; [reflexivity|]. split; [lia|]. split; [exact Fv2|].
    split; [etransitivity; eassumption|]. split; [lia | congruence].
  - apply Forall_forall. intros i Hi. apply elem_of_seq in Hi. lia.
  - cbn. split; [reflexivity|]. split; [exact Lv|]. split; [exact Fv|].
    split; [reflexivity|]. split; [lia | reflexivity].
  - cbn [fst snd app] in HI. destruct HI as (E & Lv' & Fv' & Hk & Hd & Hr).
    subst pos'. exists vel', w'. rewrite length_seq in Hd. now repeat split.
Qed.

Lemma draw_all_total dims n pos (population : Z) :
  Z.to_nat population = n -> length pos = n ->
  forall rs j vel w,
    (j + length rs <= dims)%nat -> length vel = n ->
    Forall (has_array dims w) pos ->
    Forall (fun v => length v = dims) vel ->
    exists vel' w',
      draw_all rand population j rs (pos, vel) w = Ok ((pos, vel'), w') /\
      length vel' = n /\
      Forall (fun v => length v = dims) vel' /\
      shapes_kept w w' /\
      draws w' = (draws w + 2 * n * length rs)%nat /\
      rounds w' = rounds w.
Proof.
  intros Hn Lp rs. induction rs as [|r rs IH]; intros j vel w Hj Lv Fp Fv.
  - exists vel, w. cbn. split; [reflexivity|]. split; [exact Lv|].
    split; [exact Fv|]. split; [reflexivity|]. split; [lia | reflexivity].
  - cbn [draw_all length] in *. unfold upto. rewrite Hn.
    destruct (draw_row_total dims j r n pos vel w Lp Lv ltac:(lia) Fp Fv)
      as (vel1 & w1 & Hrow & Lv1 & Fv1 & Hk1 & Hd1 & Hr1).
    rewrite (bind_run _ _ _ _ _ Hrow).
    destruct (IH (S j) vel1 w1 ltac:(lia) Lv1
                (Forall_has_array_kept _ _ _ _ Hk1 Fp) Fv1)
      as (vel2 & w2 & Hrest & Lv2 & Fv2 & Hk2 & Hd2 & Hr2).
    exists vel2, w2. split; [exact Hrest|]. split; [exact Lv2|].
    split; [exact Fv2|]. split; [etransitivity; eassumption|].
    split; [lia | congruence].
Qed.

Lemma new_group_total dims localSize pos acc i w :
  Forall (has_array dims w) pos ->
  0 <= to_int (Z.of_nat i * to_int localSize) < Z.of_nat (length pos) ->
  exists l w',
    new_group dims localSize pos acc i w = Ok (acc ++ [l], w') /\
    has_array dims w' l /\ shapes_kept w w' /\
    draws w' = draws w /\ rounds w' = rounds w /\
    (length (heap w) <= l)%nat.
Proof.
  intros Fp Hidx. unfold new_group.
  destruct (alloc_total (zeros dims) w) as (w1 & Ha & Hk1 & Hz1 & Hd1 & Hr1).
  unfold zeros in Hz1. rewrite repeat_length in Hz1.
  rewrite (bind_run _ _ _ _ _ Ha).
  set (idx := to_int (Z.of_nat i * to_int localSize)) in *.
  destruct (index_run pos (Z.to_nat idx) ltac:(lia)) as (src & Hsrc & Hsi).
  assert (indexZ pos idx = Ok src) as Hz.
  { unfold indexZ. destruct (idx <? 0) eqn:E; [|exact Hsi].
    apply Z.ltb_lt in E. lia. }
  rewrite (bind_run _ _ _ _ _ (lift_run _ _ w1 Hz)).
  assert (has_array dims w1 src) as Hs1.
  { apply (has_array_kept dims w); [exact Hk1|].
    exact (Forall_lookup_1 _ _ _ _ Fp Hsrc). }
  destruct (copy_slice_total dims dims w1 (length (heap w)) src Hz1 Hs1)
    as (w2 & Hc & Hk2 & Hd2 & Hr2).
  rewrite (bind_run _ _ _ _ _ Hc).
  exists (length (heap w)), w2. split; [reflexivity|].
  split; [exact (has_array_kept _ _ _ _ Hk2 Hz1)|].
  split; [etransitivity; eassumption|].
  split; [congruence|]. split; [congruence | lia].
Qed.

Lemma new_groups_total dims localSize pos (count : Z) w :
  Forall (has_array dims w) pos ->
  (forall i : nat,
      Z.of_nat i < count ->
      0 <= to_int (Z.of_nat i * to_int localSize) < Z.of_nat (length pos)) ->
  exists lbest w',
    foldM (new_group dims localSize pos) (upto count) [] w
      = Ok (lbest, w') /\
    length lbest = Z.to_nat count /\
    Forall (has_array dims w') lbest /\ shapes_kept w w' /\
    draws w' = draws w /\ rounds w' = rounds w /\
    Forall (fun l => (length (heap w) <= l)%nat) lbest.
Proof.
  intros Fp Hfit.
  edestruct (foldM_total (new_group dims localSize pos)
    (fun pre acc w1 =>
       length acc = length pre /\ Forall (has_array dims w1) acc /\
       shapes_kept w w1 /\ draws w1 = draws w /\ rounds w1 = rounds w /\
       Forall (fun l => (length (heap w) <= l)%nat) acc)
    (fun i => Z.of_nat i < count)) with (l := upto count) (pre := @nil nat)
    (s := @nil loc) (w := w)
    as (lbest & w' & H & HI).
  - intros pre i acc w1 (La & Fa & Hk & Hd & Hr & Hfr) Hi.
    destruct (new_group_total dims localSize pos acc i w1
                (Forall_has_array_kept _ _ _ _ Hk Fp) (Hfit i Hi))
      as (l & w2 & Hg & Hl & Hk2 & Hd2 & Hr2 & Hfr2).
    exists (acc ++ [l]), w2. split; [exact Hg|].
    rewrite !length_app. cbn [length]. split; [lia|].
    split; [|split; [etransitivity; eassumption |
                     split; [congruence | split; [congruence|]]]].
    + apply Forall_app. split.
      * exact (Forall_has_array_kept _ _ _ _ Hk2 Fa).
      * constructor; [exact Hl | constructor].
    + apply Forall_app. split; [exact Hfr|].
      constructor; [|constructor].
      pose proof (shapes_kept_length _ _ Hk). lia.
  - eapply Forall_impl; [apply upto_below|]. cbn. intros i Hi. lia.
  - cbn. split; [reflexivity|]. split; [constructor|].
    split; [reflexivity|]. split; [reflexivity|]. split; [reflexivity|].
    constructor.
  - cbn [app] in HI. destruct HI as (La & Fa & Hk & Hd & Hr & Hfr).
    exists lbest, w'. unfold upto in La. rewrite length_seq in La.
    now repeat split.
Qed.

Lemma copied_same_length {A} (dst src : list A) :
  length dst = length src -> copied dst src = src.
Proof.
  intros H. unfold copied. rewrite H, take_ge, drop_ge by lia.
  apply app_nil_r.
Qed.

(** [Reset] succeeds on an optimizer with a particle, and lays it out. *)
Lemma reset_total opt w :
  0 < to_int (PopulationSize (options opt)) ->
  0 <= groupCount (options opt) < 2 ^ 63 ->
  groups_fit (options opt) ->
  exists opt' w',
    reset rand opt w = Ok (opt', w') /\
    laid_out opt' w' /\ shapes_kept w w' /\
    draws w' =
      (draws w + 2 * Z.to_nat (to_int (PopulationSize (options opt)))
                   * length (shape opt))%nat /\
    rounds w' = rounds w /\
    options opt' = options opt /\ shape opt' = shape opt /\
    fitness opt' = fitness opt /\
    stallCount opt' =
      repeat 0 (Z.to_nat (to_int (PopulationSize (options opt)))) /\
    arrays_apart opt' /\ globalBestFitness opt' = F64.MaxFloat64.
Proof.
  intros HP HG Hfit. unfold reset.
  set (o := options opt) in *. set (dims := length (shape opt)).
  set (n := Z.to_nat (to_int (PopulationSize o))).
  assert (make_len (PopulationSize o) = Ok n) as Hmk.
  { unfold make_len. destruct (to_int (PopulationSize o) <? 0) eqn:E;
      [apply Z.ltb_lt in E; lia | reflexivity]. }
  rewrite (bind_run _ _ _ _ _ (lift_run _ _ w Hmk)).
  destruct (new_particles_total dims (upto (to_int (PopulationSize o))) w)
    as (pos & best0 & w1 & H1 & Lp & Lb & Fp1 & Fb1 & Hk1 & Hd1 & Hr1).
  unfold upto in Lp, Lb. rewrite length_seq in Lp, Lb. fold n in Lp, Lb.
  rewrite (bind_run _ _ _ _ _ H1).
  destruct (draw_all_total dims n pos (to_int (PopulationSize o)) eq_refl Lp
              (shape opt) 0%nat (repeat (zeros dims) n) w1)
    as (vel & w2 & H2 & Lv & Fv & Hk2 & Hd2 & Hr2).
  { fold dims. lia. }
  { apply repeat_length. }
  { exact Fp1. }
  { apply Forall_forall. intros v Hv.
    apply list_elem_of_In, repeat_spec in Hv. subst v.
    apply repeat_length. }
  rewrite (bind_run _ _ _ _ _ H2).
  rewrite (copied_same_length best0 pos) by congruence.
  assert (make_len (groupCount o) = Ok (Z.to_nat (groupCount o))) as Hmg.
  { unfold make_len. rewrite to_int_small by lia.
    destruct (groupCount o <? 0) eqn:E;
      [apply Z.ltb_lt in E; lia | reflexivity]. }
  rewrite (bind_run _ _ _ _ _ (lift_run _ _ w2 Hmg)).
  assert (Forall (has_array dims w2) pos) as Fp2
    by exact (Forall_has_array_kept _ _ _ _ Hk2 Fp1).
  destruct (new_groups_total dims (LocalSize o) pos (groupCount o) w2 Fp2)
    as (lbest & w3 & H3 & Ll & Fl & Hk3 & Hd3 & Hr3 & Hfr3).
  { intros i Hi. rewrite Lp. subst n. rewrite Z2Nat.id by lia.
    exact (Hfit i Hi). }
  rewrite (bind_run _ _ _ _ _ H3).
  destruct (alloc_total (zeros dims) w3) as (w4 & H4 & Hk4 & Hz4 & Hd4 & Hr4).
  unfold zeros in Hz4. rewrite repeat_length in Hz4.
  rewrite (bind_run _ _ _ _ _ H4).
  destruct (index_run pos 0%nat ltac:(lia)) as (p0 & Hp0 & Hp0i).
  rewrite (bind_run _ _ _ _ _ (lift_run _ _ w4 Hp0i)).
  assert (shapes_kept w2 w4) as Hk24 by (etransitivity; eassumption).
  assert (has_array dims w4 p0) as Hp04.
  { apply (has_array_kept dims w2); [exact Hk24|].
    exact (Forall_lookup_1 _ _ _ _ Fp2 Hp0). }
  destruct (copy_slice_total dims dims w4 (length (heap w3)) p0 Hz4 Hp04)
    as (w5 & H5 & Hk5 & Hd5 & Hr5).
  rewrite (bind_run _ _ _ _ _ H5).
  assert (shapes_kept w2 w5) as Hk25 by (etransitivity; eassumption).
  assert (shapes_kept w3 w5) as Hk35 by (etransitivity; eassumption).
  eexists _, w5. split; [reflexivity|].
  split; [|split; [|split; [|split]]].
  - unfold laid_out. cbn. fold o n dims.
    rewrite !repeat_length.
    repeat split; try assumption; try reflexivity.
    + exact (Forall_has_array_kept _ _ _ _ Hk25 Fp2).
    + exact (Forall_has_array_kept _ _ _ _ Hk25 Fp2).
    + exact (Forall_has_array_kept _ _ _ _ Hk35 Fl).
    + exact (has_array_kept _ _ _ _ Hk5 Hz4).
  - transitivity w1; [exact Hk1|]. transitivity w2; [exact Hk2 | exact Hk25].
  - rewrite Hd5, Hd4, Hd3, Hd2, Hd1. fold dims. lia.
  - congruence.
  - cbn. do 4 (split; [reflexivity|]). split; [|reflexivity].
    assert (forall p, p ∈ pos -> (p < length (heap w2))%nat) as Hpos.
    { intros p Hp. rewrite Forall_forall in Fp2.
      exact (has_array_below _ _ _ (Fp2 p Hp)). }
    pose proof (shapes_kept_length _ _ Hk3) as Hlen.
    unfold arrays_apart. cbn. split; [reflexivity|]. split.
    + intros l Hl. rewrite Forall_forall in Hfr3, Fl.
      pose proof (Hfr3 l Hl). pose proof (has_array_below _ _ _ (Fl l Hl)).
      split; [|lia]. intros Hin. apply Hpos in Hin. lia.
    + intros Hin. apply Hpos in Hin. lia.
Qed.

End ResetSucceeds.

(** ** Runs that succeed: [Step] *)

Lemma sub_total u v :
  (length u <= length v)%nat ->
  exists r, sub u v = Ok r /\ length r = length u.
Proof.
  intros H. destruct (sub u v) as [r|p] eqn:E.
  - exists r. split; [reflexivity|]. now apply sub_Ok in E as (-> & _).
  - apply sub_Panic in E as [_ E]. lia.
Qed.

Lemma sum_total v0 rest :
  Forall (fun v => (length v <= length v0)%nat) rest ->
  exists r, sum (v0 :: rest) = Ok r /\ length r = length v0.
Proof.
  intros H. unfold sum. cbn [index lookup list_lookup rbind].
  destruct (sum_into _ _) as [r|p] eqn:E.
  - exists r. split; [reflexivity|].
    apply sum_into_Ok in E as (-> & _). apply repeat_length.
  - apply sum_into_Panic in E as [_ E]. unfold zeros in E.
    rewrite repeat_length in E. apply Exists_cons in E as [E|E]; [lia|].
    apply Exists_exists in E as (v & Hv & Hlt).
    rewrite Forall_forall in H. specialize (H v Hv). lia.
Qed.

Lemma scale_length v s : length (scale v s) = length v.
Proof. unfold scale. apply length_map. Qed.

Lemma clip_into_total dims p np bs : forall i w,
  has_array dims w p -> (i + length bs <= dims)%nat ->
  (i + length bs <= length np)%nat ->
  exists w',
    clip_into p np bs i w = Ok (tt, w') /\ shapes_kept w w' /\
    draws w' = draws w /\ rounds w' = rounds w.
Proof.
  induction bs as [|b bs IH]; intros i w Hp Hd Hn.
  - exists w. now repeat split.
  - cbn [clip_into length] in *.
    destruct (index_run np i ltac:(lia)) as (x & Hx & Hxi).
    rewrite (bind_run _ _ _ _ _ (lift_run _ _ w Hxi)).
    destruct (poke_total dims w p i (Clip b x) Hp ltac:(lia))
      as (w1 & Hpoke & Hk1 & Hd1 & Hr1).
    rewrite (bind_run _ _ _ _ _ Hpoke).
    destruct (IH (S i) w1 (has_array_kept _ _ _ _ Hk1 Hp)
                ltac:(lia) ltac:(lia))
      as (w2 & Hc & Hk2 & Hd2 & Hr2).
    exists w2. split; [exact Hc|].
    split; [etransitivity; eassumption | split; congruence].
Qed.

(** The layout does not depend on the contents of the arrays, nor on the
    values of the bests, the velocities and the stall counts. *)
Lemma laid_out_kept opt w opt' w' :
  laid_out opt w -> shapes_kept w w' -> same_static opt opt' ->
  length (velocities opt') = length (velocities opt) ->
  Forall (fun v => length v = length (shape opt)) (velocities opt') ->
  length (stallCount opt') = length (stallCount opt) ->
  length (particleBestFitness opt') = length (particleBestFitness opt) ->
  length (localBestFitness opt') = length (localBestFitness opt) ->
  laid_out opt' w'.
Proof.
  intros (H1 & H2 & H3 & H4 & H5 & H6 & H7 & H8 & H9 & H10 & H11 & H12)
    Hk (S1 & S2 & S3 & S4 & S5 & S6 & S7) Lv Fv Ls Lp Ll.
  unfold laid_out. rewrite S2, S3, S4, S5, S6, S7, Lv, Ls, Lp, Ll.
  repeat split; try assumption;
    try (eapply Forall_has_array_kept; eassumption).
  eapply has_array_kept; eassumption.
Qed.

(** The layout after a change of values only. *)
Ltac layout_after Hlay Hk :=
  eapply laid_out_kept;
  [ exact Hlay | exact Hk | now repeat split | .. ];
  cbn; rewrite ?length_insert; try reflexivity; try apply Hlay.

Section StepSucceeds.
Variable rand : nat -> float.
Variable arrival : nat -> list nat.

Lemma group_of_total opt idx :
  0 < groupCount (options opt) ->
  exists g, group_of opt idx = Ok g /\ 0 <= g < groupCount (options opt).
Proof.
  intros HG. unfold group_of.
  destruct (groupCount (options opt) =? 0) eqn:E;
    [apply Z.eqb_eq in E; lia|].
  eexists. split; [reflexivity|]. apply Z.rem_bound_pos; lia.
Qed.

Lemma indexZ_run {A} (a : list A) (i : Z) :
  0 <= i -> (Z.to_nat i < length a)%nat ->
  exists x, a !! Z.to_nat i = Some x /\ indexZ a i = Ok x.
Proof.
  intros H0 H. destruct (index_run a (Z.to_nat i) H) as (x & Hx & Hxi).
  exists x. split; [exact Hx|]. unfold indexZ.
  destruct (i <? 0) eqn:E; [apply Z.ltb_lt in E; lia | exact Hxi].
Qed.

Lemma improve_particle_total idx f opt w :
  laid_out opt w ->
  (idx < Z.to_nat (to_int (PopulationSize (options opt))))%nat ->
  exists opt' w',
    improve_particle idx f opt w = Ok (opt', w') /\
    laid_out opt' w' /\ shapes_kept w w' /\ draws w' = draws w.
Proof.
  intros Hlay Hidx. pose proof Hlay as
    (H1 & H2 & H3 & H4 & H5 & H6 & H7 & H8 & H9 & H10 & H11 & H12).
  unfold improve_particle.
  destruct (index_run (particleBestFitness opt) idx ltac:(lia))
    as (best & Hb & Hbi).
  rewrite (bind_run _ _ _ _ _ (lift_run _ _ w Hbi)).
  destruct (F64.ltb f best).
  - destruct (index_run (particleBestPosition opt) idx ltac:(lia))
      as (dst & Hd & Hdi).
    destruct (index_run (positions opt) idx ltac:(lia)) as (src & Hs & Hsi).
    rewrite (bind_run _ _ _ _ _ (lift_run _ _ w Hdi)).
    rewrite (bind_run _ _ _ _ _ (lift_run _ _ w Hsi)).
    destruct (copy_slice_total _ _ w dst src
                (Forall_lookup_1 _ _ _ _ H10 Hd)
                (Forall_lookup_1 _ _ _ _ H9 Hs))
      as (w1 & Hc & Hk & Hdr & _).
    rewrite (bind_run _ _ _ _ _ Hc).
    eexists _, w1. split; [reflexivity|]. split; [|now split].
    layout_after Hlay Hk.
  - exists opt, w. split; [reflexivity|]. split; [exact Hlay | now split].
Qed.

Lemma improve_group_total idx f opt w :
  laid_out opt w -> 0 < groupCount (options opt) ->
  (idx < Z.to_nat (to_int (PopulationSize (options opt))))%nat ->
  exists opt' w',
    improve_group idx f opt w = Ok (opt', w') /\
    laid_out opt' w' /\ shapes_kept w w' /\ draws w' = draws w.
Proof.
  intros Hlay HG Hidx. pose proof Hlay as
    (H1 & H2 & H3 & H4 & H5 & H6 & H7 & H8 & H9 & H10 & H11 & H12).
  unfold improve_group.
  destruct (group_of_total opt idx HG) as (g & Hg & Hgb).
  rewrite (bind_run _ _ _ _ _ (lift_run _ _ w Hg)).
  destruct (indexZ_run (localBestFitness opt) g ltac:(lia) ltac:(lia))
    as (best & Hb & Hbi).
  rewrite (bind_run _ _ _ _ _ (lift_run _ _ w Hbi)).
  destruct (F64.ltb f best).
  - destruct (indexZ_run (localBestPosition opt) g ltac:(lia) ltac:(lia))
      as (dst & Hd & Hdi).
    destruct (index_run (positions opt) idx ltac:(lia)) as (src & Hs & Hsi).
    rewrite (bind_run _ _ _ _ _ (lift_run _ _ w Hdi)).
    rewrite (bind_run _ _ _ _ _ (lift_run _ _ w Hsi)).
    destruct (copy_slice_total _ _ w dst src
                (Forall_lookup_1 _ _ _ _ H11 Hd)
                (Forall_lookup_1 _ _ _ _ H9 Hs))
      as (w1 & Hc & Hk & Hdr & _).
    rewrite (bind_run _ _ _ _ _ Hc).
    eexists _, w1. split; [reflexivity|]. split; [|now split].
    layout_after Hlay Hk.
  - exists opt, w. split; [reflexivity|]. split; [exact Hlay | now split].
Qed.

Lemma improve_global_total idx f opt w :
  laid_out opt w ->
  (idx < Z.to_nat (to_int (PopulationSize (options opt))))%nat ->
  exists opt' w',
    improve_global idx f opt w = Ok (opt', w') /\
    laid_out opt' w' /\ shapes_kept w w' /\ draws w' = draws w.
Proof.
  intros Hlay Hidx. pose proof Hlay as
    (H1 & H2 & H3 & H4 & H5 & H6 & H7 & H8 & H9 & H10 & H11 & H12).
  unfold improve_global.
  destruct (F64.ltb f (globalBestFitness opt)).
  - destruct (index_run (positions opt) idx ltac:(lia)) as (src & Hs & Hsi).
    rewrite (bind_run _ _ _ _ _ (lift_run _ _ w Hsi)).
    destruct (copy_slice_total _ _ w (globalBestPosition opt) src H12
                (Forall_lookup_1 _ _ _ _ H9 Hs))
      as (w1 & Hc & Hk & Hdr & _).
    rewrite (bind_run _ _ _ _ _ Hc).
    eexists _, w1. split; [reflexivity|]. split; [|now split].
    layout_after Hlay Hk.
  - exists opt, w. split; [reflexivity|]. split; [exact Hlay | now split].
Qed.

Lemma collect_total opt avg count idx r w :
  laid_out opt w -> 0 < groupCount (options opt) ->
  (idx < Z.to_nat (to_int (PopulationSize (options opt))))%nat ->
  exists opt' avg' count' w',
    collect (opt, avg, count) (idx, r) w = Ok (opt', avg', count', w') /\
    laid_out opt' w' /\ shapes_kept w w' /\ options opt' = options opt /\
    draws w' = draws w.
Proof.
  intros Hlay HG Hidx. unfold collect. destruct r as [f|].
  - destruct (improve_particle_total idx f opt w Hlay Hidx)
      as (o1 & w1 & E1 & L1 & K1 & D1).
    pose proof (collect_static opt avg count (idx, Some f) w) as Hst.
    assert (options o1 = options opt) as O1.
    { unfold improve_particle in E1.
      destruct (index (particleBestFitness opt) idx) as [b|]; [|discriminate].
      cbn in E1. destruct (F64.ltb f b).
      - mstep E1. mstep E1. mstep E1. mstep E1. reflexivity.
      - now injection E1 as <- _. }
    rewrite (bind_run _ _ _ _ _ E1).
    destruct (improve_group_total idx f o1 w1 L1) as (o2 & w2 & E2 & L2 & K2 & D2);
      [now rewrite O1 | now rewrite O1 |].
    rewrite (bind_run _ _ _ _ _ E2).
    destruct (improve_global_total idx f o2 w2 L2) as (o3 & w3 & E3 & L3 & K3 & D3).
    { enough (options o2 = options o1) as -> by now rewrite O1.
      unfold improve_group in E2. mstep E2. mstep E2.
      destruct (F64.ltb f a0).
      - mstep E2. mstep E2. mstep E2. mstep E2. reflexivity.
      - mstep E2. reflexivity. }
    rewrite (bind_run _ _ _ _ _ E3).
    eexists o3, _, _, w3. split; [reflexivity|]. split; [exact L3|].
    split; [transitivity w1; [exact K1|]; transitivity w2; assumption|].
    split; [|congruence].
    specialize (Hst o3 (fadd avg f) (fadd count 1%float) w3).
    unfold collect in Hst.
    rewrite (bind_run _ _ _ _ _ E1), (bind_run _ _ _ _ _ E2),
      (bind_run _ _ _ _ _ E3) in Hst.
    now destruct (Hst eq_refl) as (_ & _ & -> & _).
  - pose proof Hlay as
      (H1 & H2 & H3 & H4 & H5 & H6 & H7 & H8 & H9 & H10 & H11 & H12).
    destruct (index_run (stallCount opt) idx ltac:(lia)) as (c & Hc & Hci).
    rewrite (bind_run _ _ _ _ _ (lift_run _ _ w Hci)).
    eexists _, _, _, w. split; [reflexivity|].
    split; [|now repeat split].
    assert (shapes_kept w w) as Hk by reflexivity.
    layout_after Hlay Hk.
Qed.

Lemma evaluate_total opt w order :
  laid_out opt w ->
  (length (Bounds (options opt)) <= length (shape opt))%nat ->
  Forall (fun i => (i < Z.to_nat (to_int (PopulationSize (options opt))))%nat)
         order ->
  exists rs, evaluate opt (heap w) order = Ok rs /\ map fst rs = order.
Proof.
  intros Hlay HB. pose proof Hlay as
    (H1 & H2 & H3 & H4 & H5 & H6 & H7 & H8 & H9 & H10 & H11 & H12).
  induction order as [|idx order IH]; intros HP.
  - now exists [].
  - apply Forall_cons in HP as [Hidx HP].
    destruct (IH HP) as (rs & Hrs & Hfst).
    destruct (index_run (positions opt) idx ltac:(lia)) as (p & Hp & _).
    destruct (Forall_lookup_1 _ _ _ _ H9 Hp) as (position & Hpos & Hlen).
    assert (exists r, getParticleFitness opt (heap w) idx = Ok r) as [r Hr].
    { rewrite (getParticleFitness_eq opt (heap w) idx p position Hp Hpos).
      destruct (covered_in_bounds _ _); [|now eexists].
      destruct (_ <=? _)%nat eqn:E; [|apply Nat.leb_gt in E; lia].
      destruct (accepted _ _); now eexists. }
    exists ((idx, r) :: rs). cbn [evaluate]. rewrite Hr, Hrs. cbn.
    now rewrite Hfst.
Qed.

Lemma update_fitness_total opt w :
  laid_out opt w -> 0 < groupCount (options opt) ->
  0 < to_int (Parallelism (options opt)) ->
  (length (Bounds (options opt)) <= length (shape opt))%nat ->
  Forall (fun i => (i < Z.to_nat (to_int (PopulationSize (options opt))))%nat)
         (arrival (rounds w)) ->
  exists opt' w',
    update_fitness arrival opt w = Ok (opt', w') /\
    laid_out opt' w' /\ options opt' = options opt /\
    draws w' = draws w.
Proof.
  intros Hlay HG HPar HB Harr. unfold update_fitness.
  destruct (to_int _ <? 0) eqn:E1; [apply Z.ltb_lt in E1; lia|].
  destruct (to_int (Parallelism (options opt)) =? 0) eqn:E2;
    [apply Z.eqb_eq in E2; lia|]. cbn [andb].
  set (w0 := mkWorld (heap w) (draws w) (S (rounds w))).
  rewrite (bind_run _ _ w (arrival (rounds w)) w0) by reflexivity.
  assert (laid_out opt w0) as Hlay0.
  { eapply laid_out_kept; try exact Hlay; try reflexivity;
      [now apply shapes_kept_heap | apply Hlay]. }
  destruct (evaluate_total opt w (arrival (rounds w)) Hlay HB Harr)
    as (rs & Hrs & Hfst).
  rewrite (bind_run _ _ w0 rs w0) by (cbn [heap w0]; now rewrite Hrs).
  edestruct (foldM_total collect
    (fun _ (acc : Optimizer * float * float) w1 =>
       laid_out (fst (fst acc)) w1 /\
       options (fst (fst acc)) = options opt /\ draws w1 = draws w)
    (fun res : nat * option float =>
       (fst res < Z.to_nat (to_int (PopulationSize (options opt))))%nat))
    with (l := rs) (pre := @nil (nat * option float))
         (s := (opt, F64.zero, F64.zero)) (w := w0)
    as ([[o1 avg] cnt] & w1 & Hf & L1 & O1 & D1).
  - intros pre [idx r] [[o avg] cnt] wa (La & Oa & Da) Hidx.
    cbn [fst snd] in *.
    destruct (collect_total o avg cnt idx r wa La)
      as (o' & avg' & cnt' & wb & Hc & Lb & Kb & Ob & Db);
      [now rewrite Oa | now rewrite Oa |].
    exists (o', avg', cnt'), wb. split; [exact Hc|]. cbn [fst snd].
    split; [exact Lb|]. split; [congruence|].
    congruence.
  - rewrite <- Hfst in Harr. now apply Forall_map in Harr.
  - cbn [fst snd]. split; [exact Hlay0|]. split; reflexivity.
  - cbn [fst snd app] in *. rewrite (bind_run _ _ _ _ _ Hf).
    eexists _, w1. split; [reflexivity|].
    split; [|split; [exact O1 | exact D1]].
    assert (shapes_kept w1 w1) as Hk by reflexivity.
    layout_after L1 Hk.
Qed.

Lemma Float64_run w :
  Float64 rand w =
  Ok (rand (draws w), mkWorld (heap w) (S (draws w)) (rounds w)).
Proof. reflexivity. Qed.

Lemma move_particle_total opt idx w :
  laid_out opt w -> 0 < groupCount (options opt) ->
  (length (Bounds (options opt)) <= length (shape opt))%nat ->
  (idx < Z.to_nat (to_int (PopulationSize (options opt))))%nat ->
  exists opt' w',
    move_particle rand opt idx w = Ok (opt', w') /\
    laid_out opt' w' /\ options opt' = options opt /\
    shape opt' = shape opt /\
    draws w' = (draws w + 3)%nat /\ rounds w' = rounds w.
Proof.
  intros Hlay HG HB Hidx. pose proof Hlay as
    (H1 & H2 & H3 & H4 & H5 & H6 & H7 & H8 & H9 & H10 & H11 & H12).
  unfold move_particle.
  destruct (group_of_total opt idx HG) as (g & Hg & Hgb).
  rewrite (bind_run _ _ _ _ _ (lift_run _ _ w Hg)).
  destruct (index_run (positions opt) idx ltac:(lia)) as (p & Hp & Hpi).
  rewrite (bind_run _ _ _ _ _ (lift_run _ _ w Hpi)).
  pose proof (Forall_lookup_1 _ _ _ _ H9 Hp) as Hparr.
  destruct Hparr as (ri & Hri & Lri).
  rewrite (bind_run _ _ _ _ _ (load_run _ _ _ Hri)).
  destruct (index_run (particleBestPosition opt) idx ltac:(lia))
    as (pb & Hpb & Hpbi).
  rewrite (bind_run _ _ _ _ _ (lift_run _ _ w Hpbi)).
  destruct (Forall_lookup_1 _ _ _ _ H10 Hpb) as (pbest & Hpbest & Lpbest).
  rewrite (bind_run _ _ _ _ _ (load_run _ _ _ Hpbest)).
  destruct (sub_total pbest ri ltac:(lia)) as (dp & Hdp & Ldp).
  rewrite (bind_run _ _ _ _ _ (lift_run _ _ w Hdp)).
  rewrite (bind_run _ _ _ _ _ (Float64_run w)).
  set (w1 := mkWorld (heap w) (S (draws w)) (rounds w)).
  destruct (indexZ_run (localBestPosition opt) g ltac:(lia) ltac:(lia))
    as (lb & Hlb & Hlbi).
  rewrite (bind_run _ _ _ _ _ (lift_run _ _ w1 Hlbi)).
  destruct (Forall_lookup_1 _ _ _ _ H11 Hlb) as (lbest & Hlbest & Llbest).
  rewrite (bind_run _ _ w1 lbest w1) by now apply load_run.
  destruct (sub_total lbest ri ltac:(lia)) as (dl & Hdl & Ldl).
  rewrite (bind_run _ _ _ _ _ (lift_run _ _ w1 Hdl)).
  rewrite (bind_run _ _ _ _ _ (Float64_run w1)).
  set (w2 := mkWorld (heap w1) (S (draws w1)) (rounds w1)).
  destruct H12 as (gbest & Hgbest & Lgbest).
  rewrite (bind_run _ _ w2 gbest w2) by now apply load_run.
  destruct (sub_total gbest ri ltac:(lia)) as (dg & Hdg & Ldg).
  rewrite (bind_run _ _ _ _ _ (lift_run _ _ w2 Hdg)).
  rewrite (bind_run _ _ _ _ _ (Float64_run w2)).
  set (w3 := mkWorld (heap w2) (S (draws w2)) (rounds w2)).
  destruct (index_run (velocities opt) idx ltac:(lia)) as (vi & Hvi & Hvii).
  rewrite (bind_run _ _ _ _ _ (lift_run _ _ w3 Hvii)).
  pose proof (Forall_lookup_1 _ _ _ _ H8 Hvi) as Lvi. cbn beta in Lvi.
  destruct (sum_total (scale vi (Inertia (options opt)))
              [scale (scale dp (rand (draws w))) (ParticleStep (options opt));
               scale (scale dl (rand (draws w1))) (LocalStep (options opt));
               scale (scale dg (rand (draws w2))) (GlobalStep (options opt))])
    as (nv & Hnv & Lnv).
  { repeat constructor; rewrite !scale_length; lia. }
  rewrite scale_length in Lnv.
  rewrite (bind_run _ _ w3 nv w3) by (apply lift_run; exact Hnv).
  rewrite (bind_run _ _ w3 ri w3) by now apply load_run.
  destruct (sum_total ri [nv]) as (np & Hnp & Lnp).
  { repeat constructor. lia. }
  rewrite (bind_run _ _ _ _ _ (lift_run _ _ w3 Hnp)).
  assert (shapes_kept w w3) as K3 by now apply shapes_kept_heap.
  destruct (clip_into_total (length (shape opt)) p np
              (Bounds (options opt)) 0 w3)
    as (w4 & Hc & K4 & D4 & R4).
  { exists ri. now split. }
  { lia. }
  { lia. }
  rewrite (bind_run _ _ _ _ _ Hc).
  eexists _, w4. split; [reflexivity|].
  split; [|split; [reflexivity|split; [reflexivity|
    split; [rewrite D4; cbn; lia | now rewrite R4]]]].
  assert (shapes_kept w w4) as K by (transitivity w3; assumption).
  eapply laid_out_kept;
    [ exact Hlay | exact K | now repeat split | .. ];
    cbn; rewrite ?length_insert; try reflexivity.
  apply Forall_insert; [exact H8 | congruence].
Qed.

Lemma update_rule_total opt w :
  laid_out opt w -> 0 < groupCount (options opt) ->
  (length (Bounds (options opt)) <= length (shape opt))%nat ->
  exists opt' w',
    update_rule rand opt w = Ok (opt', w') /\
    laid_out opt' w' /\ options opt' = options opt /\
    shape opt' = shape opt /\
    draws w' = (draws w
                + 3 * Z.to_nat (to_int (PopulationSize (options opt))))%nat /\
    rounds w' = rounds w.
Proof.
  intros Hlay HG HB. unfold update_rule.
  edestruct (foldM_total (move_particle rand)
    (fun pre o w1 =>
       laid_out o w1 /\ options o = options opt /\ shape o = shape opt /\
       draws w1 = (draws w + 3 * length pre)%nat /\ rounds w1 = rounds w)
    (fun i => (i < Z.to_nat (to_int (PopulationSize (options opt))))%nat))
    with (l := upto (to_int (PopulationSize (options opt))))
         (pre := @nil nat) (s := opt) (w := w)
    as (o1 & w1 & Hf & L1 & O1 & S1 & D1 & R1).
  - intros pre idx o wa (La & Oa & Sa & Da & Ra) Hidx.
    destruct (move_particle_total o idx wa La)
      as (o' & wb & Hm & Lb & Ob & Sb & Db & Rb); try now rewrite Oa, ?Sa.
    exists o', wb. split; [exact Hm|]. split; [exact Lb|].
    split; [congruence|]. split; [congruence|].
    rewrite length_app. cbn [length].
    split; [lia | congruence].
  - apply upto_below.
  - cbn. split; [exact Hlay|]. do 2 (split; [reflexivity|]).
    split; [lia|reflexivity].
  - exists o1, w1. split; [exact Hf|]. split; [exact L1|].
    split; [exact O1|]. split; [exact S1|]. split; [|exact R1].
    rewrite D1. cbn [app]. unfold upto. now rewrite length_seq.
Qed.

Lemma step_total opt w :
  laid_out opt w -> steps_safely arrival (options opt) (length (shape opt)) ->
  exists opt' w',
    step rand arrival opt w = Ok (opt', w') /\
    laid_out opt' w' /\ options opt' = options opt /\
    shape opt' = shape opt /\
    draws w' = (draws w
                + 3 * Z.to_nat (to_int (PopulationSize (options opt))))%nat /\
    rounds w' = S (rounds w).
Proof.
  intros Hlay (HG & HPar & HB & Harr). unfold step.
  destruct (update_fitness_total opt w Hlay HG HPar HB (Harr _))
    as (o1 & w1 & Hu & L1 & O1 & D1).
  pose proof (update_fitness_static _ _ _ _ _ Hu) as (_ & S1 & _).
  pose proof (update_fitness_rounds _ _ _ _ _ Hu) as R1.
  rewrite (bind_run _ _ _ _ _ Hu).
  destruct (update_rule_total o1 w1 L1)
    as (o2 & w2 & Hr & L2 & O2 & S2 & D2 & R2);
    [now rewrite O1 | now rewrite O1, S1 |].
  exists o2, w2. split; [exact Hr|]. split; [exact L2|].
  split; [congruence|]. split; [congruence|].
  split; [rewrite D2, D1, O1; reflexivity | congruence].
Qed.

Lemma run_total n : forall opt w,
  laid_out opt w -> steps_safely arrival (options opt) (length (shape opt)) ->
  exists opt' w',
    run rand arrival n opt w = Ok (opt', w') /\
    laid_out opt' w' /\ options opt' = options opt /\
    shape opt' = shape opt /\
    draws w' = (draws w
                + n * (3 * Z.to_nat (to_int (PopulationSize (options opt)))))%nat /\
    rounds w' = (rounds w + n)%nat.
Proof.
  induction n as [|n IH]; intros opt w Hlay Hsafe.
  - exists opt, w. cbn [run]. split; [reflexivity|].
    split; [exact Hlay|]. repeat split; lia.
  - destruct (step_total opt w Hlay Hsafe)
      as (o1 & w1 & Hs & L1 & O1 & S1 & D1 & R1).
    destruct (IH o1 w1 L1) as (o2 & w2 & Hr & L2 & O2 & S2 & D2 & R2);
      [now rewrite O1, S1|].
    exists o2, w2. cbn [run]. rewrite (bind_run _ _ _ _ _ Hs).
    split; [exact Hr|]. split; [exact L2|].
    split; [congruence|]. split; [congruence|].
    split; [rewrite D2, D1, O1; lia | lia].
Qed.

End StepSucceeds.

(** ** Runs that succeed: from [New] on *)

Lemma well_sized_groups o :
  well_sized o ->
  0 < to_int (PopulationSize o) /\ 0 < groupCount o < 2 ^ 63 /\ groups_fit o.
Proof.
  intros ((HL & HLP) & HP & HG).
  assert (1 <= PopulationSize o / LocalSize o <= PopulationSize o) as Hq.
  { split.
    - apply Z.div_le_lower_bound; lia.
    - apply Z.div_le_upper_bound; nia. }
  pose proof (Z.mul_div_le (PopulationSize o) (LocalSize o) HL) as Hmul.
  rewrite to_int_small in HG by lia.
  rewrite to_int_small by lia.
  split; [lia|]. split; [lia|].
  intros i Hi. rewrite HG in Hi.
  rewrite (to_int_small (LocalSize o)) by lia.
  rewrite (to_int_small (PopulationSize o)) by lia.
  rewrite to_int_small; nia.
Qed.

Lemma resolve_groupCount GOMAXPROCS dims o :
  groupCount (resolve GOMAXPROCS dims o) =
  to_int (PopulationSize (resolve GOMAXPROCS dims o)
          / LocalSize (resolve GOMAXPROCS dims o)).
Proof. reflexivity. Qed.

(** X11: [Reset] on an optimizer whose sizes are as [New] leaves them
    (a positive group size, at most the population size) does not panic:
    it returns an optimizer with the same options, shape and objective,
    whose slices all have the length of the population or of the groups
    and whose arrays all have one number per dimension, every stall count
    back at 0; it draws two random numbers per particle and dimension and
    starts no evaluation round. *)
Theorem Reset_rebuilds_the_layout (rand : nat -> float) (opt : Optimizer)
    (w : World)
  (Hsized : well_sized (options opt)) :
  exists opt' w',
    Reset rand (Some opt) w = Ok (Some opt', w') /\
    laid_out opt' w' /\
    options opt' = options opt /\ shape opt' = shape opt /\
    fitness opt' = fitness opt /\
    stallCount opt' =
      repeat 0 (Z.to_nat (to_int (PopulationSize (options opt)))) /\
    draws w' = (draws w + 2 * Z.to_nat (to_int (PopulationSize (options opt)))
                            * length (shape opt))%nat /\
    rounds w' = rounds w.
Proof.
  destruct (well_sized_groups _ Hsized) as (HP & HG & Hfit).
  destruct (reset_total rand opt w HP ltac:(lia) Hfit)
    as (opt' & w' & Hr & Hlay & _ & Hd & Hro & Ho & Hs & Hf & Hst & _).
  exists opt', w'. unfold Reset. rewrite (bind_run _ _ _ _ _ Hr).
  split; [reflexivity|]. split; [exact Hlay|]. now repeat split.
Qed.

Lemma Reset_rebuilds_the_layout_witness :
  let opt := mkOptimizer Demo.square Demo.line
               (resolve Demo.GOMAXPROCS 1 (Demo.with_sizes 2 4 Demo.unset))
               [] [] [] [] [] [] [] 0%nat F64.zero F64.zero in
  well_sized (options opt) /\
  exists opt' w',
    Reset Demo.rand (Some opt) Demo.empty_world = Ok (Some opt', w') /\
    laid_out opt' w' /\
    options opt' = options opt /\ shape opt' = shape opt /\
    fitness opt' = fitness opt /\
    stallCount opt' =
      repeat 0 (Z.to_nat (to_int (PopulationSize (options opt)))) /\
    draws w' = (draws Demo.empty_world
                + 2 * Z.to_nat (to_int (PopulationSize (options opt)))
                    * length (shape opt))%nat /\
    rounds w' = rounds Demo.empty_world.
Proof.
  intros opt.
  assert (well_sized (options opt)) as Hsized.
  { unfold well_sized. vm_compute. repeat split; discriminate. }
  refine (conj Hsized _).
  exact (Reset_rebuilds_the_layout Demo.rand opt Demo.empty_world Hsized).
Defined.

(** X12: a step from a laid-out optimizer with at least one group, a
    worker, no more bounds than dimensions and results that name particles
    of the population does not panic; it keeps the layout, the options and
    the shape, draws three random numbers per particle and uses exactly
    one evaluation round. *)
Theorem Step_keeps_the_layout (rand : nat -> float) (arrival : nat -> list nat)
    (opt : Optimizer) (w : World)
  (Hlay : laid_out opt w)
  (Hsafe : steps_safely arrival (options opt) (length (shape opt))) :
  exists opt' w',
    Step rand arrival (Some opt) w = Ok (Some opt', w') /\
    laid_out opt' w' /\
    options opt' = options opt /\ shape opt' = shape opt /\
    draws w' = (draws w
                + 3 * Z.to_nat (to_int (PopulationSize (options opt))))%nat /\
    rounds w' = S (rounds w).
Proof.
  destruct (step_total rand arrival opt w Hlay Hsafe)
    as (opt' & w' & Hs & Hl & Ho & Hsh & Hd & Hr).
  exists opt', w'. split; [|split; [exact Hl | now repeat split]].
  unfold step in Hs. unfold Step, updateFitness.
  destruct (update_fitness arrival opt w) as [[o1 w1]|q] eqn:Hu;
    [|unfold bind in Hs; rewrite Hu in Hs; discriminate Hs].
  rewrite (bind_run _ _ _ _ _ Hu) in Hs.
  rewrite (bind_run _ _ w (Some o1) w1)
    by (now rewrite (bind_run _ _ _ _ _ Hu)).
  now rewrite (bind_run _ _ _ _ _ Hs).
Qed.

Lemma Step_keeps_the_layout_witness :
  match New Demo.rand Demo.GOMAXPROCS Demo.square Demo.line
          (Demo.with_sizes 1 2 Demo.unset) Demo.empty_world with
  | Ok (Some opt, _, w) =>
      exists opt' w',
        Step Demo.rand (Demo.in_order 2) (Some opt) w = Ok (Some opt', w') /\
        laid_out opt' w' /\
        options opt' = options opt /\ shape opt' = shape opt /\
        draws w' = (draws w
                    + 3 * Z.to_nat (to_int (PopulationSize (options opt))))%nat /\
        rounds w' = S (rounds w)
  | _ => False
  end.
Proof.
  destruct (New _ _ _ _ _ _) as [[[[opt|] e] w]|q] eqn:HNew;
    [|vm_compute in HNew; discriminate HNew ..].
  vm_compute in HNew. injection HNew as <- _ <-.
  apply Step_keeps_the_layout.
  - unfold laid_out. cbn.
    repeat split;
      repeat (apply Forall_cons_2); try apply Forall_nil_2;
      try reflexivity; eexists; split; reflexivity.
  - refine (conj _ (conj _ (conj _ _))).
    + reflexivity.
    + reflexivity.
    + cbn. lia.
    + intros k. vm_compute. repeat constructor.
Defined.

(** X13: when the resolved group size is positive and at most the
    resolved population size, a worker is configured, [Bounds] has no more
    entries than the shape and the results name particles of the
    population, [New] returns an optimizer and no error, and any number
    [n] of steps after it runs without a panic; together they draw
    [2 * population * dims + 3 * n * population] random numbers and use
    [n] evaluation rounds. *)
Theorem New_then_steps_never_panic (rand : nat -> float)
    (arrival : nat -> list nat) (GOMAXPROCS : Z) (f : Fitness)
    (sh : list Range) (o : Options) (w : World) (n : nat)
  (Hshape : sh <> [])
  (Hsized : well_sized (resolve GOMAXPROCS (length sh) o))
  (Hsafe : steps_safely arrival (resolve GOMAXPROCS (length sh) o)
             (length sh)) :
  exists opt w1 opt' w',
    New rand GOMAXPROCS f sh o w = Ok (Some opt, None, w1) /\
    run rand arrival n opt w1 = Ok (opt', w') /\
    laid_out opt' w' /\
    options opt' = resolve GOMAXPROCS (length sh) o /\
    draws w' =
      (draws w
       + 2 * Z.to_nat (to_int (PopulationSize
                                 (resolve GOMAXPROCS (length sh) o)))
           * length sh
       + n * (3 * Z.to_nat (to_int (PopulationSize
                                      (resolve GOMAXPROCS (length sh) o)))))%nat /\
    rounds w' = (rounds w + n)%nat.
Proof.
  destruct sh as [|r sh]; [congruence|].
  set (o' := resolve GOMAXPROCS (length (r :: sh)) o) in *.
  set (opt0 := mkOptimizer f (r :: sh) o' [] [] [] [] [] [] [] 0%nat
                 F64.zero F64.zero).
  destruct (well_sized_groups _ Hsized) as (HP & HG & Hfit).
  destruct (reset_total rand opt0 w HP
              (conj (Z.lt_le_incl _ _ (proj1 HG)) (proj2 HG)) Hfit)
    as (opt & w1 & Hr & Hlay & _ & Hd & Hro & Ho & Hs & _).
  cbn [options shape opt0] in Ho, Hs, Hd.
  destruct (run_total rand arrival n opt w1 Hlay)
    as (opt' & w' & Hrun & Hlay' & Ho' & Hs' & Hd' & Hr').
  { now rewrite Ho, Hs. }
  exists opt, w1, opt', w'.
  split.
  { unfold New. fold o'. fold opt0. now rewrite (bind_run _ _ _ _ _ Hr). }
  split; [exact Hrun|]. split; [exact Hlay'|].
  split; [congruence|].
  rewrite Hd', Hr', Hd, Hro, Ho. split; reflexivity.
Qed.

Lemma New_then_steps_never_panic_witness :
  exists opt w1 opt' w',
    New Demo.rand Demo.GOMAXPROCS Demo.square Demo.line
        (Demo.with_sizes 2 4 Demo.unset) Demo.empty_world
      = Ok (Some opt, None, w1) /\
    run Demo.rand (Demo.in_order 4) 5 opt w1 = Ok (opt', w') /\
    laid_out opt' w' /\
    options opt' = resolve Demo.GOMAXPROCS 1 (Demo.with_sizes 2 4 Demo.unset) /\
    draws w' = 68%nat /\ rounds w' = 5%nat.
Proof.
  refine (New_then_steps_never_panic Demo.rand (Demo.in_order 4)
            Demo.GOMAXPROCS Demo.square Demo.line
            (Demo.with_sizes 2 4 Demo.unset) Demo.empty_world 5 _ _ _).
  - discriminate.
  - unfold well_sized. vm_compute. repeat split; discriminate.
  - unfold steps_safely. repeat split; try reflexivity.
    + vm_compute. lia.
    + intros k. vm_compute. repeat constructor.
Defined.

(** ** The helpers of the example (example/iris/nn.go) *)

Lemma dot_from_eq u : forall v i acc,
  (i <= length v)%nat ->
  dot_from u v i acc =
  if (i + length u <=? length v)%nat
  then Ok (fold_left (fun a p => fadd a (fmul (fst p) (snd p)))
                     (combine u (drop i v)) acc)
  else Panic IndexOutOfRange.
Proof.
  induction u as [|ui u IH]; intros v i acc Hi; cbn [dot_from length].
  - destruct (_ <=? _)%nat eqn:E; [reflexivity|].
    apply Nat.leb_gt in E. lia.
  - unfold index. destruct (v !! i) as [vi|] eqn:Hv; cbn [rbind].
    + pose proof (lookup_lt_Some _ _ _ Hv) as Hlt.
      rewrite IH by lia.
      replace (S i + length u)%nat with (i + S (length u))%nat by lia.
      destruct (_ <=? _)%nat; [|reflexivity].
      rewrite (drop_S _ _ _ Hv). reflexivity.
    + apply lookup_ge_None in Hv.
      destruct (_ <=? _)%nat eqn:E; [|reflexivity].
      apply Nat.leb_le in E. lia.
Qed.

(** X14: [dot] panics with an index out of range exactly when [v] is
    shorter than [u]; otherwise it returns the products of the entries
    paired in order, added from the left starting at 0, and the entries
    of [v] past the length of [u] play no part. *)
Theorem dot_of_vectors (u v : list float) :
  dot u v = (if (length u <=? length v)%nat
             then Ok (paired_products u v)
             else Panic IndexOutOfRange) /\
  ((length u <= length v)%nat -> dot u v = dot u (take (length u) v)).
Proof.
  assert (forall v', dot u v' =
            if (length u <=? length v')%nat
            then Ok (paired_products u v') else Panic IndexOutOfRange) as H.
  { intros v'. unfold dot. rewrite dot_from_eq by lia. now rewrite drop_0. }
  split; [apply H|]. intros Hle.
  rewrite (H v), (H (take (length u) v)), length_take.
  replace (length u `min` length v)%nat with (length u) by lia.
  destruct (Nat.leb_spec (length u) (length v)); [|lia].
  rewrite Nat.leb_refl. unfold paired_products. f_equal. f_equal.
  clear. revert v. induction u as [|a u IH]; intros [|b v]; cbn;
    try reflexivity. now rewrite <- IH.
Qed.

Lemma argmax_from_spec (input : list float) : forall rest pre m idx,
  input = pre ++ rest -> (idx < length pre)%nat ->
  input !! idx = Some m ->
  (forall j x, (j < length pre)%nat -> input !! j = Some x ->
               F64.ltb m x = false) ->
  (forall j x, (j < idx)%nat -> input !! j = Some x ->
               F64.ltb x m = true \/ F64.is_nan x = true) ->
  (forall x0, input !! 0%nat = Some x0 -> F64.is_nan x0 = true ->
              idx = 0%nat) ->
  exists m',
    input !! argmax_from rest (length pre) m idx = Some m' /\
    (forall j x, input !! j = Some x -> F64.ltb m' x = false) /\
    (forall j x, (j < argmax_from rest (length pre) m idx)%nat ->
                 input !! j = Some x ->
                 F64.ltb x m' = true \/ F64.is_nan x = true) /\
    (forall x0, input !! 0%nat = Some x0 -> F64.is_nan x0 = true ->
                argmax_from rest (length pre) m idx = 0%nat).
Proof.
  induction rest as [|x rest IH]; intros pre m idx Hin Hidx Hm Hmax Hfirst Hnan.
  - cbn [argmax_from]. exists m. split; [exact Hm|].
    split; [|split; assumption].
    intros j y Hy. apply (Hmax j y); [|exact Hy].
    apply lookup_lt_Some in Hy. rewrite Hin, app_nil_r in Hy. exact Hy.
  - cbn [argmax_from].
    assert (input = (pre ++ [x]) ++ rest) as Hin'
      by (now rewrite <- app_assoc).
    assert (input !! length pre = Some x) as Hx
      by (rewrite Hin; apply list_lookup_middle; reflexivity).
    assert (S (length pre) = length (pre ++ [x])) as HS
      by (rewrite length_app; cbn; lia).
    rewrite HS.
    destruct (F64.ltb m x) eqn:E.
    + apply (IH (pre ++ [x]) x (length pre) Hin').
      * lia.
      * exact Hx.
      * intros j y Hj Hy.
        destruct (decide (j = length pre)) as [->|Hne].
        { assert (y = x) as -> by congruence. apply F64Facts.ltb_irrefl. }
        assert (F64.ltb m y = false) as Hmy by (apply (Hmax j y); [lia|exact Hy]).
        clear - E Hmy. F64Facts.float_order.
      * intros j y Hj Hy.
        assert (F64.ltb m y = false) as Hmy by (apply (Hmax j y); [lia|exact Hy]).
        destruct (F64.is_nan y) eqn:Ey; [now right | left].
        clear - E Hmy Ey. F64Facts.float_order.
      * intros x0 H0 Hn. specialize (Hnan x0 H0 Hn). subst idx.
        assert (m = x0) as -> by congruence.
        apply F64Facts.ltb_is_nan_l in E. congruence.
    + apply (IH (pre ++ [x]) m idx Hin').
      * lia.
      * exact Hm.
      * intros j y Hj Hy.
        destruct (decide (j = length pre)) as [->|Hne].
        { assert (y = x) as -> by congruence. exact E. }
        apply (Hmax j y); [lia | exact Hy].
      * exact Hfirst.
      * exact Hnan.
Qed.

(** X15: [argmax] panics on an empty slice.  On any other slice it
    returns an index of the slice such that no entry is greater than the
    entry there, and every earlier entry is smaller or a NaN: the first
    index of a maximum.  When the first entry is a NaN it returns 0,
    whatever follows. *)
Theorem argmax_picks_the_first_maximum (input : list float) :
  match argmax input with
  | Panic p => input = [] /\ p = IndexOutOfRange
  | Ok idx =>
      exists m,
        input !! idx = Some m /\
        (forall j x, input !! j = Some x -> F64.ltb m x = false) /\
        (forall j x, (j < idx)%nat -> input !! j = Some x ->
                     F64.ltb x m = true \/ F64.is_nan x = true) /\
        (forall x0, input !! 0%nat = Some x0 -> F64.is_nan x0 = true ->
                    idx = 0%nat)
  end.
Proof.
  destruct input as [|x0 rest]; cbn [argmax]; [now split|].
  apply (argmax_from_spec (x0 :: rest) rest [x0] x0 0%nat).
  - reflexivity.
  - cbn. lia.
  - reflexivity.
  - intros j x Hj Hx. cbn in Hj. assert (j = 0%nat) as -> by lia.
    cbn in Hx. injection Hx as <-. apply F64Facts.ltb_irrefl.
  - intros j x Hj. lia.
  - reflexivity.
Qed.

(** ** The position behind the global best *)

Lemma copied_full {A} (d s : list A) : length d = length s -> copied d s = s.
Proof.
  intros H. unfold copied. rewrite H, take_ge, drop_ge by lia.
  apply app_nil_r.
Qed.

Lemma copy_slice_Ok dst src w w' :
  copy_slice dst src w = Ok (tt, w') ->
  exists d s, heap w !! dst = Some d /\ heap w !! src = Some s /\
              heap w' = <[dst := copied d s]> (heap w).
Proof.
  unfold copy_slice. intros H.
  apply bind_Ok in H as (s & w1 & Hs & H). apply load_Ok in Hs as [-> Hs].
  apply bind_Ok in H as (d & w2 & Hd & H). apply load_Ok in Hd as [-> Hd].
  unfold store in H. injection H as <-. now exists d, s.
Qed.

Lemma evaluate_results opt h order : forall rs,
  evaluate opt h order = Ok rs ->
  Forall (fun r => getParticleFitness opt h (fst r) = Ok (snd r)) rs.
Proof.
  induction order as [|idx order IH]; intros rs H; cbn [evaluate] in H.
  - injection H as <-. constructor.
  - destruct (getParticleFitness opt h idx) as [r|] eqn:E; [|discriminate].
    cbn [rbind] in H.
    destruct (evaluate opt h order) as [rs'|]; [|discriminate].
    cbn in H. injection H as <-. constructor; [exact E | now apply IH].
Qed.

Lemma improve_particle_Ok idx f o w o' w' :
  particleBestPosition o = positions o ->
  improve_particle idx f o w = Ok (o', w') ->
  heap w' = heap w /\ exists l, o' = set_particleBestFitness l o.
Proof.
  intros Hpb H. unfold improve_particle in H.
  apply bind_Ok in H as (best & w1 & Hb & H). apply lift_Ok in Hb as [Hb ->].
  destruct (F64.ltb f best).
  - apply bind_Ok in H as (dst & w1 & Hd & H). apply lift_Ok in Hd as [Hd ->].
    apply bind_Ok in H as (src & w1 & Hs & H). apply lift_Ok in Hs as [Hs ->].
    apply bind_Ok in H as ([] & w1 & Hc & H).
    apply ret_Ok in H as [-> ->].
    apply index_Ok in Hd, Hs. rewrite Hpb in Hd.
    assert (dst = src) as -> by congruence.
    apply copy_slice_Ok in Hc as (d & s & Hd' & Hs' & ->).
    assert (d = s) as -> by congruence.
    rewrite copied_full by reflexivity.
    split; [now apply list_insert_id | now eexists].
  - apply ret_Ok in H as [-> ->]. split; [reflexivity|].
    exists (particleBestFitness o). now destruct o.
Qed.

Lemma improve_group_Ok idx f o w o' w' :
  improve_group idx f o w = Ok (o', w') ->
  (forall q, q ∉ localBestPosition o -> heap w' !! q = heap w !! q) /\
  exists l, o' = set_localBestFitness l o.
Proof.
  intros H. unfold improve_group in H.
  apply bind_Ok in H as (g & w1 & Hg & H). apply lift_Ok in Hg as [Hg ->].
  apply bind_Ok in H as (best & w1 & Hb & H). apply lift_Ok in Hb as [Hb ->].
  destruct (F64.ltb f best).
  - apply bind_Ok in H as (dst & w1 & Hd & H). apply lift_Ok in Hd as [Hd ->].
    apply bind_Ok in H as (src & w1 & Hs & H). apply lift_Ok in Hs as [Hs ->].
    apply bind_Ok in H as ([] & w1 & Hc & H).
    apply ret_Ok in H as [-> ->].
    apply indexZ_Ok in Hd as [_ Hd].
    apply copy_slice_Ok in Hc as (d & s & _ & _ & ->).
    split; [|now eexists]. intros q Hq.
    apply list_lookup_insert_ne. intros <-. apply Hq.
    eapply list_elem_of_lookup_2; exact Hd.
  - apply ret_Ok in H as [-> ->]. split; [reflexivity|].
    exists (localBestFitness o). now destruct o.
Qed.

Lemma improve_global_Ok idx f o w o' w' :
  improve_global idx f o w = Ok (o', w') ->
  (F64.ltb f (globalBestFitness o) = false /\ o' = o /\ w' = w) \/
  (F64.ltb f (globalBestFitness o) = true /\
   o' = set_globalBestFitness f o /\
   exists p d s,
     positions o !! idx = Some p /\
     heap w !! globalBestPosition o = Some d /\ heap w !! p = Some s /\
     heap w' = <[globalBestPosition o := copied d s]> (heap w)).
Proof.
  intros H. unfold improve_global in H.
  destruct (F64.ltb f (globalBestFitness o)).
  - right. split; [reflexivity|].
    apply bind_Ok in H as (src & w1 & Hs & H). apply lift_Ok in Hs as [Hs ->].
    apply bind_Ok in H as ([] & w1 & Hc & H).
    apply ret_Ok in H as [-> ->]. split; [reflexivity|].
    apply index_Ok in Hs.
    apply copy_slice_Ok in Hc as (d & s & Hd' & Hs' & ->).
    now exists src, d, s.
  - left. apply ret_Ok in H as [-> ->]. now repeat split.
Qed.

(** One result of the evaluation, collected: the global best stays
    witnessed, and no position changes. *)
Lemma collect_witnessed o avg cnt idx r w o' avg' cnt' w' :
  laid_out o w -> arrays_apart o ->
  (forall f, r = Some f ->
     exists p position,
       positions o !! idx = Some p /\ heap w !! p = Some position /\
       f = fitness o position /\
       covered_in_bounds (Bounds (options o)) position = true /\
       accepted (Constraints (options o)) position = true) ->
  best_is_witnessed o w ->
  collect (o, avg, cnt) (idx, r) w = Ok (o', avg', cnt', w') ->
  best_is_witnessed o' w' /\
  (forall p, p ∈ positions o -> heap w' !! p = heap w !! p).
Proof.
  intros Hlay (Hpb & Hlb & Hgb) Hr Hw H. unfold collect in H.
  destruct r as [f|].
  - destruct (Hr f eq_refl) as (p & position & Hp & Hpos & Hf & Hcov & Hacc).
    apply bind_Ok in H as (o1 & w1 & H1 & H).
    apply bind_Ok in H as (o2 & w2 & H2 & H).
    apply bind_Ok in H as (o3 & w3 & H3 & H).
    apply ret_Ok in H as [H ->]. injection H as <- _ _.
    apply (improve_particle_Ok _ _ _ _ _ _ Hpb) in H1 as (Hh1 & l1 & ->).
    apply improve_group_Ok in H2 as (Hh2 & l2 & ->).
    cbn [localBestPosition set_particleBestFitness] in Hh2.
    assert (forall q, q ∈ positions o -> heap w2 !! q = heap w !! q) as Hpos2.
    { intros q Hq. rewrite Hh2; [now rewrite Hh1|].
      intros Hin. destruct (Hlb q Hin) as [Hn _]. exact (Hn Hq). }
    assert (heap w2 !! globalBestPosition o = heap w !! globalBestPosition o)
      as Hgb2.
    { rewrite Hh2; [now rewrite Hh1|].
      intros Hin. destruct (Hlb _ Hin) as [_ Hn]. now apply Hn. }
    apply improve_global_Ok in H3
      as [(E & -> & ->)|(E & -> & q & d & s & Hq & Hd & Hs & Hh3)];
      unfold best_is_witnessed; cbn.
    + split; [|exact Hpos2].
      intros Hlt. destruct (Hw Hlt) as (v & Hv & Hfv & Hc & Ha).
      exists v. rewrite Hgb2. now repeat split.
    + cbn in Hq, Hd, Hs, Hh3.
      assert (q = p) as -> by congruence.
      assert (s = position) as ->.
      { rewrite Hpos2 in Hs by (eapply list_elem_of_lookup_2; exact Hp).
        congruence. }
      destruct Hlay as (_ & _ & _ & _ & _ & _ & _ & _ & Fp & _ & _ & Hg).
      destruct Hg as (d0 & Hd0 & Ld0).
      assert (d = d0) as -> by congruence.
      destruct (Forall_lookup_1 _ _ _ _ Fp Hp) as (v0 & Hv0 & Lv0).
      assert (v0 = position) as -> by congruence.
      rewrite copied_full in Hh3 by congruence.
      split.
      * intros _. exists position. rewrite Hh3.
        rewrite list_lookup_insert_eq
          by (apply lookup_lt_Some in Hd; exact Hd).
        now repeat split.
      * intros p' Hp'. rewrite Hh3.
        rewrite list_lookup_insert_ne by (intros <-; now apply Hgb).
        now apply Hpos2.
  - apply bind_Ok in H as (c & w1 & Hc & H). apply lift_Ok in Hc as [Hc ->].
    apply ret_Ok in H as [H ->]. injection H as -> _ _.
    split; [exact Hw | reflexivity].
Qed.

Lemma evaluate_indices opt h order : forall rs,
  evaluate opt h order = Ok rs -> map fst rs = order.
Proof.
  induction order as [|idx order IH]; intros rs H; cbn [evaluate] in H.
  - now injection H as <-.
  - destruct (getParticleFitness opt h idx) as [r|]; [|discriminate].
    cbn [rbind] in H.
    destruct (evaluate opt h order) as [rs'|]; [|discriminate].
    cbn in H. injection H as <-. cbn. now rewrite (IH rs').
Qed.

Lemma arrays_apart_static a b :
  same_static a b -> arrays_apart a -> arrays_apart b.
Proof.
  intros (_ & _ & _ & S4 & S5 & S6 & S7). unfold arrays_apart.
  now rewrite S4, S5, S6, S7.
Qed.

Section Witnessed.
Variable rand : nat -> float.
Variable arrival : nat -> list nat.

Lemma update_fitness_witnessed opt w opt' w' :
  laid_out opt w -> arrays_apart opt -> best_is_witnessed opt w ->
  0 < groupCount (options opt) ->
  Forall (fun i => (i < Z.to_nat (to_int (PopulationSize (options opt))))%nat)
         (arrival (rounds w)) ->
  update_fitness arrival opt w = Ok (opt', w') ->
  best_is_witnessed opt' w'.
Proof.
  intros Hlay Hap Hw HG Harr H. unfold update_fitness in H.
  destruct (to_int _ <? 0); [discriminate|].
  destruct (_ && _); [discriminate|].
  apply bind_Ok in H as (order & w0 & Ho & H).
  unfold next_round in Ho. injection Ho as <- <-.
  apply bind_Ok in H as (rs & w1 & He & H). apply lift_Ok in He as [He ->].
  cbn [heap] in He.
  apply bind_Ok in H as ([[o1 avg] cnt] & w1 & Hc & H).
  apply ret_Ok in H as [-> ->].
  set (w0 := mkWorld (heap w) (draws w) (S (rounds w))) in *.
  assert (laid_out opt w0) as Hlay0.
  { eapply laid_out_kept; try exact Hlay; try reflexivity;
      [now apply shapes_kept_heap | apply Hlay]. }
  pose proof Hlay as (_ & _ & _ & _ & _ & _ & _ & _ & Fpos & _).
  pose proof Hlay as (Lpos & _).
  edestruct (foldM_total collect
    (fun _ (acc : Optimizer * float * float) wa =>
       laid_out (fst (fst acc)) wa /\
       same_static opt (fst (fst acc)) /\
       (forall p, p ∈ positions opt -> heap wa !! p = heap w !! p) /\
       best_is_witnessed (fst (fst acc)) wa)
    (fun r : nat * option float =>
       (fst r < Z.to_nat (to_int (PopulationSize (options opt))))%nat /\
       getParticleFitness opt (heap w) (fst r) = Ok (snd r)))
    with (l := rs) (pre := @nil (nat * option float))
         (s := (opt, F64.zero, F64.zero)) (w := w0)
    as (acc & w2 & Hf & _ & _ & _ & W2).
  - intros pre [idx r] [[o avg0] cnt0] wa (La & Sa & Fa & Wa) (Hidx & Hg).
    cbn [fst snd] in *.
    pose proof Sa as (S1 & S2 & S3 & S4 & S5 & S6 & S7).
    destruct (collect_total o avg0 cnt0 idx r wa La)
      as (o' & avg' & cnt' & wb & Hcol & Lb & Kb & Ob & Db);
      [now rewrite S3 | now rewrite S3 |].
    exists (o', avg', cnt'), wb. split; [exact Hcol|]. cbn [fst snd].
    pose proof (collect_static _ _ _ _ _ _ _ _ _ Hcol) as Sb.
    destruct (collect_witnessed o avg0 cnt0 idx r wa o' avg' cnt' wb La
                (arrays_apart_static _ _ Sa Hap)) as (Wb & Fb);
      [|exact Wa|exact Hcol|].
    { intros f ->.
      destruct (index_run (positions opt) idx ltac:(lia)) as (p & Hp & _).
      destruct (Forall_lookup_1 _ _ _ _ Fpos Hp) as (position & Hpos & _).
      rewrite (getParticleFitness_eq opt (heap w) idx p position Hp Hpos)
        in Hg.
      destruct (covered_in_bounds _ _) eqn:Ecov; [|discriminate].
      destruct (_ <=? _)%nat; [|discriminate].
      destruct (accepted _ _) eqn:Eacc; [|discriminate].
      injection Hg as <-. exists p, position.
      rewrite S4, S1, S3.
      rewrite Fa by (eapply list_elem_of_lookup_2; exact Hp).
      now repeat split. }
    split; [exact Lb|]. split; [transitivity o; assumption|].
    split; [|exact Wb].
    intros p Hp. rewrite Fb by now rewrite S4. now apply Fa.
  - apply Forall_forall. intros r Hr. split.
    + rewrite <- (evaluate_indices _ _ _ _ He) in Harr.
      rewrite Forall_map in Harr. rewrite Forall_forall in Harr.
      now apply Harr.
    + pose proof (evaluate_results _ _ _ _ He) as Hres.
      rewrite Forall_forall in Hres. now apply Hres.
  - cbn [fst snd]. split; [exact Hlay0|]. split; [reflexivity|].
    split; [reflexivity | exact Hw].
  - cbn [app] in Hf. rewrite Hc in Hf. injection Hf as <- <-.
    exact W2.
Qed.

Lemma update_rule_heap opt w opt' w' :
  update_rule rand opt w = Ok (opt', w') ->
  forall q, q ∉ positions opt -> heap w' !! q = heap w !! q.
Proof.
  unfold update_rule. intros H.
  refine (proj2 (foldM_invariant (move_particle rand)
            (fun _ o w1 =>
               (exists v, o = set_velocities v opt) /\
               forall q, q ∉ positions opt -> heap w1 !! q = heap w !! q)
            _ _ [] opt w opt' w' _ H)).
  - intros pre idx o2 w2 o3 w3 ([v ->] & Hq) Hm.
    pose proof (move_particle_frame _ _ _ _ _ _ Hm) as [v' ->].
    apply move_particle_clips in Hm as (p & Hp & Hfr & _).
    cbn in Hp. split; [now eexists|].
    intros q Hn. rewrite Hfr; [now apply Hq|].
    intros ->. apply Hn. eapply list_elem_of_lookup_2; exact Hp.
  - split; [|reflexivity]. exists (velocities opt). now destruct opt.
Qed.

Lemma step_witnessed opt w opt' w' :
  laid_out opt w -> arrays_apart opt -> best_is_witnessed opt w ->
  steps_safely arrival (options opt) (length (shape opt)) ->
  step rand arrival opt w = Ok (opt', w') ->
  best_is_witnessed opt' w'.
Proof.
  intros Hlay Hap Hw (HG & _ & _ & Harr) H. unfold step in H.
  apply bind_Ok in H as (o1 & w1 & Hu & H).
  pose proof (update_fitness_witnessed _ _ _ _ Hlay Hap Hw HG (Harr _) Hu)
    as W1.
  pose proof (update_fitness_static _ _ _ _ _ Hu) as S1.
  pose proof (arrays_apart_static _ _ S1 Hap) as (_ & _ & Hgb).
  pose proof (update_rule_heap _ _ _ _ H _ Hgb) as Hheap.
  apply update_rule_frame in H as [v ->].
  unfold best_is_witnessed in *. cbn. intros Hlt.
  destruct (W1 Hlt) as (u & Hu1 & Hu2 & Hu3 & Hu4).
  exists u. rewrite Hheap. now repeat split.
Qed.

Lemma run_witnessed n : forall opt w opt' w',
  laid_out opt w -> arrays_apart opt -> best_is_witnessed opt w ->
  steps_safely arrival (options opt) (length (shape opt)) ->
  run rand arrival n opt w = Ok (opt', w') ->
  best_is_witnessed opt' w'.
Proof.
  induction n as [|n IH]; intros opt w opt' w' Hlay Hap Hw Hsafe H;
    cbn [run] in H.
  - now apply ret_Ok in H as [-> ->].
  - apply bind_Ok in H as (o1 & w1 & Hs & H).
    destruct (step_total rand arrival opt w Hlay Hsafe)
      as (o1' & w1' & Hs' & L1 & O1 & S1 & _).
    rewrite Hs in Hs'. injection Hs' as <- <-.
    apply (IH o1 w1 opt' w' L1); [| |now rewrite O1, S1|exact H].
    + exact (arrays_apart_static _ _ (step_static _ _ _ _ _ _ Hs) Hap).
    + exact (step_witnessed _ _ _ _ Hlay Hap Hw Hsafe Hs).
Qed.

End Witnessed.

(** X16: after [New] and any number of steps, under the conditions of a
    safe run, whenever the recorded global best fitness is below the
    initial [math.MaxFloat64] the array that [Best] returns holds a
    position whose objective value is exactly that fitness, with every
    bounded coordinate inside its bound and every constraint satisfied. *)
Theorem best_position_is_witnessed (rand : nat -> float)
    (arrival : nat -> list nat) (GOMAXPROCS : Z) (f : Fitness)
    (sh : list Range) (o : Options) (w : World) (n : nat)
    (opt : Optimizer) (e : option error) (w1 : World)
    (opt' : Optimizer) (w' : World)
  (Hsized : well_sized (resolve GOMAXPROCS (length sh) o))
  (Hsafe : steps_safely arrival (resolve GOMAXPROCS (length sh) o)
             (length sh))
  (HNew : New rand GOMAXPROCS f sh o w = Ok (Some opt, e, w1))
  (Hrun : run rand arrival n opt w1 = Ok (opt', w'))
  (Hbest : F64.ltb (globalBestFitness opt') F64.MaxFloat64 = true) :
  exists l v,
    Best (Some opt') = Some l /\ heap w' !! l = Some v /\
    globalBestFitness opt' = f v /\
    covered_in_bounds (Bounds o) v = true /\
    accepted (Constraints o) v = true.
Proof.
  unfold New in HNew. destruct sh as [|r sh]; [discriminate|].
  apply bind_Ok in HNew as (opt0 & w0 & Hr & HNew).
  apply ret_Ok in HNew as [HNew <-]. injection HNew as <- _.
  destruct (well_sized_groups _ Hsized) as (HP & HG & Hfit).
  match type of Hr with reset _ ?x _ = _ => set (raw := x) in * end.
  destruct (reset_total rand raw w HP
              (conj (Z.lt_le_incl _ _ (proj1 HG)) (proj2 HG)) Hfit)
    as (opt1 & w2 & Hr' & Hlay & _ & _ & _ & Ho & Hs & Hf & _ & Hap & Hgb).
  rewrite Hr in Hr'. injection Hr' as <- <-.
  cbn [options shape fitness raw] in Ho, Hs, Hf.
  assert (best_is_witnessed opt w1) as Hw.
  { intros Hlt. rewrite Hgb, F64Facts.ltb_irrefl in Hlt. discriminate. }
  assert (steps_safely arrival (options opt) (length (shape opt))) as Hsafe'
    by now rewrite Ho, Hs.
  pose proof (run_witnessed rand arrival n opt w1 opt' w' Hlay Hap Hw
                Hsafe' Hrun Hbest) as (v & Hv & Hfv & Hc & Ha).
  pose proof (run_static _ _ _ _ _ _ _ Hrun) as (S1 & _ & S3 & _).
  rewrite S1, Hf in Hfv. rewrite S3, Ho in Hc, Ha.
  exists (globalBestPosition opt'), v. now repeat split.
Qed.

Lemma best_position_is_witnessed_witness :
  match New Demo.rand Demo.GOMAXPROCS Demo.square Demo.line
          (Demo.with_sizes 2 4 Demo.unset) Demo.empty_world with
  | Ok (Some opt, _, w1) =>
      match run Demo.rand (Demo.in_order 4) 3 opt w1 with
      | Ok (opt', w') =>
          exists l v,
            Best (Some opt') = Some l /\ heap w' !! l = Some v /\
            globalBestFitness opt' = Demo.square v /\
            covered_in_bounds [] v = true /\ accepted [] v = true
      | Panic _ => False
      end
  | _ => False
  end.
Proof.
  destruct (New _ _ _ _ _ _) as [[[[opt|] e] w1]|q] eqn:HNew;
    [|vm_compute in HNew; discriminate HNew ..].
  destruct (run _ _ _ _ _) as [[opt' w']|q] eqn:Hrun.
  - refine (best_position_is_witnessed Demo.rand (Demo.in_order 4)
              Demo.GOMAXPROCS Demo.square Demo.line
              (Demo.with_sizes 2 4 Demo.unset) Demo.empty_world 3
              opt e w1 opt' w' _ _ HNew Hrun _).
    + unfold well_sized. vm_compute. repeat split; discriminate.
    + refine (conj _ (conj _ (conj _ _))).
      * reflexivity.
      * reflexivity.
      * cbn. lia.
      * intros k. vm_compute. repeat constructor.
    + vm_compute in HNew. injection HNew as <- _ <-.
      vm_compute in Hrun. injection Hrun as <- _. reflexivity.
  - vm_compute in HNew. injection HNew as <- _ <-.
    vm_compute in Hrun. discriminate Hrun.
Defined.

(** ** The stall counts *)

Lemma missed_app rs rs' j : missed (rs ++ rs') j = missed rs j || missed rs' j.
Proof. unfold missed. apply existsb_app. Qed.

Lemma missed_index rs j : missed rs j = true -> j ∈ map fst rs.
Proof.
  unfold missed. rewrite existsb_exists. intros ([i r] & Hin & H).
  apply andb_true_iff in H as [H _]. apply Nat.eqb_eq in H. cbn in H.
  subst i. apply list_elem_of_In in Hin.
  change j with (fst (j, r)). now apply list_elem_of_fmap_2.
Qed.

Lemma improve_particle_stall idx f o w o' w' :
  improve_particle idx f o w = Ok (o', w') -> stallCount o' = stallCount o.
Proof.
  intros H. unfold improve_particle in H.
  apply bind_Ok in H as (best & w1 & Hb & H).
  destruct (F64.ltb f best).
  - do 3 (apply bind_Ok in H as (? & ? & _ & H)).
    now apply ret_Ok in H as [-> _].
  - now apply ret_Ok in H as [-> _].
Qed.

Lemma improve_group_stall idx f o w o' w' :
  improve_group idx f o w = Ok (o', w') -> stallCount o' = stallCount o.
Proof.
  intros H. unfold improve_group in H.
  apply bind_Ok in H as (g & w1 & _ & H).
  apply bind_Ok in H as (best & w2 & _ & H).
  destruct (F64.ltb f best).
  - do 3 (apply bind_Ok in H as (? & ? & _ & H)).
    now apply ret_Ok in H as [-> _].
  - now apply ret_Ok in H as [-> _].
Qed.

Lemma improve_global_stall idx f o w o' w' :
  improve_global idx f o w = Ok (o', w') -> stallCount o' = stallCount o.
Proof.
  intros H. unfold improve_global in H.
  destruct (F64.ltb f (globalBestFitness o)).
  - do 2 (apply bind_Ok in H as (? & ? & _ & H)).
    now apply ret_Ok in H as [-> _].
  - now apply ret_Ok in H as [-> _].
Qed.

(** What one collected result does to the stall counts. *)
Lemma collect_stall o avg cnt idx r w o' avg' cnt' w' :
  collect (o, avg, cnt) (idx, r) w = Ok (o', avg', cnt', w') ->
  forall j,
    stallCount o' !! j =
    if missed [(idx, r)] j then bump <$> stallCount o !! j
    else stallCount o !! j.
Proof.
  intros H j. unfold collect in H. unfold missed. cbn [existsb fst snd].
  rewrite orb_false_r. destruct r as [f|].
  - rewrite andb_false_r.
    apply bind_Ok in H as (o1 & w1 & H1 & H).
    apply bind_Ok in H as (o2 & w2 & H2 & H).
    apply bind_Ok in H as (o3 & w3 & H3 & H).
    apply ret_Ok in H as [H _]. injection H as <- _ _.
    apply improve_particle_stall in H1. apply improve_group_stall in H2.
    apply improve_global_stall in H3. congruence.
  - rewrite andb_true_r.
    apply bind_Ok in H as (c & w1 & Hc & H). apply lift_Ok in Hc as [Hc ->].
    apply ret_Ok in H as [H _]. injection H as -> _ _. cbn [stallCount].
    cbn. apply index_Ok in Hc.
    destruct (Nat.eqb_spec idx j) as [->|Hne].
    + rewrite list_lookup_insert_eq by (now apply lookup_lt_Some in Hc).
      now rewrite Hc.
    + now apply list_lookup_insert_ne.
Qed.

Section StallCounts.
Variable rand : nat -> float.
Variable arrival : nat -> list nat.

Lemma collect_all_stall rs : forall o avg cnt w o' avg' cnt' w',
  NoDup (map fst rs) ->
  foldM collect rs (o, avg, cnt) w = Ok (o', avg', cnt', w') ->
  forall j,
    stallCount o' !! j =
    if missed rs j then bump <$> stallCount o !! j else stallCount o !! j.
Proof.
  induction rs as [|[idx r] rs IH]; intros o avg cnt w o' avg' cnt' w' Hnd H j.
  - cbn in H. apply ret_Ok in H as [H _]. now injection H as -> _ _.
  - cbn [foldM] in H.
    apply bind_Ok in H as ([[o1 avg1] cnt1] & w1 & Hc & H).
    cbn [map fst] in Hnd. apply NoDup_cons in Hnd as [Hnotin Hnd].
    rewrite (IH _ _ _ _ _ _ _ _ Hnd H j).
    rewrite (collect_stall _ _ _ _ _ _ _ _ _ _ Hc j).
    change ((idx, r) :: rs) with ([(idx, r)] ++ rs). rewrite missed_app.
    destruct (missed rs j) eqn:Ers.
    + assert (missed [(idx, r)] j = false) as ->; [|reflexivity].
      apply missed_index in Ers.
      unfold missed. cbn [existsb fst]. rewrite orb_false_r.
      destruct (Nat.eqb_spec idx j) as [->|Hne]; [|reflexivity].
      contradiction.
    + now rewrite orb_false_r.
Qed.

Lemma missed_evaluated opt h order rs j :
  evaluate opt h order = Ok rs ->
  missed rs j = true <->
  j ∈ order /\ getParticleFitness opt h j = Ok None.
Proof.
  intros He. pose proof (evaluate_results _ _ _ _ He) as Hres.
  pose proof (evaluate_indices _ _ _ _ He) as Hidx.
  rewrite Forall_forall in Hres. unfold missed. rewrite existsb_exists.
  split.
  - intros ([i r] & Hin & H). apply andb_true_iff in H as [H1 H2].
    apply Nat.eqb_eq in H1. cbn in H1, H2. subst i.
    destruct r; [discriminate|]. apply list_elem_of_In in Hin.
    split.
    + rewrite <- Hidx. change j with (fst (j, @None float)).
      now apply list_elem_of_fmap_2.
    + exact (Hres _ Hin).
  - intros [Hin Hg]. rewrite <- Hidx in Hin.
    apply list_elem_of_fmap in Hin as ([i r] & -> & Hin).
    pose proof (Hres _ Hin) as Hr. cbn [fst snd] in *.
    rewrite Hg in Hr. injection Hr as <-.
    exists (i, None). split; [now apply list_elem_of_In|].
    cbn. now rewrite Nat.eqb_refl.
Qed.

Lemma step_stall opt w opt' w' :
  NoDup (arrival (rounds w)) ->
  step rand arrival opt w = Ok (opt', w') ->
  forall j,
    stallCount opt' !! j =
    if bool_decide (j ∈ arrival (rounds w))
    then match getParticleFitness opt (heap w) j with
         | Ok None => bump <$> stallCount opt !! j
         | _ => stallCount opt !! j
         end
    else stallCount opt !! j.
Proof.
  intros Hnd H j. unfold step in H.
  apply bind_Ok in H as (o1 & w1 & Hu & H).
  apply update_rule_frame in H as [v ->]. cbn [stallCount set_velocities].
  unfold update_fitness in Hu.
  destruct (to_int _ <? 0); [discriminate|].
  destruct (_ && _); [discriminate|].
  apply bind_Ok in Hu as (order & w0 & Ho & Hu).
  unfold next_round in Ho. injection Ho as <- <-.
  apply bind_Ok in Hu as (rs & w2 & He & Hu). apply lift_Ok in He as [He ->].
  cbn [heap] in He.
  apply bind_Ok in Hu as ([[o2 avg] cnt] & w2 & Hc & Hu).
  apply ret_Ok in Hu as [-> _]. cbn.
  rewrite <- (evaluate_indices _ _ _ _ He) in Hnd.
  rewrite (collect_all_stall _ _ _ _ _ _ _ _ _ Hnd Hc j).
  pose proof (missed_evaluated _ _ _ _ j He) as Hm.
  destruct (missed rs j).
  - destruct (proj1 Hm eq_refl) as [Hin Hg].
    rewrite bool_decide_eq_true_2 by exact Hin. now rewrite Hg.
  - destruct (bool_decide_reflect (j ∈ arrival (rounds w))) as [Hin|Hout];
      [|reflexivity].
    destruct (getParticleFitness opt (heap w) j) as [[f|]|q] eqn:Hg;
      try reflexivity.
    discriminate (proj2 Hm (conj Hin eq_refl)).
Qed.

End StallCounts.

(** X17: a step in which every particle reports once adds one (as a
    [uint]) to the stall count of each particle evaluated without a
    fitness and leaves every other stall count as it was: an evaluation
    with a fitness does not set the count back to 0. *)
Theorem stall_counts_only_grow (rand : nat -> float)
    (arrival : nat -> list nat) (opt : Optimizer) (w : World)
    (opt' : Optimizer) (w' : World) (j : nat)
  (Honce : NoDup (arrival (rounds w)))
  (HStep : Step rand arrival (Some opt) w = Ok (Some opt', w')) :
  stallCount opt' !! j =
  if bool_decide (j ∈ arrival (rounds w))
  then match getParticleFitness opt (heap w) j with
       | Ok None => bump <$> stallCount opt !! j
       | _ => stallCount opt !! j
       end
  else stallCount opt !! j.
Proof.
  apply Step_Some in HStep as (o1 & [= <-] & Hs).
  exact (step_stall rand arrival opt w opt' w' Honce Hs j).
Qed.

Lemma stall_counts_only_grow_witness :
  match New Demo.rand Demo.GOMAXPROCS Demo.square Demo.line
          (Demo.with_limits [] [fun _ => false]
             (Demo.with_sizes 2 4 Demo.unset)) Demo.empty_world with
  | Ok (Some opt, _, w) =>
      match Step Demo.rand (Demo.in_order 4) (Some opt) w with
      | Ok (Some opt', _) =>
          stallCount opt !! 0%nat = Some 0 /\
          stallCount opt' !! 0%nat = Some 1
      | _ => False
      end
  | _ => False
  end.
Proof.
  destruct (New _ _ _ _ _ _) as [[[[opt|] e] w]|q] eqn:HNew;
    [|vm_compute in HNew; discriminate HNew ..].
  destruct (Step _ _ _ _) as [[[opt'|] w']|q] eqn:HStep.
  - rewrite (stall_counts_only_grow Demo.rand (Demo.in_order 4) opt w opt' w'
               0%nat (NoDup_seq 0 4) HStep).
    vm_compute in HNew. injection HNew as <- _ <-. split; reflexivity.
  - vm_compute in HNew. injection HNew as <- _ <-.
    vm_compute in HStep. discriminate HStep.
  - vm_compute in HNew. injection HNew as <- _ <-.
    vm_compute in HStep. discriminate HStep.
Defined.

(** ** A progress rate that is no number *)

Lemma is_nan_rk x : F64.is_nan x = true <-> F64.rk x = None.
Proof.
  pose proof (F64Facts.is_nan_view x) as H.
  destruct (F64.is_nan x), (F64.rk x) as [a|]; split; intros E;
    try reflexivity; try discriminate.
  - discriminate (proj2 H ltac:(discriminate)).
  - destruct (proj1 H eq_refl eq_refl).
Qed.

Lemma is_nan_abs x : F64.is_nan x = true -> F64.is_nan (PrimFloat.abs x) = true.
Proof.
  rewrite !is_nan_rk. unfold F64.rk. rewrite FloatAxioms.abs_spec.
  destruct (Prim2SF x) as [s|s| |s m e]; try destruct s; cbn; congruence.
Qed.

Lemma ltb_nan_r y x : F64.is_nan x = true -> F64.ltb y x = false.
Proof.
  intros H. apply is_nan_rk in H.
  apply (F64Facts.false_view _ _ (F64Facts.ltb_view _ _)).
  unfold F64.lt_view. rewrite H. now destruct (F64.rk y).
Qed.

Section NoNumber.
Variable rand : nat -> float.
Variable arrival : nat -> list nat.
Variable Log10 : float -> float.

Lemma loop_nan eps (Hnan : F64.is_nan eps = true) fuel : forall opt c w,
  laid_out opt w -> steps_safely arrival (options opt) (length (shape opt)) ->
  exists w',
    loop rand arrival Log10 fuel eps (opt, c) w = Ok (None, w') /\
    rounds w' = (rounds w + fuel)%nat.
Proof.
  induction fuel as [|fuel IH]; intros opt c w Hlay Hsafe.
  - exists w. split; [reflexivity | lia].
  - destruct (step_total rand arrival opt w Hlay Hsafe)
      as (o1 & w1 & Hs & L1 & O1 & S1 & _ & R1).
    assert (turn rand arrival Log10 eps (opt, c) w =
            Ok ((o1, mkController (to_int (steps c + 1)) 0
                       (globalBestFitness o1), false), w1)) as Hturn.
    { unfold turn. rewrite (bind_run _ _ _ _ _ Hs). unfold judge.
      now rewrite (ltb_nan_r _ _ Hnan). }
    destruct (IH o1 (mkController (to_int (steps c + 1)) 0
                       (globalBestFitness o1)) w1 L1)
      as (w2 & Hl & R2); [now rewrite O1, S1|].
    exists w2. cbn [loop]. rewrite (bind_run _ _ _ _ _ Hturn).
    split; [exact Hl | lia].
Qed.

End NoNumber.

(** X18: with a NaN as [progressRate], no improvement ever counts as too
    small, the stagnation counter restarts at every turn and the loop of
    [StepUntil] never breaks: on an optimizer that steps safely the call
    is still running after any number of turns, having used one
    evaluation round for the first step and one per turn. *)
Theorem StepUntil_without_a_rate_never_returns
    (rand : nat -> float) (arrival : nat -> list nat)
    (Log10 : float -> float) (rate : float)
    (opt : Optimizer) (w : World) (fuel : nat)
  (Hnan : F64.is_nan rate = true)
  (Hlay : laid_out opt w)
  (Hsafe : steps_safely arrival (options opt) (length (shape opt))) :
  exists w',
    StepUntil rand arrival Log10 fuel rate (Some opt) w = Ok (None, w') /\
    rounds w' = (rounds w + 1 + fuel)%nat.
Proof.
  destruct (step_total rand arrival opt w Hlay Hsafe)
    as (o1 & w1 & Hs & L1 & O1 & S1 & _ & R1).
  destruct (loop_nan rand arrival Log10 (PrimFloat.abs rate)
              (is_nan_abs _ Hnan) fuel o1
              (mkController 1 0 (globalBestFitness o1)) w1 L1)
    as (w2 & Hl & R2); [now rewrite O1, S1|].
  exists w2. unfold StepUntil. rewrite (bind_run _ _ _ _ _ Hs).
  rewrite (bind_run _ _ _ _ _ Hl). split; [reflexivity | lia].
Qed.

Lemma StepUntil_without_a_rate_never_returns_witness :
  match New Demo.rand Demo.GOMAXPROCS Demo.square Demo.line
          (Demo.with_sizes 1 2 Demo.unset) Demo.empty_world with
  | Ok (Some opt, _, w) =>
      exists w',
        StepUntil Demo.rand (Demo.in_order 2) DemoLoop.coarse_log10 7 nan
                  (Some opt) w = Ok (None, w') /\
        rounds w' = (rounds w + 1 + 7)%nat
  | _ => False
  end.
Proof.
  destruct (New _ _ _ _ _ _) as [[[[opt|] e] w]|q] eqn:HNew;
    [|vm_compute in HNew; discriminate HNew ..].
  vm_compute in HNew. injection HNew as <- _ <-.
  apply StepUntil_without_a_rate_never_returns.
  - reflexivity.
  - unfold laid_out. cbn.
    repeat split;
      repeat (apply Forall_cons_2); try apply Forall_nil_2;
      try reflexivity; eexists; split; reflexivity.
  - refine (conj _ (conj _ (conj _ _))).
    + reflexivity.
    + reflexivity.
    + cbn. lia.
    + intros k. vm_compute. repeat constructor.
Defined.
